(** * lots-of-knobs: the input-event core of a USB-MIDI controller

    A shallow embedding of the CircuitPython firmware: the debounced key
    matrix scanner ([key_matrix.py]), the rotary encoder decoder
    ([encoder.py]), the MIDI message encoder ([midi_output.py]) and the
    dispatch loop with its shutdown handler ([code.py]); of the LED
    controller ([led_control.py]) and the display ([display.py]), the
    methods that compute on integers only.

    Conventions of the embedding.
    - Python integers are [Z]; list indices that come from [range] are [nat].
    - [time.monotonic()] readings are exact, in integer microseconds, so
      [0.02] s is [20000], [0.05] s is [50000] and [0.1] s is [100000].
    - A Python exception ([IndexError] on a list index, [ValueError] from
      [bytes]) is [None] in the [option] monad; lemmas named [*_total] show
      that it does not occur on well-formed states.
    - Hardware reads (pin levels, clock) are inputs of each operation;
      hardware writes and calls to the LED and display collaborators are
      recorded, in program order, in a list of [event]s. *)

From Stdlib Require Import ZArith List Lia Bool String.
From stdpp Require Import base option numbers list gmap sets strings sorting.

Local Open Scope Z_scope.

(** ** Python helpers *)

(** [l[i] = x]: raises [IndexError] when [i] is out of range. *)
Definition list_assign {A} (l : list A) (i : nat) (x : A) : option (list A) :=
  if decide (i < length l)%nat then Some (<[i:=x]> l) else None.

(** [max(lo, min(hi, x))], the clamp idiom used throughout the sources. *)
Definition clamp (lo hi x : Z) : Z := Z.max lo (Z.min hi x).

(** A [for] loop whose body may raise: the state is threaded through the
    iterations, the first exception aborts the loop. *)
Fixpoint for_each {A S} (l : list A) (body : A → S → option S) (s : S)
  : option S :=
  match l with
  | [] => Some s
  | x :: l' => s' ← body x s; for_each l' body s'
  end.

(** ** key_matrix.py *)

Module KeyMatrix.

(** [DEBOUNCE_TIME = 0.02] *)
Definition DEBOUNCE_TIME : Z := 20000.

(** [len(ROW_PINS)] and [len(COL_PINS)] *)
Definition NUM_ROWS : nat := 4.
Definition NUM_COLS : nat := 5.

Definition KEY_MAP : list (list (option nat)) :=
  [ [Some 0;  Some 1;  Some 2;  Some 3;  Some 17];
    [Some 4;  Some 5;  Some 6;  Some 7;  None];
    [Some 8;  Some 9;  Some 10; Some 11; None];
    [Some 12; Some 13; Some 14; Some 15; Some 16] ]%nat.

Definition NUM_KEYS : nat := 18.

Record t := mk {
  key_states : list bool;
  last_change_time : list Z
}.

(** [__init__] *)
Definition init : t :=
  {| key_states := replicate NUM_KEYS false;
     last_change_time := replicate NUM_KEYS 0 |}.

(** What one call of [scan] reads from the hardware: the clock, and the
    level of column [c] while row [r] is driven low ([True] = high). *)
Record reading := mk_reading {
  current_time : Z;
  col_value : nat → nat → bool
}.

(** Body of the inner loop of [scan] for a connected cell. *)
Definition scan_cell (now : Z) (level : bool) (key_num : nat) (m : t)
  : option t :=
  let is_pressed := negb level in
  last ← last_change_time m !! key_num;
  let time_since_change := now - last in
  st ← key_states m !! key_num;
  if decide (is_pressed ≠ st ∧ time_since_change > DEBOUNCE_TIME) then
    ks ← list_assign (key_states m) key_num is_pressed;
    lc ← list_assign (last_change_time m) key_num now;
    Some {| key_states := ks; last_change_time := lc |}
  else Some m.

Definition scan_col (r : reading) (row_index col_index : nat) (m : t)
  : option t :=
  row ← KEY_MAP !! row_index;
  cell ← row !! col_index;
  match cell with
  | None => Some m
  | Some key_num =>
      scan_cell (current_time r) (col_value r row_index col_index) key_num m
  end.

Definition scan_row (r : reading) (row_index : nat) (m : t) : option t :=
  for_each (seq 0 NUM_COLS) (scan_col r row_index) m.

Definition scan (r : reading) (m : t) : option t :=
  for_each (seq 0 NUM_ROWS) (scan_row r) m.

(** [is_pressed] *)
Definition is_pressed (m : t) (key_num : Z) : option bool :=
  if decide (0 ≤ key_num < Z.of_nat NUM_KEYS)
  then key_states m !! Z.to_nat key_num
  else Some false.

(** [get_pressed_keys]: [[i for i in range(NUM_KEYS) if key_states[i]]] *)
Definition get_pressed_keys (m : t) : option (list nat) :=
  for_each (seq 0 NUM_KEYS)
    (λ i acc, b ← key_states m !! i;
              Some (if b : bool then acc ++ [i] else acc)) [].

(** [get_key_count]: [sum(self.key_states)] *)
Definition get_key_count (m : t) : Z :=
  foldl (λ acc (b : bool), acc + Z.b2z b) 0 (key_states m).

(** [is_encoder_sw_pressed] *)
Definition is_encoder_sw_pressed (m : t) : option bool := is_pressed m 17.

End KeyMatrix.

(** ** encoder.py *)

Module RotaryEncoder.

(** [ACCELERATION_THRESHOLD = 0.05], [ACCELERATION_MULTIPLIER = 2] *)
Definition ACCELERATION_THRESHOLD : Z := 50000.
Definition ACCELERATION_MULTIPLIER : Z := 2.

Record t := mk {
  position : Z;
  last_clk_state : bool;
  acceleration_enabled : bool;
  last_rotation_time : Z
}.

(** What one call of [update] reads: the CLK (phase A) and DT (phase B)
    levels, and the clock (consulted on a falling edge only). *)
Record reading := mk_reading {
  clk : bool;
  dt : bool;
  current_time : Z
}.

(** [__init__]: [last_clk_state] is the CLK level at construction. *)
Definition init (clk0 acceleration : bool) : t :=
  {| position := 0; last_clk_state := clk0;
     acceleration_enabled := acceleration; last_rotation_time := 0 |}.

Definition set_position (p : Z) (e : t) : t :=
  {| position := p; last_clk_state := last_clk_state e;
     acceleration_enabled := acceleration_enabled e;
     last_rotation_time := last_rotation_time e |}.

Definition set_last_rotation_time (x : Z) (e : t) : t :=
  {| position := position e; last_clk_state := last_clk_state e;
     acceleration_enabled := acceleration_enabled e;
     last_rotation_time := x |}.

Definition set_last_clk_state (b : bool) (e : t) : t :=
  {| position := position e; last_clk_state := b;
     acceleration_enabled := acceleration_enabled e;
     last_rotation_time := last_rotation_time e |}.

(** [update]: returns the delta and the mutated object. *)
Definition update (r : reading) (e : t) : Z * t :=
  let current_clk := clk r in
  let delta := 0 in
  let '(delta, e) :=
    if last_clk_state e && negb current_clk then
      let now := current_time r in
      let '(delta, e) :=
        if dt r then (1, set_position (position e + 1) e)
        else (-1, set_position (position e - 1) e) in
      let delta :=
        if acceleration_enabled e then
          let time_since_last := now - last_rotation_time e in
          if decide (time_since_last < ACCELERATION_THRESHOLD)
          then delta * ACCELERATION_MULTIPLIER else delta
        else delta in
      (delta, set_last_rotation_time now e)
    else (delta, e) in
  (delta, set_last_clk_state current_clk e).

Definition get_delta (r : reading) (e : t) : Z * t := update r e.

(** [get_position], [reset_position] ([set_position] is above) *)
Definition get_position (e : t) : Z := position e.

Definition reset_position (e : t) : t := set_position 0 e.

(** [enable_acceleration] *)
Definition enable_acceleration (enabled : bool) (e : t) : t :=
  {| position := position e; last_clk_state := last_clk_state e;
     acceleration_enabled := enabled;
     last_rotation_time := last_rotation_time e |}.

End RotaryEncoder.

Module EncoderWithValue.

Record t := mk {
  encoder : RotaryEncoder.t;
  value : Z;
  min_value : Z;
  max_value : Z
}.

(** [__init__]; the initial value is stored as given. *)
Definition init (clk0 : bool) (initial_value min max : Z)
    (acceleration : bool) : t :=
  {| encoder := RotaryEncoder.init clk0 acceleration;
     value := initial_value; min_value := min; max_value := max |}.

(** [update]: returns the change of [value] and the mutated object. *)
Definition update (r : RotaryEncoder.reading) (w : t) : Z * t :=
  let '(delta, enc) := RotaryEncoder.get_delta r (encoder w) in
  if decide (delta ≠ 0) then
    let old_value := value w in
    let new_value :=
      Z.max (min_value w) (Z.min (max_value w) (value w + delta)) in
    (new_value - old_value,
     {| encoder := enc; value := new_value;
        min_value := min_value w; max_value := max_value w |})
  else
    (0, {| encoder := enc; value := value w;
           min_value := min_value w; max_value := max_value w |}).

(** [get_value] *)
Definition get_value (w : t) : Z := value w.

(** [set_value]: the argument is clipped into the range. *)
Definition set_value (v : Z) (w : t) : t :=
  {| encoder := encoder w;
     value := Z.max (min_value w) (Z.min (max_value w) v);
     min_value := min_value w; max_value := max_value w |}.

(** [set_range]: stores the bounds, then clips the current value. *)
Definition set_range (min max : Z) (w : t) : t :=
  {| encoder := encoder w;
     value := Z.max min (Z.min max (value w));
     min_value := min; max_value := max |}.

(** [enable_acceleration] *)
Definition enable_acceleration (enabled : bool) (w : t) : t :=
  {| encoder := RotaryEncoder.enable_acceleration enabled (encoder w);
     value := value w; min_value := min_value w; max_value := max_value w |}.

End EncoderWithValue.

(** ** midi_output.py *)

Module MIDIOutput.

Definition NOTE_OFF : Z := 0x80.
Definition NOTE_ON : Z := 0x90.
Definition CONTROL_CHANGE : Z := 0xB0.
Definition PROGRAM_CHANGE : Z := 0xC0.

(** The object's only mutable attribute; the port is write-only. *)
Record t := mk { default_channel : Z }.

(** [_validate_channel], [_validate_value] *)
Definition _validate_channel (channel : Z) : Z :=
  Z.max 1 (Z.min 16 channel).

Definition _validate_value (value min_val max_val : Z) : Z :=
  Z.max min_val (Z.min max_val value).

Definition init (default_channel : Z) : t :=
  {| default_channel := _validate_channel default_channel |}.

Definition set_default_channel (channel : Z) (m : t) : t :=
  {| default_channel := _validate_channel channel |}.

(** [_get_channel]: [None] selects the default channel. *)
Definition _get_channel (m : t) (channel : option Z) : Z :=
  match channel with
  | None => default_channel m
  | Some c => _validate_channel c
  end.

(** [bytes(message)]: [ValueError] unless every item is in [range(256)]. *)
Definition bytes (message : list Z) : option (list Z) :=
  if decide (Forall (λ b, 0 ≤ b < 256) message) then Some message else None.

(** [_send_message]: the byte string handed to [midi_out.write]. *)
Definition _send_message (m : t) (message : list Z) : option (list Z) :=
  bytes message.

Definition note_on (m : t) (note velocity : Z) (channel : option Z)
  : option (list Z) :=
  let ch := _get_channel m channel in
  let note := _validate_value note 0 127 in
  let velocity := _validate_value velocity 0 127 in
  let status := Z.lor NOTE_ON (ch - 1) in
  _send_message m [status; note; velocity].

Definition note_off (m : t) (note velocity : Z) (channel : option Z)
  : option (list Z) :=
  let ch := _get_channel m channel in
  let note := _validate_value note 0 127 in
  let velocity := _validate_value velocity 0 127 in
  let status := Z.lor NOTE_OFF (ch - 1) in
  _send_message m [status; note; velocity].

Definition control_change (m : t) (cc_number value : Z) (channel : option Z)
  : option (list Z) :=
  let ch := _get_channel m channel in
  let cc_number := _validate_value cc_number 0 127 in
  let value := _validate_value value 0 127 in
  let status := Z.lor CONTROL_CHANGE (ch - 1) in
  _send_message m [status; cc_number; value].

Definition program_change (m : t) (program : Z) (channel : option Z)
  : option (list Z) :=
  let ch := _get_channel m channel in
  let program := _validate_value program 0 127 in
  let status := Z.lor PROGRAM_CHANGE (ch - 1) in
  _send_message m [status; program].

Definition all_notes_off (m : t) (channel : option Z) : option (list Z) :=
  control_change m 123 0 channel.

(** [deinit]: All Notes Off on channels 1 to 16; the messages written. *)
Definition deinit (m : t) : option (list (list Z)) :=
  mapM (λ ch, all_notes_off m (Some (Z.of_nat ch))) (seq 1 16).

End MIDIOutput.

Module MIDINote.

(** [midi] is a reference to the [MIDIOutput] the caller also holds; the
    program never rebinds it, so one copy stands for both names. *)
Record t := mk {
  midi : MIDIOutput.t;
  active_notes : gset Z
}.

Definition init (midi_output : MIDIOutput.t) : t :=
  {| midi := midi_output; active_notes := ∅ |}.

(** Each method returns the mutated tracker and the messages written to
    the port, oldest first. *)
Definition play (note velocity : Z) (channel : option Z) (n : t)
  : option (t * list (list Z)) :=
  if decide (note ∉ active_notes n) then
    msg ← MIDIOutput.note_on (midi n) note velocity channel;
    Some ({| midi := midi n; active_notes := active_notes n ∪ {[note]} |},
          [msg])
  else Some (n, []).

Definition stop (note : Z) (channel : option Z) (n : t)
  : option (t * list (list Z)) :=
  if decide (note ∈ active_notes n) then
    msg ← MIDIOutput.note_off (midi n) note 0 channel;
    Some ({| midi := midi n; active_notes := active_notes n ∖ {[note]} |},
          [msg])
  else Some (n, []).

(** [stop_all]: [list(self.active_notes)] enumerates the set in an
    unspecified order, here the order of [elements]. *)
Definition stop_all (channel : option Z) (n : t)
  : option (t * list (list Z)) :=
  msgs ← mapM (λ note, MIDIOutput.note_off (midi n) note 0 channel)
              (elements (active_notes n));
  Some ({| midi := midi n; active_notes := ∅ |}, msgs).

Definition is_playing (note : Z) (n : t) : bool :=
  bool_decide (note ∈ active_notes n).

End MIDINote.

(** ** led_control.py *)

Module LEDController.

Definition NUM_LEDS : Z := 16.

(** [KEY_TO_LED[key_num] = led_index] *)
Definition KEY_TO_LED : list Z :=
  [ 3; 2; 1; 0;
    4; 5; 6; 7;
    11; 10; 9; 8;
    12; 13; 14; 15 ].

(** An [(R, G, B)] tuple. *)
Definition color : Type := Z * Z * Z.

(** [pixels] is the NeoPixel buffer, created with [auto_write=False];
    [lit] is what the strip shows: the buffer as of the last [show].
    The floating-point brightness is left out. *)
Record t := mk {
  pixels : list color;
  num_leds : Z;
  lit : list color
}.

Definition show (l : t) : t :=
  {| pixels := pixels l; num_leds := num_leds l; lit := pixels l |}.

(** [self.pixels.fill((0, 0, 0))], then [show]. *)
Definition clear (l : t) : t :=
  show {| pixels := replicate (length (pixels l)) (0, 0, 0);
          num_leds := num_leds l; lit := lit l |}.

Definition init : t :=
  clear {| pixels := replicate (Z.to_nat NUM_LEDS) (0, 0, 0);
           num_leds := NUM_LEDS;
           lit := replicate (Z.to_nat NUM_LEDS) (0, 0, 0) |}.

Definition set_led_color (led_index : Z) (c : color) (l : t) : option t :=
  if decide (0 ≤ led_index < num_leds l) then
    px ← list_assign (pixels l) (Z.to_nat led_index) c;
    Some {| pixels := px; num_leds := num_leds l; lit := lit l |}
  else Some l.

Definition set_key_color (key_num : Z) (c : color) (l : t) : option t :=
  if decide (0 ≤ key_num < Z.of_nat (length KEY_TO_LED)) then
    led_index ← KEY_TO_LED !! Z.to_nat key_num;
    set_led_color led_index c l
  else Some l.

End LEDController.

(** ** display.py *)

Module Display.

Definition PHYSICAL_WIDTH : Z := 128.
Definition PHYSICAL_HEIGHT : Z := 64.
Definition DISPLAY_WIDTH : Z := 64.
Definition DISPLAY_HEIGHT : Z := 128.

(** The calls made on the SSD1306 driver object [self.oled]. *)
Inductive oled_call :=
| OledContrast (level : Z)
| OledFill (color : Z)
| OledShow
| OledPixel (x y color : Z)
| OledRect (x y width height color : Z)
| OledFillRect (x y width height color : Z).

Record t := mk {
  rotation : Z;
  width : Z;
  height : Z
}.

Definition clear : list oled_call := [OledFill 0; OledShow].

(** [__init__], once the driver object exists. *)
Definition init (rotation : Z) : t * list oled_call :=
  ({| rotation := rotation;
      width := if decide (rotation = 90 ∨ rotation = 270)
               then DISPLAY_WIDTH else PHYSICAL_WIDTH;
      height := if decide (rotation = 90 ∨ rotation = 270)
                then DISPLAY_HEIGHT else PHYSICAL_HEIGHT |},
   OledContrast 200 :: clear).

Definition pixel (d : t) (x y color : Z) : list oled_call :=
  if decide (rotation d = 90) then
    let physical_x := y in
    let physical_y := PHYSICAL_WIDTH - 1 - x in
    [OledPixel physical_x physical_y color]
  else [OledPixel x y color].

Definition rect (d : t) (x y width height color : Z) : list oled_call :=
  if decide (rotation d = 90) then
    let physical_x := y in
    let physical_y := PHYSICAL_WIDTH - x - width in
    [OledRect physical_x physical_y height width color]
  else [OledRect x y width height color].

Definition fill_rect (d : t) (x y width height color : Z)
  : list oled_call :=
  if decide (rotation d = 90) then
    let physical_x := y in
    let physical_y := PHYSICAL_WIDTH - x - width in
    [OledFillRect physical_x physical_y height width color]
  else [OledFillRect x y width height color].

End Display.

(** ** code.py *)

Module Main.

(** The five hardware-owning objects of the program. *)
Inductive collaborator := Display | Matrix | Encoder | Leds | Midi.

(** Observable effects, in program order. LED and display effects are the
    calls made on the [LEDController] and [Display] objects; MIDI effects
    are the byte strings written to the USB port. Brightness is given in
    percent, durations in microseconds. *)
Inductive event :=
| Init (c : collaborator)
| Deinit (c : collaborator)
| MidiWrite (data : list Z)
| LedSetKeyColor (key_num : nat) (r g b : Z)
| LedSetKeyValue (key_num : nat) (value : Z)
| LedShow
| LedClear
| LedSetBrightness (percent : Z)
| LedRainbowCycle (duration : Z)
| DisplayShowStartup
| DisplayShowMessage (message : string) (duration : option Z)
| DisplayShowLayer (layer_num : Z) (layer_name : string)
| DisplayShowFullStatus (layer_num : Z) (layer_name param_name : string)
                        (value cc_num channel : Z)
| Sleep (duration : Z).

#[global] Instance collaborator_eq_dec : EqDecision collaborator.
Proof. solve_decision. Defined.

#[global] Instance event_eq_dec : EqDecision event.
Proof. solve_decision. Defined.

Definition current_layer : Z := 1.
Definition layer_name : string := "Default".

(** [list(range(60, 76))] and [list(range(1, 17))] *)
Definition KEY_TO_NOTE : list Z := Z.of_nat <$> seq 60 16.
Definition KEY_TO_CC : list Z := Z.of_nat <$> seq 1 16.

Definition KEY_PARAM_NAMES : list string :=
  [ "Cutoff"; "Reso"; "Attack"; "Decay";
    "Release"; "LFO Rt"; "LFO Amt"; "Drive";
    "Reverb"; "Delay"; "Chorus"; "Pan";
    "Volume"; "Filter"; "Pitch"; "Mod" ]%string.

Definition midi_channel : Z := 1.

(** [DISPLAY_UPDATE_INTERVAL = 0.1] *)
Definition DISPLAY_UPDATE_INTERVAL : Z := 100000.

(** The module-level variables the loop mutates. [midi] of the source is
    [MIDINote.midi (midi_note st)]: both names denote one object. *)
Record state := mk {
  matrix : KeyMatrix.t;
  encoder : EncoderWithValue.t;
  midi_note : MIDINote.t;
  key_cc_values : list Z;
  prev_pressed_keys : list nat;
  last_display_update : Z
}.

Definition midi (st : state) : MIDIOutput.t := MIDINote.midi (midi_note st).

Definition set_inputs (m : KeyMatrix.t) (e : EncoderWithValue.t)
    (st : state) : state :=
  {| matrix := m; encoder := e; midi_note := midi_note st;
     key_cc_values := key_cc_values st;
     prev_pressed_keys := prev_pressed_keys st;
     last_display_update := last_display_update st |}.

Definition set_midi_note (n : MIDINote.t) (st : state) : state :=
  {| matrix := matrix st; encoder := encoder st; midi_note := n;
     key_cc_values := key_cc_values st;
     prev_pressed_keys := prev_pressed_keys st;
     last_display_update := last_display_update st |}.

Definition set_key_cc_values (l : list Z) (st : state) : state :=
  {| matrix := matrix st; encoder := encoder st; midi_note := midi_note st;
     key_cc_values := l;
     prev_pressed_keys := prev_pressed_keys st;
     last_display_update := last_display_update st |}.

Definition set_prev_pressed_keys (l : list nat) (st : state) : state :=
  {| matrix := matrix st; encoder := encoder st; midi_note := midi_note st;
     key_cc_values := key_cc_values st;
     prev_pressed_keys := l;
     last_display_update := last_display_update st |}.

Definition set_last_display_update (x : Z) (st : state) : state :=
  {| matrix := matrix st; encoder := encoder st; midi_note := midi_note st;
     key_cc_values := key_cc_values st;
     prev_pressed_keys := prev_pressed_keys st;
     last_display_update := x |}.

(** A state paired with the effects performed so far. *)
Definition run : Type := state * list event.

Definition newline : string := String (Ascii.ascii_of_nat 10) EmptyString.

(** Lines 44 to 117: construction of the objects and the start-up
    screens. [clk0] is the CLK level read by the encoder's constructor. *)
Definition startup (clk0 : bool) : run :=
  let key_cc_values := replicate 16 64 in
  ({| matrix := KeyMatrix.init;
      encoder := EncoderWithValue.init clk0 64 0 127 false;
      midi_note := MIDINote.init (MIDIOutput.init 1);
      key_cc_values := key_cc_values;
      prev_pressed_keys := [];
      last_display_update := 0 |},
   [ Init Display; DisplayShowStartup;
     Init Matrix;
     Init Encoder;
     Init Leds;
     Init Midi;
     DisplayShowMessage ("Initializing" +:+ newline +:+ "LEDs...")
                        (Some 500000);
     LedRainbowCycle 1500000;
     LedClear ]
   ++ imap (λ i v, LedSetKeyValue i v) key_cc_values
   ++ [ LedShow;
        DisplayShowMessage "Ready!" (Some 1000000);
        DisplayShowLayer current_layer layer_name ]).

(** What one loop iteration reads: the loop's own clock reading, then
    the scanner's and the encoder's. *)
Record reading := mk_reading {
  current_time : Z;
  matrix_in : KeyMatrix.reading;
  encoder_in : RotaryEncoder.reading
}.

(** Lines 157 to 178: body of [for key_num in newly_pressed]. *)
Definition on_press (key_num : nat) (s : run) : option run :=
  let '(st, log) := s in
  note ← KEY_TO_NOTE !! key_num;
  '(mn, msgs) ← MIDINote.play note 100 (Some midi_channel) (midi_note st);
  let st := set_midi_note mn st in
  value ← key_cc_values st !! key_num;
  param ← KEY_PARAM_NAMES !! key_num;
  cc_num ← KEY_TO_CC !! key_num;
  Some (st, log ++ (MidiWrite <$> msgs) ++
            [ LedSetKeyColor key_num 255 255 255; LedShow; Sleep 30000;
              LedSetKeyValue key_num value; LedShow;
              DisplayShowFullStatus current_layer layer_name param
                                    value cc_num midi_channel ]).

(** Lines 181 to 185: body of [for key_num in newly_released]. *)
Definition on_release (key_num : nat) (s : run) : option run :=
  let '(st, log) := s in
  note ← KEY_TO_NOTE !! key_num;
  '(mn, msgs) ← MIDINote.stop note (Some midi_channel) (midi_note st);
  Some (set_midi_note mn st, log ++ (MidiWrite <$> msgs)).

(** Lines 188 to 191: back to the layer screen. *)
Definition idle_redraw (now : Z) (pressed_keys : list nat) (s : run) : run :=
  let '(st, log) := s in
  if decide (pressed_keys = [] ∧ prev_pressed_keys st ≠ []) then
    if decide (now - last_display_update st > DISPLAY_UPDATE_INTERVAL) then
      (set_last_display_update now st,
       log ++ [DisplayShowLayer current_layer layer_name])
    else s
  else s.

(** Lines 199 to 225: body of [for key_num in pressed_keys]. *)
Definition adjust_key (encoder_delta : Z) (pressed_keys : list nat)
    (key_num : nat) (s : run) : option run :=
  let '(st, log) := s in
  old_val ← key_cc_values st !! key_num;
  ccs ← list_assign (key_cc_values st) key_num
                    (Z.max 0 (Z.min 127 (old_val + encoder_delta)));
  let st := set_key_cc_values ccs st in
  new_val ← key_cc_values st !! key_num;
  if decide (new_val ≠ old_val) then
    cc_num ← KEY_TO_CC !! key_num;
    msg ← MIDIOutput.control_change (midi st) cc_num new_val
                                    (Some midi_channel);
    first ← pressed_keys !! 0%nat;
    param ← KEY_PARAM_NAMES !! key_num;
    Some (st, log ++ [MidiWrite msg; LedSetKeyValue key_num new_val] ++
              if decide (key_num = first)
              then [DisplayShowFullStatus current_layer layer_name param
                                          new_val cc_num midi_channel]
              else [])
  else Some (st, log).

(** Lines 194 to 229: the encoder branch. *)
Definition encoder_dispatch (encoder_delta : Z) (pressed_keys : list nat)
    (s : run) : option run :=
  if decide (encoder_delta ≠ 0 ∧ pressed_keys ≠ []) then
    '(st, log) ← for_each pressed_keys
                          (adjust_key encoder_delta pressed_keys) s;
    Some (st, log ++ [LedShow])
  else Some s.

(** Lines 140 to 235: one pass of [while True]. The effects of the pass
    are appended to the log. *)
Definition loop_iteration (r : reading) (s : run) : option run :=
  let '(st, log) := s in
  let now := current_time r in
  m ← KeyMatrix.scan (matrix_in r) (matrix st);
  let '(encoder_delta, enc) :=
    EncoderWithValue.update (encoder_in r) (encoder st) in
  let st := set_inputs m enc st in
  all_pressed ← KeyMatrix.get_pressed_keys m;
  let pressed_keys := filter (λ k, (k < 16)%nat) all_pressed in
  let newly_pressed :=
    filter (λ k, k ∉ prev_pressed_keys st) pressed_keys in
  let newly_released :=
    filter (λ k, k ∉ pressed_keys) (prev_pressed_keys st) in
  s ← for_each newly_pressed on_press (st, log);
  s ← for_each newly_released on_release s;
  let s := idle_redraw now pressed_keys s in
  '(st, log) ← encoder_dispatch encoder_delta pressed_keys s;
  Some (set_prev_pressed_keys pressed_keys st, log ++ [Sleep 10000]).

(** The loop, run on the readings of successive passes. *)
Definition main_loop (rs : list reading) (s : run) : option run :=
  for_each rs loop_iteration s.

(** Lines 237 to 264: the [KeyboardInterrupt] handler. *)
Definition shutdown (s : run) : option run :=
  let '(st, log) := s in
  '(mn, stop_msgs) ← MIDINote.stop_all (Some midi_channel) (midi_note st);
  let st := set_midi_note mn st in
  sweep ← MIDIOutput.deinit (midi st);
  Some (st, log ++
    [DisplayShowMessage ("Shutting" +:+ newline +:+ "down...") None] ++
    (MidiWrite <$> stop_msgs) ++
    mjoin (replicate 3 [ LedSetBrightness 5; Sleep 150000;
                         LedSetBrightness 30; Sleep 150000 ]) ++
    [ LedClear;
      Deinit Matrix;
      Deinit Encoder;
      Deinit Leds;
      Deinit Midi ] ++ (MidiWrite <$> sweep) ++
    [ Deinit Display ]).

(** The program: start-up, the loop until the interrupt, shutdown. *)
Definition program (clk0 : bool) (rs : list reading) : option run :=
  s ← main_loop rs (startup clk0); shutdown s.

End Main.

(** ** Runs of several calls

    Sequential compositions of the operations above, used to state
    properties of call sequences. *)

Module Runs.

(** [tracker.play(note, v1, c1); tracker.play(note, v2, c2)] with the
    messages written by both calls. *)
Definition play_twice (note v1 : Z) (c1 : option Z) (v2 : Z)
    (c2 : option Z) (n : MIDINote.t) : option (MIDINote.t * list (list Z)) :=
  '(n1, msgs1) ← MIDINote.play note v1 c1 n;
  '(n2, msgs2) ← MIDINote.play note v2 c2 n1;
  Some (n2, msgs1 ++ msgs2).

(** The sum of a list of deltas. *)
Definition total (deltas : list Z) : Z := foldr Z.add 0 deltas.

(** Successive [RotaryEncoder.update] calls: the deltas returned. *)
Fixpoint decoder_updates (rs : list RotaryEncoder.reading)
    (e : RotaryEncoder.t) : list Z * RotaryEncoder.t :=
  match rs with
  | [] => ([], e)
  | r :: rs' =>
      let '(d, e1) := RotaryEncoder.update r e in
      let '(ds, e2) := decoder_updates rs' e1 in
      (d :: ds, e2)
  end.

(** Successive [EncoderWithValue.update] calls: the deltas returned. *)
Fixpoint value_updates (rs : list RotaryEncoder.reading)
    (w : EncoderWithValue.t) : list Z * EncoderWithValue.t :=
  match rs with
  | [] => ([], w)
  | r :: rs' =>
      let '(d, w1) := EncoderWithValue.update r w in
      let '(ds, w2) := value_updates rs' w1 in
      (d :: ds, w2)
  end.

(** Successive [KeyMatrix.scan] calls: the state after each call. *)
Fixpoint scans (rs : list KeyMatrix.reading) (m : KeyMatrix.t)
  : option (list KeyMatrix.t) :=
  match rs with
  | [] => Some []
  | r :: rs' =>
      m1 ← KeyMatrix.scan r m;
      ms ← scans rs' m1;
      Some (m1 :: ms)
  end.

End Runs.

(** ** Vocabulary for the scanner's properties *)

Module Debounce.
Import KeyMatrix.

(** The connected cells of [KEY_MAP] as [(row, col, key_num)], in the
    order in which [scan] visits them. *)
Definition connected_cells : list (nat * nat * nat) :=
  mjoin (imap (λ row cols,
                 omap id (imap (λ col cell, pair (row, col) <$> cell) cols))
              KEY_MAP).

(** The cell that key [k] is wired to. *)
Definition key_cell (k : nat) : option (nat * nat) :=
  (λ x, x.2.1) <$> list_find (λ c, c.2 = k) connected_cells.

(** The raw state of switch [k] in a reading: pressed pulls the column
    low while its row is driven. *)
Definition raw_pressed (r : reading) (k : nat) : option bool :=
  '(row, col) ← key_cell k; Some (negb (col_value r row col)).

(** The two attributes of switch [k]. *)
Definition switch (m : t) (k : nat) : option (bool * Z) :=
  st ← key_states m !! k; last ← last_change_time m !! k; Some (st, last).

(** A scan commits a change of switch [k]: its stable state differs
    before and after. *)
Definition commits (k : nat) (m m' : t) : Prop :=
  key_states m !! k ≠ key_states m' !! k.

(** In a run [m0, m1, ...] of scanner states, scan number [i] (from 0)
    commits a change of switch [k]. *)
Definition commit_at (k : nat) (states : list t) (i : nat) : Prop :=
  ∃ m m', states !! i = Some m ∧ states !! S i = Some m' ∧ commits k m m'.

(** The number of committed changes of switch [k] along a run. *)
Fixpoint commit_count (k : nat) (m : t) (ms : list t) : nat :=
  match ms with
  | [] => 0
  | m' :: ms' =>
      ((if decide (commits k m m') then 1 else 0) + commit_count k m' ms')%nat
  end.

(** The invariant in the words of the specification: at the scan [r]
    that follows the scans [history], the raw reading of switch [k] has
    differed from the stable state [stable] for at least the debounce
    interval, continuously: some earlier scan, at least [DEBOUNCE_TIME]
    before [r], and every scan since read the opposite of [stable]. *)
Definition differed_for_debounce_interval (k : nat) (stable : bool)
    (history : list reading) (r : reading) : Prop :=
  ∃ earlier r0 since,
    history = earlier ++ r0 :: since ∧
    DEBOUNCE_TIME ≤ current_time r - current_time r0 ∧
    Forall (λ x, raw_pressed x k = Some (negb stable)) (r0 :: since ++ [r]).

(** A reading at time [now] in which exactly the keys [keys] are closed. *)
Definition reading_of (now : Z) (keys : list nat) : reading :=
  {| current_time := now;
     col_value := λ row col,
       match KEY_MAP !! row ≫= (.!! col) with
       | Some (Some k) => negb (bool_decide (k ∈ keys))
       | _ => true
       end |}.

(** The scanner's invariant: one entry per switch in both lists. *)
Definition wf (m : t) : Prop :=
  length (key_states m) = NUM_KEYS ∧ length (last_change_time m) = NUM_KEYS.

(** The debounce rule on the attributes of one switch. *)
Definition debounce (now : Z) (raw : bool) (sw : bool * Z) : bool * Z :=
  if decide (raw ≠ sw.1 ∧ now - sw.2 > DEBOUNCE_TIME) then (raw, now)
  else sw.

End Debounce.

(** ** Vocabulary for the decoder's properties *)

Module Decode.

(** A falling edge of phase A, as [update] detects it. *)
Definition falling (r : RotaryEncoder.reading) (e : RotaryEncoder.t) : Prop :=
  RotaryEncoder.last_clk_state e = true ∧ RotaryEncoder.clk r = false.

(** The acceleration condition at the time of the call. *)
Definition fast (r : RotaryEncoder.reading) (e : RotaryEncoder.t) : Prop :=
  RotaryEncoder.acceleration_enabled e = true ∧
  RotaryEncoder.current_time r - RotaryEncoder.last_rotation_time e
    < RotaryEncoder.ACCELERATION_THRESHOLD.

#[global] Instance falling_dec r e : Decision (falling r e).
Proof. unfold falling. apply _. Defined.

#[global] Instance fast_dec r e : Decision (fast r e).
Proof. unfold fast. apply _. Defined.

(** The delta of the wrapped decoder for the same reading. *)
Definition raw_delta (r : RotaryEncoder.reading) (w : EncoderWithValue.t) : Z :=
  (RotaryEncoder.update r (EncoderWithValue.encoder w)).1.

(** The value lies within the bounds. *)
Definition in_range (w : EncoderWithValue.t) : Prop :=
  EncoderWithValue.min_value w ≤ EncoderWithValue.value w
    ≤ EncoderWithValue.max_value w.

(** The calls a client can make on an [EncoderWithValue]. *)
Inductive call :=
| Update (r : RotaryEncoder.reading)
| SetValue (v : Z)
| SetRange (min max : Z)
| EnableAcceleration (enabled : bool).

Definition apply_call (c : call) (w : EncoderWithValue.t)
  : EncoderWithValue.t :=
  match c with
  | Update r => (EncoderWithValue.update r w).2
  | SetValue v => EncoderWithValue.set_value v w
  | SetRange min max => EncoderWithValue.set_range min max w
  | EnableAcceleration b => EncoderWithValue.enable_acceleration b w
  end.

Definition apply_calls (cs : list call) (w : EncoderWithValue.t)
  : EncoderWithValue.t :=
  foldl (λ w c, apply_call c w) w cs.

(** A call that keeps the bounds ordered. *)
Definition ordered (c : call) : Prop :=
  match c with SetRange min max => min ≤ max | _ => True end.

(** The direction sampled from phase B: +1 clockwise, -1 otherwise. *)
Definition direction (r : RotaryEncoder.reading) : Z :=
  if RotaryEncoder.dt r then 1 else -1.

End Decode.

(** ** Vocabulary for the message encoder's properties *)

Module Encoding.

(** The class invariant: the default channel is a MIDI channel. *)
Definition wf (m : MIDIOutput.t) : Prop := 1 ≤ MIDIOutput.default_channel m ≤ 16.

(** Reading a status byte back: the message type in the high nibble, the
    channel (1 to 16) in the low nibble. *)
Definition decode_status (status : Z) : Z * Z :=
  (Z.land status 0xF0, Z.land status 0x0F + 1).

(** [msg] is a channel message of type [kind] on channel [ch] whose data
    bytes are 7-bit and carry the arguments [args] that were in range. *)
Definition encodes (kind ch : Z) (args msg : list Z) : Prop :=
  ∃ status data,
    msg = status :: data ∧ decode_status status = (kind, ch) ∧
    Forall2 (λ arg byte, 0 ≤ byte < 128 ∧ (0 ≤ arg ≤ 127 → byte = arg))
            args data.

Definition is_note_on (msg : list Z) : bool :=
  match msg with
  | status :: _ => bool_decide (Z.land status 0xF0 = MIDIOutput.NOTE_ON)
  | [] => false
  end.

Definition is_note_off (msg : list Z) : bool :=
  match msg with
  | status :: _ => bool_decide (Z.land status 0xF0 = MIDIOutput.NOTE_OFF)
  | [] => false
  end.

(** The number of messages of a kind among those written. *)
Definition count (kind : list Z → bool) (msgs : list (list Z)) : Z :=
  Z.of_nat (length (filter (λ msg, kind msg = true) msgs)).

(** The calls a client can make on a [MIDINote] tracker. *)
Inductive call :=
| Play (note velocity : Z) (channel : option Z)
| Stop (note : Z) (channel : option Z)
| StopAll (channel : option Z).

Definition apply_call (c : call) (n : MIDINote.t)
  : option (MIDINote.t * list (list Z)) :=
  match c with
  | Play note velocity channel => MIDINote.play note velocity channel n
  | Stop note channel => MIDINote.stop note channel n
  | StopAll channel => MIDINote.stop_all channel n
  end.

(** A sequence of calls, with all the messages written. *)
Fixpoint apply_calls (cs : list call) (n : MIDINote.t)
  : option (MIDINote.t * list (list Z)) :=
  match cs with
  | [] => Some (n, [])
  | c :: cs' =>
      '(n1, msgs1) ← apply_call c n;
      '(n2, msgs2) ← apply_calls cs' n1;
      Some (n2, msgs1 ++ msgs2)
  end.

End Encoding.

(** ** Vocabulary for the dispatch loop's properties *)

Module Dispatch.
Import Main.

(** A Control-Change message written to the port, on any channel. *)
Definition is_control_change (e : event) : bool :=
  match e with
  | MidiWrite (status :: _) => bool_decide (0xB0 ≤ status ≤ 0xBF)
  | _ => false
  end.

(** A render of the idle layer view. *)
Definition is_show_layer (e : event) : bool :=
  match e with DisplayShowLayer _ _ => true | _ => false end.

(** The call of a collaborator's [deinit]. *)
Definition released (e : event) : option collaborator :=
  match e with Deinit c => Some c | _ => None end.

(** The construction of a collaborator. *)
Definition acquired (e : event) : option collaborator :=
  match e with Init c => Some c | _ => None end.

(** The playable keys (0 to 15) held in a scanner state, ascending. *)
Definition held_keys (m : KeyMatrix.t) : list nat :=
  filter (λ k, (k < 16)%nat ∧ KeyMatrix.key_states m !! k = Some true)
         (seq 0 KeyMatrix.NUM_KEYS).

(** The actual (post-clamp) encoder delta of an iteration. *)
Definition actual_delta (r : reading) (st : state) : Z :=
  (EncoderWithValue.update (encoder_in r) (encoder st)).1.

Definition param_name (k : nat) : string :=
  default EmptyString (KEY_PARAM_NAMES !! k).

(** The stored CC value of key [k] after the encoder moved by [delta]. *)
Definition adjusted (delta : Z) (cc : list Z) (k : nat) : Z :=
  clamp 0 127 (default 0 (cc !! k) + delta).

(** What the encoder branch emits for the held key [k], given the
    stored values [cc] at the start of the branch: nothing when the
    value does not change; otherwise one Control-Change on CC number
    [k + 1], the LED update, and, for the first held key only, the
    display refresh. *)
Definition key_events (first : option nat) (delta : Z) (cc : list Z)
    (k : nat) : list event :=
  let new_val := adjusted delta cc k in
  if decide (new_val = default 0 (cc !! k)) then []
  else [ MidiWrite [Z.lor 0xB0 (midi_channel - 1);
                    default 0 (KEY_TO_CC !! k); new_val];
         LedSetKeyValue k new_val ] ++
       if decide (first = Some k)
       then [DisplayShowFullStatus current_layer layer_name (param_name k)
                                   new_val (default 0 (KEY_TO_CC !! k))
                                   midi_channel]
       else [].

(** A call that draws on the display. *)
Definition is_display (e : event) : bool :=
  match e with
  | DisplayShowStartup | DisplayShowMessage _ _ | DisplayShowLayer _ _
  | DisplayShowFullStatus _ _ _ _ _ _ => true
  | _ => false
  end.

(** The display calls among some events. *)
Definition display_calls (evs : list event) : list event :=
  filter (λ e, is_display e = true) evs.

(** The idle-view renders among some events. *)
Definition idle_renders (evs : list event) : list event :=
  filter (λ e, is_show_layer e = true) evs.

(** The collaborators constructed, and those released, in order. *)
Definition acquisition_order (evs : list event) : list collaborator :=
  omap acquired evs.

Definition release_order (evs : list event) : list collaborator :=
  omap released evs.

(** The invariant of the loop's variables. *)
Definition wf (st : state) : Prop :=
  Debounce.wf (matrix st) ∧
  length (key_cc_values st) = 16%nat ∧
  Forall (λ k, (k < 16)%nat) (prev_pressed_keys st) ∧
  EncoderWithValue.min_value (encoder st) = 0 ∧
  EncoderWithValue.max_value (encoder st) = 127.

(** Events that are neither a Control-Change nor an idle-view render. *)
Definition quiet (e : event) : Prop :=
  is_control_change e = false ∧ is_show_layer e = false.

(** Two states that differ in the set of active notes only. *)
Definition same_session (st st' : state) : Prop :=
  matrix st' = matrix st ∧ encoder st' = encoder st ∧
  key_cc_values st' = key_cc_values st ∧
  prev_pressed_keys st' = prev_pressed_keys st ∧
  last_display_update st' = last_display_update st ∧
  midi st' = midi st.

(** A stretch of the run that only tracks notes and emits quiet events. *)
Definition edge_steps (s s' : run) : Prop :=
  same_session s.1 s'.1 ∧ ∃ evs, s'.2 = s.2 ++ evs ∧ Forall quiet evs.

(** States that differ in the stored CC values only. *)
Definition same_but_cc (st st' : state) : Prop :=
  matrix st' = matrix st ∧ encoder st' = encoder st ∧
  midi_note st' = midi_note st ∧
  prev_pressed_keys st' = prev_pressed_keys st ∧
  last_display_update st' = last_display_update st.

(** The condition under which a pass re-renders the idle layer view. *)
Definition redraws (r : reading) (st : state) (held : list nat) : Prop :=
  held = [] ∧ prev_pressed_keys st ≠ [] ∧
  current_time r - last_display_update st > DISPLAY_UPDATE_INTERVAL.

(** The condition under which a pass enters the encoder branch. *)
Definition adjusts (delta : Z) (held : list nat) : Prop :=
  delta ≠ 0 ∧ held ≠ [].

(** The three LED blinks of the shutdown sequence. *)
Definition blink : list event :=
  mjoin (replicate 3 [ LedSetBrightness 5; Sleep 150000;
                       LedSetBrightness 30; Sleep 150000 ]).

(** All Notes Off (CC#123, value 0) on channels 1 to 16. *)
Definition sweep : list event :=
  (λ ch, MidiWrite [0xB0 + Z.of_nat ch; 123; 0]) <$> seq 0 16.

(** A pass at time [t] with the keys [keys] closed and the encoder pins
    at the levels [clk] and [dt]. *)
Definition pass (t : Z) (keys : list nat) (clk dt : bool) : reading :=
  {| current_time := t;
     matrix_in := Debounce.reading_of t keys;
     encoder_in := RotaryEncoder.mk_reading clk dt t |}.

(** The note of a playable key: [KEY_TO_NOTE[k]] for [k] below 16. *)
Definition key_note (k : nat) : Z := 60 + Z.of_nat k.

(** The keys that went down, and the keys that went up, between the
    previous pass and the scanner state [m] of this pass. *)
Definition newly_pressed (st : state) (m : KeyMatrix.t) : list nat :=
  filter (λ k, k ∉ prev_pressed_keys st) (held_keys m).

Definition newly_released (st : state) (m : KeyMatrix.t) : list nat :=
  filter (λ k, k ∉ held_keys m) (prev_pressed_keys st).

(** What press handling emits for a key whose note is not sounding,
    given the stored values [cc]; what release handling emits for a key
    whose note is sounding. *)
Definition press_events (cc : list Z) (k : nat) : list event :=
  [ MidiWrite [0x90; key_note k; 100];
    LedSetKeyColor k 255 255 255; LedShow; Sleep 30000;
    LedSetKeyValue k (default 0 (cc !! k)); LedShow;
    DisplayShowFullStatus current_layer layer_name (param_name k)
                          (default 0 (cc !! k)) (Z.of_nat k + 1)
                          midi_channel ].

Definition release_events (k : nat) : list event :=
  [ MidiWrite [0x80; key_note k; 0] ].

(** A Note-On or a Note-Off written to the port, and those for one
    pitch. *)
Definition is_note_event (e : event) : bool :=
  match e with
  | MidiWrite msg => Encoding.is_note_on msg || Encoding.is_note_off msg
  | _ => false
  end.

Definition is_note_on_of (note : Z) (e : event) : bool :=
  match e with
  | MidiWrite (status :: pitch :: _) =>
      bool_decide (Z.land status 0xF0 = 0x90 ∧ pitch = note)
  | _ => false
  end.

Definition is_note_off_of (note : Z) (e : event) : bool :=
  match e with
  | MidiWrite (status :: pitch :: _) =>
      bool_decide (Z.land status 0xF0 = 0x80 ∧ pitch = note)
  | _ => false
  end.

(** Note-Ons minus Note-Offs written for a pitch. *)
Definition sounding (note : Z) (evs : list event) : Z :=
  Z.of_nat (length (filter (λ e, is_note_on_of note e = true) evs))
  - Z.of_nat (length (filter (λ e, is_note_off_of note e = true) evs)).

(** The tracker agrees with the scanner: the keys remembered from the
    previous pass are the playable keys held in the scanner state, and
    the notes sounding are exactly theirs. *)
Definition synced (st : state) : Prop :=
  prev_pressed_keys st = held_keys (matrix st) ∧
  MIDINote.active_notes (midi_note st)
    = list_to_set (key_note <$> prev_pressed_keys st).

(** The stored parameter values and the encoder value are MIDI data
    values. *)
Definition in_midi_range (st : state) : Prop :=
  Forall (λ v, 0 ≤ v ≤ 127) (key_cc_values st) ∧
  0 ≤ EncoderWithValue.value (encoder st) ≤ 127.

(** The log accounts for the tracker: a pitch that is sounding has one
    Note-On more than Note-Offs in the log, any other pitch as many. *)
Definition accounted (s : run) : Prop :=
  ∀ note,
    sounding note s.2 =
      if decide (note ∈ MIDINote.active_notes (midi_note s.1)) then 1 else 0.

End Dispatch.

(** ** Vocabulary for the LED and display properties *)

Module Panel.

(** The LED controller's invariant: sixteen LEDs, sixteen buffer
    entries. *)
Definition wf (l : LEDController.t) : Prop :=
  LEDController.num_leds l = LEDController.NUM_LEDS ∧
  length (LEDController.pixels l) = 16%nat.

(** The buffered colour of the LED under key [k]. *)
Definition key_pixel (l : LEDController.t) (k : nat)
  : option LEDController.color :=
  led_index ← LEDController.KEY_TO_LED !! k;
  LEDController.pixels l !! Z.to_nat led_index.

(** The point [(X, Y)] lies in the rectangle with corner [(x, y)] and
    the given size. *)
Definition inside (x y width height X Y : Z) : Prop :=
  x ≤ X < x + width ∧ y ≤ Y < y + height.

(** The point is a cell of the 128 by 64 panel. *)
Definition on_panel (X Y : Z) : Prop :=
  inside 0 0 Display.PHYSICAL_WIDTH Display.PHYSICAL_HEIGHT X Y.

End Panel.

(** ** Example inputs *)

Module Examples.

(** A flicker of key 0 one second after power-up, sampled every 10 ms:
    the switch reads released at 1.00 s, pressed at 1.01 s, released again
    at 1.02 s and at 1.04 s. *)
Definition flicker : list KeyMatrix.reading :=
  [ Debounce.reading_of 1000000 [];
    Debounce.reading_of 1010000 [0%nat];
    Debounce.reading_of 1020000 [];
    Debounce.reading_of 1040000 [] ].

(** The scanner state with key 0 committed as [st] at time [t]. *)
Definition key0 (st : bool) (t : Z) : KeyMatrix.t :=
  {| KeyMatrix.key_states := st :: replicate 17 false;
     KeyMatrix.last_change_time := t :: replicate 17 0 |}.

(** A note tracker right after construction, on default channel 1. *)
Definition fresh_tracker : MIDINote.t := MIDINote.init (MIDIOutput.init 1).

(** An accelerated encoder one step below the top of its range, and a
    clockwise edge 1 ms after its last registered edge. *)
Definition near_top : EncoderWithValue.t :=
  {| EncoderWithValue.encoder := RotaryEncoder.mk 0 true true 0;
     EncoderWithValue.value := 126;
     EncoderWithValue.min_value := 0;
     EncoderWithValue.max_value := 127 |}.

Definition quick_clockwise : RotaryEncoder.reading :=
  RotaryEncoder.mk_reading false true 1000.

(** Two taps of key 0: pressed at 1.00 s, released at 1.05 s, pressed
    again at 1.10 s, released at 1.14 s, then nothing until 2.00 s. *)
Definition double_tap : list Main.reading :=
  [ Dispatch.pass 1000000 [0%nat] true true;
    Dispatch.pass 1050000 [] true true;
    Dispatch.pass 1100000 [0%nat] true true;
    Dispatch.pass 1140000 [] true true;
    Dispatch.pass 1300000 [] true true;
    Dispatch.pass 2000000 [] true true ].

(** Keys 0 and 1 go down while the encoder makes one counter-clockwise
    step (phase A falls with phase B low). *)
Definition chord_turn : Main.reading :=
  Dispatch.pass 1000000 [0%nat; 1%nat] false false.

(** [n] clockwise detents with no key held, one every 20 ms. *)
Definition clicks (n : nat) : list Main.reading :=
  mjoin ((λ i, [ Dispatch.pass (1000000 + 20000 * Z.of_nat i) [] false true;
                 Dispatch.pass (1010000 + 20000 * Z.of_nat i) [] true true ])
         <$> seq 0 n).

(** Key 0 goes down during one more clockwise detent. *)
Definition hold_and_turn : Main.reading :=
  Dispatch.pass 3000000 [0%nat] false true.

(** Key 0 released at 0.99 s, then read as pressed at 1.00 s (within
    the lock-out) and again at 1.03 s. *)
Definition bounce_then_hold : list KeyMatrix.reading :=
  [ Debounce.reading_of 1000000 [0%nat];
    Debounce.reading_of 1030000 [0%nat] ].

(** The scanner state once the encoder's push switch (key 17), and no
    other switch, has been committed as pressed at 1.00 s. *)
Definition switch_down : KeyMatrix.t :=
  {| KeyMatrix.key_states := replicate 17 false ++ [true];
     KeyMatrix.last_change_time := replicate 17 0 ++ [1000000] |}.

(** A pass that sees only the encoder's push switch closed. *)
Definition switch_click : Main.reading :=
  Dispatch.pass 1000000 [17%nat] true true.

(** An accelerated decoder at rest, and two clockwise detents 20 ms
    apart with the rising edge between them. *)
Definition resting_decoder : RotaryEncoder.t := RotaryEncoder.init true true.

Definition first_edge : RotaryEncoder.reading :=
  RotaryEncoder.mk_reading false true 1000000.

Definition rising_edge : RotaryEncoder.reading :=
  RotaryEncoder.mk_reading true true 1010000.

Definition second_edge : RotaryEncoder.reading :=
  RotaryEncoder.mk_reading false true 1020000.

(** Calls on an [EncoderWithValue] that move the value and the bounds. *)
Definition reconfigure : list Decode.call :=
  [ Decode.Update quick_clockwise;
    Decode.SetValue 500;
    Decode.SetRange 10 20;
    Decode.EnableAcceleration false;
    Decode.SetValue (-3) ].

(** A tracker with two notes sounding, and a session on a tracker. *)
Definition chord_tracker : MIDINote.t :=
  {| MIDINote.midi := MIDIOutput.init 1;
     MIDINote.active_notes := {[60; 64]} |}.

Definition session : list Encoding.call :=
  [ Encoding.Play 60 100 None;
    Encoding.Play 64 90 (Some 2);
    Encoding.Play 60 100 None;
    Encoding.Stop 60 None;
    Encoding.Stop 72 None;
    Encoding.Play 67 80 None;
    Encoding.StopAll None ].

(** Two accelerated clockwise detents 2 ms apart, with the rising edge
    between them; the first is [quick_clockwise]. *)
Definition two_detents : list RotaryEncoder.reading :=
  [ quick_clockwise;
    RotaryEncoder.mk_reading true true 2000;
    RotaryEncoder.mk_reading false true 3000 ].

(** The scanner state once keys 0 and 1, and no other switch, have been
    committed as pressed at 1.00 s. *)
Definition chord_down : KeyMatrix.t :=
  {| KeyMatrix.key_states := [true; true] ++ replicate 16 false;
     KeyMatrix.last_change_time :=
       [1000000; 1000000] ++ replicate 16 0 |}.

End Examples.

(** * Verification *)

(** ** Facts about the Python helpers *)

Lemma clamp_bounds lo hi x : lo ≤ hi → lo ≤ clamp lo hi x ≤ hi.
Proof. unfold clamp. lia. Qed.

Lemma clamp_id lo hi x : lo ≤ x ≤ hi → clamp lo hi x = x.
Proof. unfold clamp. lia. Qed.

Lemma list_assign_Some {A} (l : list A) i x :
  (i < length l)%nat → list_assign l i x = Some (<[i:=x]> l).
Proof. intros Hi. unfold list_assign. by rewrite decide_True. Qed.

(** ** Facts about [for_each] *)

Lemma for_each_app {A S} (l1 l2 : list A) (body : A → S → option S) s :
  for_each (l1 ++ l2) body s = for_each l1 body s ≫= for_each l2 body.
Proof.
  revert s. induction l1 as [|x l1 IH]; intros s; simpl; [done|].
  destruct (body x s) as [s'|]; simpl; [apply IH | done].
Qed.

Lemma for_each_fmap {A B S} (f : A → B) (l : list A)
    (body : B → S → option S) s :
  for_each (f <$> l) body s = for_each l (λ x, body (f x)) s.
Proof.
  revert s. induction l as [|x l IH]; intros s; simpl; [done|].
  destruct (body (f x) s); simpl; [apply IH | done].
Qed.

(** A nested loop is a loop over the pairs of indices. *)
Lemma for_each_nested {A B S} (l1 : list A) (l2 : list B)
    (body : A → B → S → option S) s :
  for_each l1 (λ x, for_each l2 (body x)) s =
  for_each (x ← l1; pair x <$> l2) (λ p, body p.1 p.2) s.
Proof.
  revert s. induction l1 as [|x l1 IH]; intros s; [done|].
  change (for_each l2 (body x) s ≫= for_each l1 (λ x, for_each l2 (body x)) =
          for_each ((pair x <$> l2) ++ (x ← l1; pair x <$> l2))
                   (λ p, body p.1 p.2) s).
  rewrite for_each_app, for_each_fmap. simpl.
  destruct (for_each l2 (body x) s); simpl; [apply IH | done].
Qed.

(** An invariant of the body is an invariant of the loop, and the loop
    does not raise when the body does not. *)
Lemma for_each_invariant {A S} (I : S → Prop) (l : list A)
    (body : A → S → option S) s :
  (∀ x s, x ∈ l → I s → ∃ s', body x s = Some s' ∧ I s') →
  I s → ∃ s', for_each l body s = Some s' ∧ I s'.
Proof.
  revert s. induction l as [|x l IH]; intros s Hbody Hs; simpl; [eauto|].
  destruct (Hbody x s) as (s1 & -> & Hs1); [left|done|]. simpl.
  apply IH; [|done]. intros y s2 Hy. apply Hbody. by right.
Qed.

Module KeyMatrixFacts.
Import KeyMatrix Debounce.

Lemma scanner_init_wf : wf init.
Proof. split; apply length_replicate. Qed.

Lemma switch_is_Some m k : wf m → (k < NUM_KEYS)%nat → is_Some (switch m k).
Proof.
  intros [H1 H2] Hk. unfold switch.
  destruct (lookup_lt_is_Some_2 (key_states m) k) as [st ->]; [lia|].
  destruct (lookup_lt_is_Some_2 (last_change_time m) k) as [x ->]; [lia|].
  by eexists.
Qed.

Lemma scan_cell_spec now level k m :
  wf m → (k < NUM_KEYS)%nat →
  ∃ m', scan_cell now level k m = Some m' ∧ wf m' ∧
        switch m' k = debounce now (negb level) <$> switch m k ∧
        ∀ k', k' ≠ k → switch m' k' = switch m k'.
Proof.
  intros [H1 H2] Hk. unfold scan_cell, switch, debounce.
  destruct (lookup_lt_is_Some_2 (key_states m) k) as [st Hst]; [lia|].
  destruct (lookup_lt_is_Some_2 (last_change_time m) k) as [x Hx]; [lia|].
  rewrite Hst, Hx. simpl. case_decide as Hc.
  - rewrite !list_assign_Some by lia. simpl.
    eexists. split; [done|]. unfold wf. simpl.
    rewrite !length_insert, !list_lookup_insert_eq by lia.
    repeat split; [done..|].
    intros k' Hk'. by rewrite !list_lookup_insert_ne.
  - exists m. rewrite Hst, Hx. done.
Qed.

(** [scan] visits the connected cells one after the other. *)
Lemma scan_cells r m :
  scan r m =
    for_each connected_cells
      (λ c, scan_cell (current_time r) (col_value r c.1.1 c.1.2) c.2) m.
Proof.
  unfold scan, scan_row. rewrite for_each_nested. reflexivity.
Qed.

Lemma cells_switch now (lv : nat → nat → bool)
    (cells : list (nat * nat * nat)) m :
  wf m → Forall (λ c, c.2 < NUM_KEYS)%nat cells → NoDup (cells.*2) →
  ∃ m', for_each cells (λ c, scan_cell now (lv c.1.1 c.1.2) c.2) m = Some m'
        ∧ wf m'
        ∧ ∀ k, switch m' k =
               match list_find (λ c, c.2 = k) cells with
               | Some (_, c) =>
                   debounce now (negb (lv c.1.1 c.1.2)) <$> switch m k
               | None => switch m k
               end.
Proof.
  revert m. induction cells as [|c cells IH]; intros m Hwf Hlt Hnd.
  { exists m. simpl. split; [done|]. split; [done|]. intros k. done. }
  apply Forall_cons in Hlt as [Hc Hlt].
  rewrite fmap_cons in Hnd. apply NoDup_cons in Hnd as [Hnotin Hnd].
  destruct (scan_cell_spec now (lv c.1.1 c.1.2) c.2 m Hwf Hc)
    as (m1 & Hm1 & Hwf1 & Hk1 & Hother).
  destruct (IH m1 Hwf1 Hlt Hnd) as (m' & Hm' & Hwf' & Hsw).
  exists m'. simpl. rewrite Hm1. simpl. split; [done|]. split; [done|].
  intros k. rewrite Hsw. destruct (decide (c.2 = k)) as [Hk|Hk].
  - subst k. rewrite (proj2 (list_find_None _ cells)); [done|].
    apply Forall_forall. intros x Hx Heq. apply Hnotin.
    simpl in Heq. rewrite <- Heq. by apply list_elem_of_fmap_2.
  - destruct (list_find _ cells) as [[i c']|]; simpl;
      by rewrite Hother.
Qed.

Lemma key_cell_is_Some k : (k < NUM_KEYS)%nat → is_Some (key_cell k).
Proof.
  intros Hk. unfold NUM_KEYS in Hk.
  do 18 (destruct k as [|k]; [by eexists|]). lia.
Qed.

(** [scan] does not raise, and it applies the debounce rule to every
    switch independently, with the raw state read at its own cell. *)
Lemma scan_switch r m k :
  wf m → (k < NUM_KEYS)%nat →
  ∃ m' raw, scan r m = Some m' ∧ wf m' ∧ raw_pressed r k = Some raw ∧
            switch m' k = debounce (current_time r) raw <$> switch m k.
Proof.
  intros Hwf Hk.
  destruct (cells_switch (current_time r) (col_value r) connected_cells m)
    as (m' & Hm' & Hwf' & Hsw); [done| |..].
  { by apply (bool_decide_unpack _). }
  { by apply (bool_decide_unpack _). }
  specialize (Hsw k). rewrite <- scan_cells in Hm'.
  destruct (key_cell_is_Some k Hk) as [[row col] Hcell].
  unfold raw_pressed. rewrite Hcell. simpl.
  unfold key_cell in Hcell.
  destruct (list_find _ connected_cells) as [[i [[row' col'] k']]|];
    [|done]. simpl in *. injection Hcell as -> ->.
  exists m', (negb (col_value r row col)). done.
Qed.

Lemma scan_total r m : wf m → ∃ m', scan r m = Some m' ∧ wf m'.
Proof.
  intros Hwf. destruct (scan_switch r m 0 Hwf) as (m' & _ & ? & ? & _);
    [unfold NUM_KEYS; lia | eauto].
Qed.

(** What one scan does to one switch, by cases on whether it commits. *)
Lemma scan_commit_cases r m m' k :
  wf m → (k < NUM_KEYS)%nat → scan r m = Some m' →
  ∃ raw old last,
    raw_pressed r k = Some raw ∧ switch m k = Some (old, last) ∧
    (commits k m m' ↔ raw ≠ old ∧ current_time r - last > DEBOUNCE_TIME) ∧
    (commits k m m' → switch m' k = Some (raw, current_time r)) ∧
    (¬ commits k m m' → switch m' k = Some (old, last)).
Proof.
  intros Hwf Hk Hscan.
  destruct (scan_switch r m k Hwf Hk) as (m1 & raw & Hm1 & _ & Hraw & Hsw).
  rewrite Hscan in Hm1. injection Hm1 as <-.
  destruct (switch_is_Some m k Hwf Hk) as [[old last] Hold].
  exists raw, old, last. rewrite Hold in Hsw. simpl in Hsw.
  assert (key_states m !! k = Some old) as Hst.
  { unfold switch in Hold. destruct (key_states m !! k); [|done].
    simpl in Hold. destruct (last_change_time m !! k); [|done].
    simpl in Hold. congruence. }
  assert (∀ st x, switch m' k = Some (st, x) → key_states m' !! k = Some st)
    as Hst'.
  { intros st x. unfold switch. destruct (key_states m' !! k); [|done].
    simpl. destruct (last_change_time m' !! k); [|done].
    simpl. congruence. }
  unfold commits. rewrite Hst. unfold debounce in Hsw. simpl in Hsw.
  case_decide as Hc; rewrite (Hst' _ _ Hsw).
  - destruct Hc as [Hne Hgt]. repeat split; try done.
    + intros _ [= ->]. done.
    + intros Hn. destruct Hn. intros [= ->]. done.
  - repeat split; try done; intros H; by destruct H.
Qed.

Lemma commit_at_S k m states i :
  commit_at k (m :: states) (S i) ↔ commit_at k states i.
Proof. reflexivity. Qed.

Lemma commit_at_0 k m m' states :
  commit_at k (m :: m' :: states) 0 ↔ commits k m m'.
Proof.
  unfold commit_at. simpl. split.
  - by intros (? & ? & [= <-] & [= <-] & ?).
  - intros Hc. by eexists _, _.
Qed.

Lemma scans_cons_inv r rs m ms :
  Runs.scans (r :: rs) m = Some ms →
  ∃ m1 ms', ms = m1 :: ms' ∧ scan r m = Some m1 ∧ Runs.scans rs m1 = Some ms'.
Proof.
  simpl. destruct (scan r m) as [m1|]; [|done]. simpl.
  destruct (Runs.scans rs m1) as [ms'|] eqn:Hrun; [|done]. simpl.
  intros [= <-]. by exists m1, ms'.
Qed.

(** A commit at any later scan happens more than the debounce interval
    after the switch's recorded change time. *)
Lemma commit_after_lockout k rs : ∀ m ms j rj old last,
  wf m → (k < NUM_KEYS)%nat → Runs.scans rs m = Some ms →
  switch m k = Some (old, last) →
  rs !! j = Some rj → commit_at k (m :: ms) j →
  current_time rj - last > DEBOUNCE_TIME.
Proof.
  induction rs as [|r rs IH]; intros m ms j rj old last Hwf Hk Hrun Hsw Hj Hc;
    [done|].
  apply scans_cons_inv in Hrun as (m1 & ms' & -> & Hscan & Hrun).
  destruct (scan_total r m Hwf) as (? & Hscan' & Hwf1).
  rewrite Hscan in Hscan'. injection Hscan' as <-.
  destruct (scan_commit_cases r m m1 k Hwf Hk Hscan)
    as (raw & old' & last' & _ & Hsw' & Hiff & Hyes & Hno).
  rewrite Hsw in Hsw'. injection Hsw' as <- <-.
  destruct j as [|j].
  - simpl in Hj. injection Hj as <-.
    apply commit_at_0 in Hc. by apply Hiff in Hc as [_ ?].
  - simpl in Hj. apply commit_at_S in Hc.
    destruct (decide (commits k m m1)) as [Hcm|Hcm].
    + pose proof (proj1 Hiff Hcm) as [_ Hgt].
      specialize (IH m1 ms' j rj raw (current_time r) Hwf1 Hk Hrun
                    (Hyes Hcm) Hj Hc).
      unfold DEBOUNCE_TIME in *. lia.
    + by apply (IH m1 ms' j rj old last Hwf1 Hk Hrun (Hno Hcm) Hj Hc).
Qed.

(** While the lockout lasts no scan commits. *)
Lemma no_commit_in_lockout k rs : ∀ m ms old last,
  wf m → (k < NUM_KEYS)%nat → Runs.scans rs m = Some ms →
  switch m k = Some (old, last) →
  Forall (λ r, current_time r - last ≤ DEBOUNCE_TIME) rs →
  commit_count k m ms = 0%nat.
Proof.
  induction rs as [|r rs IH]; intros m ms old last Hwf Hk Hrun Hsw Hall.
  { simpl in Hrun. by injection Hrun as <-. }
  apply scans_cons_inv in Hrun as (m1 & ms' & -> & Hscan & Hrun).
  destruct (scan_total r m Hwf) as (? & Hscan' & Hwf1).
  rewrite Hscan in Hscan'. injection Hscan' as <-.
  destruct (scan_commit_cases r m m1 k Hwf Hk Hscan)
    as (raw & old' & last' & _ & Hsw' & Hiff & _ & Hno).
  rewrite Hsw in Hsw'. injection Hsw' as <- <-.
  apply Forall_cons in Hall as [Hr Hall]. simpl.
  rewrite decide_False by (rewrite Hiff; lia). simpl.
  apply (IH m1 ms' old last); try done. apply Hno. rewrite Hiff. lia.
Qed.

(** C1 (amended). A scan changes the stable state of a switch exactly
    when the raw reading of that scan differs from the stable state and
    more than 20 ms have passed since the switch's last committed change
    ([last_change_time]); the new state is then the raw reading and the
    change time becomes the time of the scan. No earlier reading is
    consulted. *)
Theorem commit_condition (r : reading) (m m' : t) (k : nat) :
  wf m → (k < NUM_KEYS)%nat → scan r m = Some m' →
  ∃ raw old last,
    raw_pressed r k = Some raw ∧ switch m k = Some (old, last) ∧
    (commits k m m' ↔ raw ≠ old ∧ current_time r - last > DEBOUNCE_TIME) ∧
    (commits k m m' → switch m' k = Some (raw, current_time r)) ∧
    (¬ commits k m m' → switch m' k = switch m k).
Proof.
  intros Hwf Hk Hscan.
  destruct (scan_commit_cases r m m' k Hwf Hk Hscan)
    as (raw & old & last & Hraw & Hsw & Hiff & Hyes & Hno).
  exists raw, old, last. rewrite Hsw. done.
Qed.

Lemma commit_condition_witness :
  wf init ∧ (0 < NUM_KEYS)%nat ∧
  scan (Debounce.reading_of 1010000 [0%nat]) init
    = Some (Examples.key0 true 1010000) ∧
  ∃ raw old last,
    raw_pressed (Debounce.reading_of 1010000 [0%nat]) 0 = Some raw ∧
    switch init 0 = Some (old, last) ∧
    (commits 0 init (Examples.key0 true 1010000)
       ↔ raw ≠ old ∧ 1010000 - last > DEBOUNCE_TIME) ∧
    (commits 0 init (Examples.key0 true 1010000) →
       switch (Examples.key0 true 1010000) 0 = Some (raw, 1010000)) ∧
    (¬ commits 0 init (Examples.key0 true 1010000) →
       switch (Examples.key0 true 1010000) 0 = switch init 0).
Proof.
  assert ((0 < NUM_KEYS)%nat) as Hk by (unfold NUM_KEYS; lia).
  assert (scan (Debounce.reading_of 1010000 [0%nat]) init
            = Some (Examples.key0 true 1010000)) as Hscan
    by (vm_compute; reflexivity).
  split; [exact scanner_init_wf|]. split; [exact Hk|]. split; [exact Hscan|].
  exact (commit_condition _ init _ 0%nat scanner_init_wf Hk Hscan).
Defined.

(** C1, as stated, fails: on the flicker of [Examples.flicker] the scan
    at 1.01 s commits the press of key 0 although the raw reading
    differed from the stable state at that scan only, and the reading
    settles back 10 ms later,
    within the debounce interval. *)
Lemma flicker_commits :
  Runs.scans Examples.flicker init =
    Some [ init; Examples.key0 true 1010000; Examples.key0 true 1010000;
           Examples.key0 false 1040000 ] ∧
  commits 0 init (Examples.key0 true 1010000) ∧
  raw_pressed (Debounce.reading_of 1000000 []) 0 = Some false ∧
  raw_pressed (Debounce.reading_of 1010000 [0%nat]) 0 = Some true ∧
  raw_pressed (Debounce.reading_of 1020000 []) 0 = Some false ∧
  ¬ differed_for_debounce_interval 0 false
      [Debounce.reading_of 1000000 []]
      (Debounce.reading_of 1010000 [0%nat]).
Proof.
  split; [by vm_compute|]. split; [by vm_compute|].
  repeat (split; [reflexivity|]).
  intros (earlier & r0 & since & Hhist & Htime & _).
  destruct earlier as [|? [|? ?]]; [|done..].
  injection Hhist as <- <-. vm_compute in Htime. by apply Htime.
Qed.

(** C9. For any switch and any run of scans, two committed changes of
    that switch are more than the debounce interval apart; hence however
    the raw signal toggles, the scans whose times fall within one debounce
    interval commit at most one change. *)
Theorem at_most_one_commit (rs : list reading) (m0 : t) (ms : list t)
    (k : nat) :
  wf m0 → (k < NUM_KEYS)%nat → Runs.scans rs m0 = Some ms →
  (∀ i j ri rj,
     (i < j)%nat → rs !! i = Some ri → rs !! j = Some rj →
     commit_at k (m0 :: ms) i → commit_at k (m0 :: ms) j →
     current_time rj - current_time ri > DEBOUNCE_TIME) ∧
  (∀ T, Forall (λ r, T ≤ current_time r ≤ T + DEBOUNCE_TIME) rs →
        (commit_count k m0 ms ≤ 1)%nat).
Proof.
  intros Hwf Hk Hrun. split.
  - revert m0 ms Hwf Hrun.
    induction rs as [|r rs IH]; intros m0 ms Hwf Hrun i j ri rj Hij Hi Hj Hci Hcj;
      [done|].
    apply scans_cons_inv in Hrun as (m1 & ms' & -> & Hscan & Hrun).
    destruct (scan_total r m0 Hwf) as (? & Hscan' & Hwf1).
    rewrite Hscan in Hscan'. injection Hscan' as <-.
    destruct j as [|j]; [lia|]. simpl in Hj. apply commit_at_S in Hcj.
    destruct i as [|i].
    + simpl in Hi. injection Hi as <-.
      assert (commits k m0 m1) as Hc.
      { destruct ms'; [|by apply commit_at_0 in Hci].
        by destruct Hcj as (? & ? & _ & ? & _). }
      destruct (scan_commit_cases r m0 m1 k Hwf Hk Hscan)
        as (raw & old & last & _ & _ & _ & Hyes & _).
      by apply (commit_after_lockout k rs m1 ms' j rj raw (current_time r)
                  Hwf1 Hk Hrun (Hyes Hc) Hj Hcj).
    + simpl in Hi. apply commit_at_S in Hci.
      apply (IH m1 ms' Hwf1 Hrun i j ri rj); [lia|done..].
  - intros T. revert m0 ms Hwf Hrun.
    induction rs as [|r rs IH]; intros m0 ms Hwf Hrun Hall.
    { simpl in Hrun. injection Hrun as <-. simpl. lia. }
    apply scans_cons_inv in Hrun as (m1 & ms' & -> & Hscan & Hrun).
    destruct (scan_total r m0 Hwf) as (? & Hscan' & Hwf1).
    rewrite Hscan in Hscan'. injection Hscan' as <-.
    apply Forall_cons in Hall as [Hr Hall]. simpl.
    destruct (scan_commit_cases r m0 m1 k Hwf Hk Hscan)
      as (raw & old & last & _ & _ & _ & Hyes & _).
    case_decide as Hc.
    + rewrite (no_commit_in_lockout k rs m1 ms' raw (current_time r));
        [lia | done | done | done | by apply Hyes |].
      eapply Forall_impl; [exact Hall|]. simpl. intros r' Hr'. lia.
    + simpl. by apply IH.
Qed.

Lemma at_most_one_commit_witness :
  wf init ∧ (0 < NUM_KEYS)%nat ∧
  Runs.scans Examples.flicker init =
    Some [ init; Examples.key0 true 1010000; Examples.key0 true 1010000;
           Examples.key0 false 1040000 ] ∧
  1040000 - 1010000 > DEBOUNCE_TIME ∧
  (commit_count 0 init
     [init; Examples.key0 true 1010000; Examples.key0 true 1010000] ≤ 1)%nat.
Proof.
  assert ((0 < NUM_KEYS)%nat) as Hk by (unfold NUM_KEYS; lia).
  assert (Runs.scans Examples.flicker init =
            Some [ init; Examples.key0 true 1010000;
                   Examples.key0 true 1010000;
                   Examples.key0 false 1040000 ]) as Hrun
    by (vm_compute; reflexivity).
  assert (Runs.scans (take 3 Examples.flicker) init =
            Some [ init; Examples.key0 true 1010000;
                   Examples.key0 true 1010000 ]) as Hrun3
    by (vm_compute; reflexivity).
  split; [exact scanner_init_wf|]. split; [exact Hk|]. split; [exact Hrun|]. split.
  - apply (proj1 (at_most_one_commit _ _ _ 0%nat scanner_init_wf Hk Hrun)
             1%nat 3%nat (Debounce.reading_of 1010000 [0%nat])
             (Debounce.reading_of 1040000 []));
      [lia | reflexivity | reflexivity | |];
      (eexists _, _; split; [reflexivity|]; split; [reflexivity|]);
      vm_compute; congruence.
  - apply (proj2 (at_most_one_commit _ _ _ 0%nat scanner_init_wf Hk Hrun3) 1000000).
    repeat apply Forall_cons_2; try apply Forall_nil_2;
      vm_compute; split; congruence.
Defined.

End KeyMatrixFacts.

(** ** MIDI message encoding *)

Module MIDIOutputFacts.
Import MIDIOutput Encoding.

Lemma midi_init_wf c : wf (init c).
Proof. unfold wf, init, _validate_channel. simpl. lia. Qed.

Lemma set_default_channel_wf c m : wf (set_default_channel c m).
Proof. unfold wf, set_default_channel, _validate_channel. simpl. lia. Qed.

Lemma _get_channel_range m channel :
  wf m → 1 ≤ _get_channel m channel ≤ 16.
Proof.
  intros Hwf. destruct channel as [c|]; simpl; [|exact Hwf].
  unfold _validate_channel. lia.
Qed.

Lemma _get_channel_clamp m channel :
  _get_channel m channel =
    from_option (clamp 1 16) (default_channel m) channel.
Proof. by destruct channel. Qed.

(** The channel nibble never overlaps the message type. *)
Lemma status_byte kind ch :
  kind ∈ [NOTE_OFF; NOTE_ON; CONTROL_CHANGE; PROGRAM_CHANGE] →
  1 ≤ ch ≤ 16 → Z.lor kind (ch - 1) = kind + (ch - 1).
Proof.
  intros Hk Hch.
  assert (∃ n : nat, (n < 16)%nat ∧ ch = Z.of_nat n + 1) as (n & Hn & ->).
  { exists (Z.to_nat (ch - 1)). lia. }
  replace (Z.of_nat n + 1 - 1) with (Z.of_nat n) by lia.
  repeat (apply elem_of_cons in Hk as [->|Hk]);
    [..|by apply elem_of_nil in Hk];
    do 16 (destruct n as [|n]; [reflexivity|]); lia.
Qed.

Lemma status_byte_range kind ch :
  kind ∈ [NOTE_OFF; NOTE_ON; CONTROL_CHANGE; PROGRAM_CHANGE] →
  1 ≤ ch ≤ 16 → 0 ≤ Z.lor kind (ch - 1) < 256.
Proof.
  intros Hk Hch. rewrite status_byte by done.
  repeat (apply elem_of_cons in Hk as [->|Hk]);
    [..|by apply elem_of_nil in Hk]; cbv [NOTE_OFF NOTE_ON
      CONTROL_CHANGE PROGRAM_CHANGE]; lia.
Qed.

Lemma bytes_ok message :
  Forall (λ b, 0 ≤ b < 256) message → bytes message = Some message.
Proof. intros H. unfold bytes. by rewrite decide_True. Qed.

Lemma _validate_value_clamp v : _validate_value v 0 127 = clamp 0 127 v.
Proof. reflexivity. Qed.

Lemma data_byte_range v : 0 ≤ clamp 0 127 v < 256.
Proof. unfold clamp. lia. Qed.

(** A message whose status carries a valid channel and whose data bytes
    are clamped is accepted by [bytes]. *)
Lemma channel_message_ok kind ch data :
  kind ∈ [NOTE_OFF; NOTE_ON; CONTROL_CHANGE; PROGRAM_CHANGE] →
  1 ≤ ch ≤ 16 →
  bytes (Z.lor kind (ch - 1) :: (clamp 0 127 <$> data)) =
    Some (Z.lor kind (ch - 1) :: (clamp 0 127 <$> data)).
Proof.
  intros Hk Hch. apply bytes_ok, Forall_cons_2.
  - by apply status_byte_range.
  - apply Forall_fmap, Forall_true. intros v. apply data_byte_range.
Qed.

Ltac kind_in := rewrite !elem_of_cons; auto.

Lemma note_on_bytes m note velocity channel :
  1 ≤ _get_channel m channel ≤ 16 →
  note_on m note velocity channel =
    Some [Z.lor 0x90 (_get_channel m channel - 1);
          clamp 0 127 note; clamp 0 127 velocity].
Proof.
  intros Hch.
  apply (channel_message_ok NOTE_ON _ [note; velocity]); [kind_in|done].
Qed.

Lemma note_off_bytes m note velocity channel :
  1 ≤ _get_channel m channel ≤ 16 →
  note_off m note velocity channel =
    Some [Z.lor 0x80 (_get_channel m channel - 1);
          clamp 0 127 note; clamp 0 127 velocity].
Proof.
  intros Hch.
  apply (channel_message_ok NOTE_OFF _ [note; velocity]); [kind_in|done].
Qed.

Lemma control_change_bytes m cc_number value channel :
  1 ≤ _get_channel m channel ≤ 16 →
  control_change m cc_number value channel =
    Some [Z.lor 0xB0 (_get_channel m channel - 1);
          clamp 0 127 cc_number; clamp 0 127 value].
Proof.
  intros Hch.
  apply (channel_message_ok CONTROL_CHANGE _ [cc_number; value]);
    [kind_in|done].
Qed.

Lemma program_change_bytes m program channel :
  1 ≤ _get_channel m channel ≤ 16 →
  program_change m program channel =
    Some [Z.lor 0xC0 (_get_channel m channel - 1); clamp 0 127 program].
Proof.
  intros Hch.
  apply (channel_message_ok PROGRAM_CHANGE _ [program]); [kind_in|done].
Qed.

(** An explicit channel argument is always clamped into range. *)
Lemma explicit_channel_range m c : 1 ≤ _get_channel m (Some c) ≤ 16.
Proof. simpl. unfold _validate_channel. lia. Qed.

(** C8. For all integer arguments [note_on] writes exactly the three
    bytes [0x90 | (ch-1)], note, velocity; [note_off] writes
    [0x80 | (ch-1)], note, velocity; [control_change] writes
    [0xB0 | (ch-1)], controller, value; [program_change] writes exactly the
    two bytes [0xC0 | (ch-1)], program. The data bytes are the arguments
    clamped to [0,127], [ch] is the channel argument clamped to [1,16] (the
    object's default channel when none is given), and no argument makes
    the call raise. *)
Theorem message_encoding (m : t) (channel : option Z)
    (note velocity controller value program : Z) :
  wf m →
  let ch := from_option (clamp 1 16) (default_channel m) channel in
  1 ≤ ch ≤ 16 ∧
  note_on m note velocity channel =
    Some [Z.lor 0x90 (ch - 1); clamp 0 127 note; clamp 0 127 velocity] ∧
  note_off m note velocity channel =
    Some [Z.lor 0x80 (ch - 1); clamp 0 127 note; clamp 0 127 velocity] ∧
  control_change m controller value channel =
    Some [Z.lor 0xB0 (ch - 1); clamp 0 127 controller; clamp 0 127 value] ∧
  program_change m program channel =
    Some [Z.lor 0xC0 (ch - 1); clamp 0 127 program].
Proof.
  intros Hwf ch. subst ch. rewrite <- _get_channel_clamp.
  pose proof (_get_channel_range m channel Hwf) as Hch.
  split; [done|].
  by rewrite note_on_bytes, note_off_bytes, control_change_bytes,
    program_change_bytes.
Qed.

Lemma message_encoding_witness :
  wf (init 1) ∧
  note_on (init 1) 200 (-5) (Some 20) = Some [0x9F; 127; 0] ∧
  program_change (init 1) 7 None = Some [0xC0; 7].
Proof.
  pose proof (message_encoding (init 1) (Some 20) 200 (-5) 0 0 0
                (midi_init_wf 1)) as (_ & Hon & _).
  pose proof (message_encoding (init 1) None 0 0 0 0 7
                (midi_init_wf 1)) as (_ & _ & _ & _ & Hpc).
  split; [apply midi_init_wf|]. split; [exact Hon | exact Hpc].
Defined.

End MIDIOutputFacts.

(** ** The note tracker *)

Module MIDINoteFacts.
Import MIDINote.

Lemma play_active note velocity channel n :
  note ∈ active_notes n → play note velocity channel n = Some (n, []).
Proof. intros Hin. unfold play. rewrite decide_False; [done|]. tauto. Qed.

Lemma stop_inactive note channel n :
  note ∉ active_notes n → stop note channel n = Some (n, []).
Proof. intros Hin. unfold stop. by rewrite decide_False. Qed.

Lemma play_inactive note velocity channel n :
  1 ≤ MIDIOutput._get_channel (midi n) channel ≤ 16 →
  note ∉ active_notes n →
  play note velocity channel n =
    Some ({| midi := midi n; active_notes := active_notes n ∪ {[note]} |},
          [[Z.lor 0x90 (MIDIOutput._get_channel (midi n) channel - 1);
            clamp 0 127 note; clamp 0 127 velocity]]).
Proof.
  intros Hwf Hin. unfold play. rewrite decide_True by done.
  by rewrite MIDIOutputFacts.note_on_bytes.
Qed.

Lemma stop_active note channel n :
  1 ≤ MIDIOutput._get_channel (midi n) channel ≤ 16 →
  note ∈ active_notes n →
  stop note channel n =
    Some ({| midi := midi n; active_notes := active_notes n ∖ {[note]} |},
          [[Z.lor 0x80 (MIDIOutput._get_channel (midi n) channel - 1);
            clamp 0 127 note; 0]]).
Proof.
  intros Hwf Hin. unfold stop. rewrite decide_True by done.
  by rewrite MIDIOutputFacts.note_off_bytes.
Qed.

(** C4. [play] writes nothing and leaves the tracker unchanged when the
    note is already active, [stop] writes nothing when it is not, and two
    [play] calls in a row for a note that was not active write exactly
    one message, the Note-On of the first call. *)
Theorem at_most_one_note_on (n : t) (note v1 v2 : Z) (c1 c2 : option Z) :
  Encoding.wf (midi n) →
  (note ∈ active_notes n → play note v1 c1 n = Some (n, [])) ∧
  (note ∉ active_notes n → stop note c1 n = Some (n, [])) ∧
  (note ∉ active_notes n →
     Runs.play_twice note v1 c1 v2 c2 n =
       Some ({| midi := midi n; active_notes := active_notes n ∪ {[note]} |},
             [[Z.lor 0x90 (MIDIOutput._get_channel (midi n) c1 - 1);
               clamp 0 127 note; clamp 0 127 v1]])).
Proof.
  intros Hwf. split; [apply play_active|]. split; [apply stop_inactive|].
  intros Hin. unfold Runs.play_twice.
  rewrite play_inactive
    by (done || by apply MIDIOutputFacts._get_channel_range). simpl.
  rewrite play_active by (simpl; set_solver). done.
Qed.

Lemma at_most_one_note_on_witness :
  Encoding.wf (midi Examples.fresh_tracker) ∧
  (60 ∉ active_notes Examples.fresh_tracker) ∧
  Runs.play_twice 60 100 (Some 1) 100 (Some 1) Examples.fresh_tracker =
    Some ({| midi := midi Examples.fresh_tracker;
             active_notes := active_notes Examples.fresh_tracker ∪ {[60]} |},
          [[0x90; 60; 100]]).
Proof.
  assert (Encoding.wf (midi Examples.fresh_tracker)) as Hwf
    by (apply MIDIOutputFacts.midi_init_wf).
  assert (60 ∉ active_notes Examples.fresh_tracker) as Hin
    by (simpl; set_solver).
  split; [exact Hwf|]. split; [exact Hin|].
  exact (proj2 (proj2 (at_most_one_note_on Examples.fresh_tracker
                         60 100 100 (Some 1) (Some 1) Hwf)) Hin).
Defined.

End MIDINoteFacts.

(** ** The quadrature decoder *)

Module RotaryEncoderFacts.
Import RotaryEncoder Decode.

(** Closed form of the returned delta. *)
Lemma update_delta r e :
  (update r e).1 =
    if decide (falling r e) then
      (if dt r then 1 else -1) * (if decide (fast r e) then 2 else 1)
    else 0.
Proof.
  destruct e as [p [] [] t], r as [[] [] now];
    unfold update, falling, fast, ACCELERATION_THRESHOLD; simpl;
    repeat case_decide; simpl in *; destruct_and?; try done; try lia;
    exfalso; naive_solver.
Qed.

(** The accumulated position moves by one unit per falling edge, also
    when the returned delta is accelerated. *)
Lemma update_position r e :
  position (update r e).2 =
    position e +
    if decide (falling r e) then (if dt r then 1 else -1) else 0.
Proof.
  destruct e as [p [] [] t], r as [[] [] now];
    unfold update, falling; simpl;
    repeat case_decide; simpl in *; destruct_and?; try done; try lia.
Qed.

Lemma update_last_clk r e : last_clk_state (update r e).2 = clk r.
Proof.
  destruct e as [p [] [] t], r as [[] [] now];
    unfold update; simpl; repeat case_decide; done.
Qed.

(** What [update] writes back: the level it has just read, and the time
    of the call when it counted an edge. *)
Lemma update_flags r e :
  acceleration_enabled (update r e).2 = acceleration_enabled e ∧
  last_rotation_time (update r e).2 =
    if decide (falling r e) then current_time r else last_rotation_time e.
Proof.
  destruct e as [p [] [] t], r as [[] [] now];
    unfold update, falling; simpl;
    repeat case_decide; simpl in *; destruct_and?; try done; exfalso; tauto.
Qed.

Lemma update_zero_iff r e : (update r e).1 = 0 ↔ ¬ falling r e.
Proof.
  rewrite update_delta. destruct (dt r); repeat case_decide; split; intros;
    try done; try lia.
Qed.

(** Polls that return 0 leave the acceleration timer alone. *)
Lemma quiet_polls_keep_timer mid : ∀ e,
  Forall (λ d, d = 0) (Runs.decoder_updates mid e).1 →
  acceleration_enabled (Runs.decoder_updates mid e).2
    = acceleration_enabled e ∧
  last_rotation_time (Runs.decoder_updates mid e).2 = last_rotation_time e.
Proof.
  induction mid as [|r mid IH]; intros e Hz; [done|].
  simpl in Hz |- *.
  pose proof (update_zero_iff r e) as Hzero.
  destruct (update_flags r e) as [Ha Ht].
  destruct (update r e) as [d e1]. simpl in Hzero, Ha, Ht.
  specialize (IH e1).
  destruct (Runs.decoder_updates mid e1) as [ds e2]. simpl in Hz, IH |- *.
  apply Forall_cons in Hz as [Hd Hz]. destruct (IH Hz) as [-> ->].
  rewrite Ha, Ht. rewrite decide_False; [done|]. by apply Hzero.
Qed.

(** The returned delta, case by case. *)
Lemma update_cases r e :
  (falling r e ∧ dt r = true ∧ ¬ fast r e → (update r e).1 = 1) ∧
  (falling r e ∧ dt r = true ∧ fast r e → (update r e).1 = 2) ∧
  (falling r e ∧ dt r = false ∧ ¬ fast r e → (update r e).1 = -1) ∧
  (falling r e ∧ dt r = false ∧ fast r e → (update r e).1 = -2) ∧
  (0 < (update r e).1 ↔ falling r e ∧ dt r = true) ∧
  ((update r e).1 < 0 ↔ falling r e ∧ dt r = false) ∧
  (¬ falling r e →
     (update r e).1 = 0 ∧ position (update r e).2 = position e).
Proof.
  rewrite update_delta, update_position.
  destruct (dt r); repeat case_decide;
    repeat split; intros; destruct_and?; try done; try lia;
    unfold falling in *; tauto.
Qed.

(** C2. [update] returns +1 on a falling edge of phase A with phase B
    high and -1 on a falling edge with phase B low, doubled when
    acceleration is enabled and less than 50 ms have passed since the
    last registered edge; a positive (negative) result occurs exactly on
    a falling edge with B high (low); a call that sees no falling edge
    returns 0 and leaves the position unchanged.

    The edge is one between consecutive calls: [update] stores the level
    it read, so the next call sees a falling edge exactly when this call
    read high and the next reads low, and a call that reads the same
    level as the call before it returns 0 and leaves the position
    unchanged. The time is that of the previously counted edge:
    [update] stores the time of the call when it counts an edge and at
    no other call, so after an edge at [r] and any number of calls
    returning 0, an edge at [r2] is doubled exactly when acceleration is
    enabled and less than 50 ms separate [r2] from [r]. *)
Theorem update_decodes (r r2 : reading) (polls : list reading) (e : t) :
  let delta := (update r e).1 in
  let e' := (update r e).2 in
  (falling r e ∧ dt r = true ∧ ¬ fast r e → delta = 1) ∧
  (falling r e ∧ dt r = true ∧ fast r e → delta = 2) ∧
  (falling r e ∧ dt r = false ∧ ¬ fast r e → delta = -1) ∧
  (falling r e ∧ dt r = false ∧ fast r e → delta = -2) ∧
  (0 < delta ↔ falling r e ∧ dt r = true) ∧
  (delta < 0 ↔ falling r e ∧ dt r = false) ∧
  (¬ falling r e → delta = 0 ∧ position e' = position e) ∧
  e' = {| position :=
            position e + if decide (falling r e) then direction r else 0;
          last_clk_state := clk r;
          acceleration_enabled := acceleration_enabled e;
          last_rotation_time :=
            if decide (falling r e) then current_time r
            else last_rotation_time e |} ∧
  (∀ r', falling r' e' ↔ clk r = true ∧ clk r' = false) ∧
  (∀ r', clk r' = clk r →
         (update r' e').1 = 0 ∧ position (update r' e').2 = position e') ∧
  (falling r e →
   Forall (λ d, d = 0) (Runs.decoder_updates polls e').1 →
   falling r2 (Runs.decoder_updates polls e').2 →
   (update r2 (Runs.decoder_updates polls e').2).1 =
     direction r2 *
     (if decide (acceleration_enabled e = true ∧
                 current_time r2 - current_time r < ACCELERATION_THRESHOLD)
      then 2 else 1)).
Proof.
  intros delta e'. subst delta e'.
  destruct (update_cases r e) as (H1 & H2 & H3 & H4 & H5 & H6 & H7).
  do 7 (split; [assumption|]).
  destruct (update_flags r e) as [Ha Ht].
  pose proof (update_last_clk r e) as Hc.
  pose proof (update_position r e) as Hp.
  split; [|split; [|split]].
  - destruct (update r e) as [d [p c a t]]. simpl in Ha, Ht, Hc, Hp.
    simpl. unfold direction. by rewrite Ha, Ht, Hc, Hp.
  - intros r'. unfold falling at 1. rewrite Hc. done.
  - intros r' Hsame.
    assert (¬ falling r' (update r e).2) as Hnot.
    { unfold falling. rewrite Hc, Hsame. destruct (clk r); by intros []. }
    destruct (update_cases r' (update r e).2)
      as (_ & _ & _ & _ & _ & _ & Hzero).
    by apply Hzero.
  - intros Hf Hmid Hf2.
    destruct (quiet_polls_keep_timer polls (update r e).2 Hmid) as [Ha' Ht'].
    rewrite decide_True in Ht by done.
    rewrite update_delta, decide_True by done. unfold direction.
    f_equal. apply decide_ext. unfold fast. by rewrite Ha', Ht', Ha, Ht.
Qed.

(** Two clockwise detents 20 ms apart on an accelerated decoder at rest:
    the first returns 1, the rising edge between them returns 0, the
    second returns 2. *)
Lemma update_decodes_witness :
  (update Examples.first_edge Examples.resting_decoder).1 = 1 ∧
  (update Examples.rising_edge
     (update Examples.first_edge Examples.resting_decoder).2).1 = 0 ∧
  (update Examples.second_edge
     (Runs.decoder_updates [Examples.rising_edge]
        (update Examples.first_edge Examples.resting_decoder).2).2).1 = 2.
Proof.
  destruct (update_decodes Examples.first_edge Examples.second_edge
              [Examples.rising_edge] Examples.resting_decoder)
    as (H1 & _ & _ & _ & _ & _ & _ & _ & Hedge & _ & Hnext).
  split; [|split].
  - apply H1. split; [by vm_compute|]. split; [reflexivity|].
    intros [_ Hlt]. vm_compute in Hlt. discriminate.
  - apply update_zero_iff. rewrite Hedge. by intros [_ ?].
  - assert (falling Examples.first_edge Examples.resting_decoder) as Hf
      by (by vm_compute).
    assert (Forall (λ d, d = 0)
              (Runs.decoder_updates [Examples.rising_edge]
                 (update Examples.first_edge Examples.resting_decoder).2).1)
      as Hmid by (by repeat constructor).
    assert (falling Examples.second_edge
              (Runs.decoder_updates [Examples.rising_edge]
                 (update Examples.first_edge Examples.resting_decoder).2).2)
      as Hf2 by (by vm_compute).
    rewrite (Hnext Hf Hmid Hf2). reflexivity.
Defined.

End RotaryEncoderFacts.

(** ** The clamped encoder value *)

Module EncoderWithValueFacts.
Import EncoderWithValue Decode.

Lemma update_value r w :
  value (update r w).2 =
    if decide (raw_delta r w = 0) then value w
    else clamp (min_value w) (max_value w) (value w + raw_delta r w).
Proof.
  unfold update, raw_delta, RotaryEncoder.get_delta.
  destruct (RotaryEncoder.update r (encoder w)) as [d enc]. simpl.
  repeat case_decide; simpl; try done; lia.
Qed.

Lemma update_result r w : (update r w).1 = value (update r w).2 - value w.
Proof.
  unfold update, RotaryEncoder.get_delta.
  destruct (RotaryEncoder.update r (encoder w)) as [d enc]. simpl.
  case_decide; simpl; lia.
Qed.

Lemma update_range r w :
  min_value (update r w).2 = min_value w ∧
  max_value (update r w).2 = max_value w.
Proof.
  unfold update, RotaryEncoder.get_delta.
  destruct (RotaryEncoder.update r (encoder w)) as [d enc]. simpl.
  by case_decide.
Qed.

Lemma update_encoder r w :
  encoder (update r w).2 = (RotaryEncoder.update r (encoder w)).2.
Proof.
  unfold update, RotaryEncoder.get_delta.
  destruct (RotaryEncoder.update r (encoder w)) as [d enc]. simpl.
  by case_decide.
Qed.

(** Along a run of updates whose decoder deltas are all non-negative the
    value is the start value plus their sum, cut off at [max_value], and
    the returned deltas add up to the distance actually travelled. *)
Lemma repeated_turns_saturate rs : ∀ w,
  min_value w ≤ max_value w → min_value w ≤ value w ≤ max_value w →
  Forall (λ d, 0 ≤ d) (Runs.decoder_updates rs (encoder w)).1 →
  value (Runs.value_updates rs w).2 =
    Z.min (max_value w)
          (value w + Runs.total (Runs.decoder_updates rs (encoder w)).1) ∧
  Runs.total (Runs.value_updates rs w).1 =
    value (Runs.value_updates rs w).2 - value w.
Proof.
  induction rs as [|r rs IH]; intros w Hle Hin Hpos.
  { simpl. unfold Runs.total. simpl. lia. }
  simpl in Hpos |- *.
  pose proof (update_value r w) as Hv.
  pose proof (update_result r w) as Hd.
  pose proof (update_encoder r w) as He.
  destruct (update_range r w) as [Hmin Hmax].
  unfold raw_delta in Hv.
  destruct (RotaryEncoder.update r (encoder w)) as [raw e1] eqn:Hraw.
  destruct (update r w) as [d w1]. simpl in Hv, Hd, He, Hmin, Hmax.
  subst e1.
  destruct (Runs.decoder_updates rs (encoder w1)) as [raws e2] eqn:Hraws.
  simpl in Hpos. apply Forall_cons in Hpos as [Hraw0 Hpos].
  assert (value w1 = Z.min (max_value w) (value w + raw)) as Hv1.
  { rewrite Hv. unfold clamp. case_decide; lia. }
  specialize (IH w1). rewrite Hraws, Hmin, Hmax in IH. simpl in IH.
  destruct IH as [IHv IHd]; [lia | lia | done |].
  destruct (Runs.value_updates rs w1) as [ds w2]. simpl in IHv, IHd |- *.
  assert (0 ≤ Runs.total raws) as Htot.
  { clear -Hpos. induction Hpos; unfold Runs.total in *; simpl; lia. }
  unfold Runs.total in *. simpl. lia.
Qed.

(** At [max_value], non-negative decoder deltas change nothing. *)
Lemma saturated_run rs : ∀ w,
  min_value w ≤ max_value w → value w = max_value w →
  Forall (λ d, 0 ≤ d) (Runs.decoder_updates rs (encoder w)).1 →
  Forall (λ d, d = 0) (Runs.value_updates rs w).1 ∧
  value (Runs.value_updates rs w).2 = max_value w.
Proof.
  induction rs as [|r rs IH]; intros w Hle Hsat Hpos; [done|].
  simpl in Hpos |- *.
  pose proof (update_value r w) as Hv.
  pose proof (update_result r w) as Hd.
  pose proof (update_encoder r w) as He.
  destruct (update_range r w) as [Hmin Hmax].
  unfold raw_delta in Hv.
  destruct (RotaryEncoder.update r (encoder w)) as [raw e1] eqn:Hraw.
  destruct (update r w) as [d w1]. simpl in Hv, Hd, He, Hmin, Hmax.
  subst e1.
  destruct (Runs.decoder_updates rs (encoder w1)) as [raws e2] eqn:Hraws.
  simpl in Hpos. apply Forall_cons in Hpos as [Hraw0 Hpos].
  assert (value w1 = max_value w) as Hv1.
  { rewrite Hv. unfold clamp. case_decide; lia. }
  specialize (IH w1). rewrite Hraws, Hmin, Hmax in IH. simpl in IH.
  destruct IH as [IHd IHv]; [lia | done | done |].
  destruct (Runs.value_updates rs w1) as [ds w2]. simpl in IHv, IHd |- *.
  split; [|done]. constructor; [lia | done].
Qed.

(** C5. [update] writes back the value plus the decoder's delta, clamped
    to [[min_value, max_value]] (the value as it was when the delta is
    0), with the bounds as they were and the decoder as its own [update]
    left it, and returns the new value minus the old one, not the
    decoder's delta. With [min_value <= max_value] the value stays
    inside the bounds, and is inside them after any non-zero delta. A
    positive delta that reaches [max_value] leaves the value there.
    Along a run of non-negative decoder deltas from a value inside the
    bounds, the value is the start value plus their sum, cut off at
    [max_value], and the returned deltas add up to the distance
    travelled; from [max_value] on, every returned delta is 0. *)
Theorem value_clamp (r : RotaryEncoder.reading)
    (rs : list RotaryEncoder.reading) (w : t) :
  min_value w ≤ max_value w →
  let raw := raw_delta r w in
  let d := (update r w).1 in
  let w' := (update r w).2 in
  (min_value w ≤ value w ≤ max_value w →
     min_value w' ≤ value w' ≤ max_value w') ∧
  (raw ≠ 0 → min_value w' ≤ value w' ≤ max_value w') ∧
  d = value w' - value w ∧
  (0 < raw → max_value w ≤ value w + raw → value w' = max_value w) ∧
  (0 < raw → value w = max_value w → value w' = max_value w ∧ d = 0) ∧
  w' = {| encoder := (RotaryEncoder.update r (encoder w)).2;
          value := if decide (raw = 0) then value w
                   else clamp (min_value w) (max_value w) (value w + raw);
          min_value := min_value w;
          max_value := max_value w |} ∧
  (min_value w ≤ value w ≤ max_value w →
     value w' = clamp (min_value w) (max_value w) (value w + raw) ∧
     d = clamp (min_value w) (max_value w) (value w + raw) - value w) ∧
  (min_value w ≤ value w ≤ max_value w →
   Forall (λ d, 0 ≤ d) (Runs.decoder_updates rs (encoder w)).1 →
     value (Runs.value_updates rs w).2 =
       Z.min (max_value w)
             (value w + Runs.total (Runs.decoder_updates rs (encoder w)).1) ∧
     Runs.total (Runs.value_updates rs w).1 =
       value (Runs.value_updates rs w).2 - value w) ∧
  (value w = max_value w →
   Forall (λ d, 0 ≤ d) (Runs.decoder_updates rs (encoder w)).1 →
     Forall (λ d, d = 0) (Runs.value_updates rs w).1 ∧
     value (Runs.value_updates rs w).2 = max_value w).
Proof.
  intros Hle raw d w'. subst raw d w'.
  pose proof (update_value r w) as Hv.
  pose proof (update_result r w) as Hd.
  pose proof (update_encoder r w) as He.
  destruct (update_range r w) as [Hmin Hmax].
  split; [|split; [|split; [|split; [|split]]]].
  - rewrite Hmin, Hmax, Hv. unfold clamp. case_decide; lia.
  - rewrite Hmin, Hmax, Hv. unfold clamp. case_decide; lia.
  - exact Hd.
  - rewrite Hv. unfold clamp. case_decide; lia.
  - rewrite Hd, Hv. unfold clamp. case_decide; lia.
  - split; [|split; [|split]].
    + destruct (update r w) as [d [enc v lo hi]].
      simpl in Hv, He, Hmin, Hmax. simpl. by rewrite Hv, He, Hmin, Hmax.
    + intros Hin. rewrite Hd, Hv. unfold clamp. case_decide; lia.
    + intros Hin Hpos. by apply repeated_turns_saturate.
    + intros Hsat Hpos. by apply saturated_run.
Qed.

(** From 126 in [[0, 127]], an accelerated clockwise detent (decoder
    delta 2) moves the value to 127 and returns 1; over that detent and
    the next one the decoder deltas are 2, 0, 2, the value ends at 127
    and the returned deltas add up to 1; from 127 on, the rest of the
    run returns only zeros. *)
Lemma value_clamp_witness :
  min_value Examples.near_top ≤ max_value Examples.near_top ∧
  raw_delta Examples.quick_clockwise Examples.near_top = 2 ∧
  (update Examples.quick_clockwise Examples.near_top).1 = 1 ∧
  value (update Examples.quick_clockwise Examples.near_top).2 = 127 ∧
  (Runs.decoder_updates Examples.two_detents
     (encoder Examples.near_top)).1 = [2; 0; 2] ∧
  value (Runs.value_updates Examples.two_detents Examples.near_top).2
    = 127 ∧
  Runs.total (Runs.value_updates Examples.two_detents Examples.near_top).1
    = 1 ∧
  Forall (λ d, d = 0)
    (Runs.value_updates (tail Examples.two_detents)
       (update Examples.quick_clockwise Examples.near_top).2).1.
Proof.
  assert (min_value Examples.near_top ≤ max_value Examples.near_top) as Hle
    by (simpl; lia).
  assert (min_value Examples.near_top ≤ value Examples.near_top
            ≤ max_value Examples.near_top) as Hin by (simpl; lia).
  assert ((Runs.decoder_updates Examples.two_detents
             (encoder Examples.near_top)).1 = [2; 0; 2]) as Hraws
    by reflexivity.
  destruct (value_clamp Examples.quick_clockwise Examples.two_detents
              Examples.near_top Hle)
    as (_ & _ & Hd & Hsat & _ & _ & _ & Hrun & _).
  assert (value (update Examples.quick_clockwise Examples.near_top).2 = 127)
    as Hv by (apply Hsat; vm_compute; congruence).
  destruct Hrun as [Hend Htot];
    [exact Hin | rewrite Hraws; repeat constructor; lia |].
  split; [exact Hle|]. split; [reflexivity|].
  split; [rewrite Hd, Hv; reflexivity|]. split; [exact Hv|].
  split; [exact Hraws|].
  split; [rewrite Hend, Hraws; reflexivity|].
  split; [rewrite Htot, Hend, Hraws; reflexivity|].
  assert (min_value (update Examples.quick_clockwise Examples.near_top).2
          ≤ max_value (update Examples.quick_clockwise Examples.near_top).2)
    as Hle' by (simpl; lia).
  destruct (value_clamp Examples.quick_clockwise (tail Examples.two_detents)
              (update Examples.quick_clockwise Examples.near_top).2 Hle')
    as (_ & _ & _ & _ & _ & _ & _ & _ & Hzero).
  apply Hzero; [reflexivity | by repeat constructor].
Defined.

End EncoderWithValueFacts.

(** ** The dispatch loop *)

Module MainFacts.
Import Main Dispatch.

(** *** The pressed-key list *)

Lemma get_pressed_keys_spec m :
  Debounce.wf m →
  KeyMatrix.get_pressed_keys m =
    Some (filter (λ i, KeyMatrix.key_states m !! i = Some true)
                 (seq 0 KeyMatrix.NUM_KEYS)).
Proof.
  intros [Hlen _]. unfold KeyMatrix.get_pressed_keys.
  assert (∀ l acc,
    Forall (λ i, i < length (KeyMatrix.key_states m))%nat l →
    for_each l (λ i acc, b ← KeyMatrix.key_states m !! i;
                         Some (if b : bool then acc ++ [i] else acc)) acc =
    Some (acc ++ filter (λ i, KeyMatrix.key_states m !! i = Some true) l))
    as Hgen.
  { induction l as [|i l IH]; intros acc Hall; simpl.
    - by rewrite app_nil_r.
    - apply Forall_cons in Hall as [Hi Hall].
      destruct (lookup_lt_is_Some_2 _ _ Hi) as [b Hb].
      rewrite Hb. simpl. rewrite IH by done. rewrite filter_cons, Hb.
      destruct b.
      + rewrite decide_True by done. by rewrite <- app_assoc.
      + by rewrite decide_False by done. }
  rewrite Hgen; [done|]. rewrite Hlen. apply Forall_forall.
  intros i Hi%elem_of_seq. lia.
Qed.

Lemma held_keys_filter m :
  filter (λ k, (k < 16)%nat)
         (filter (λ i, KeyMatrix.key_states m !! i = Some true)
                 (seq 0 KeyMatrix.NUM_KEYS)) = held_keys m.
Proof. apply list_filter_filter. Qed.

Lemma seq_sorted j n : StronglySorted lt (seq j n).
Proof.
  revert j. induction n as [|n IH]; intros j; simpl; constructor; [done|].
  apply Forall_forall. intros i Hi%elem_of_seq. lia.
Qed.

Lemma filter_sorted (P : nat → Prop) `{!∀ x, Decision (P x)} l :
  StronglySorted lt l → StronglySorted lt (filter P l).
Proof.
  induction 1 as [|x l Hs IH Hall]; [constructor|].
  rewrite filter_cons. case_decide; [|done].
  constructor; [done|]. apply Forall_forall.
  intros y [_ Hy]%list_elem_of_filter.
  by apply (proj1 (Forall_forall _ _) Hall).
Qed.

Lemma held_keys_sorted m : StronglySorted lt (held_keys m).
Proof. apply filter_sorted, seq_sorted. Qed.

Lemma held_keys_NoDup m : NoDup (held_keys m).
Proof. apply NoDup_filter, NoDup_seq. Qed.

Lemma held_keys_lt m : Forall (λ k, (k < 16)%nat) (held_keys m).
Proof.
  apply Forall_forall. by intros k [[? _] _]%list_elem_of_filter.
Qed.

(** *** The static tables *)

Lemma KEY_TO_NOTE_lookup k :
  (k < 16)%nat → KEY_TO_NOTE !! k = Some (60 + Z.of_nat k).
Proof.
  intros Hk. unfold KEY_TO_NOTE.
  rewrite list_lookup_fmap, lookup_seq_lt by done. simpl. f_equal. lia.
Qed.

Lemma KEY_TO_CC_lookup k :
  (k < 16)%nat → KEY_TO_CC !! k = Some (Z.of_nat k + 1).
Proof.
  intros Hk. unfold KEY_TO_CC.
  rewrite list_lookup_fmap, lookup_seq_lt by done. simpl. f_equal. lia.
Qed.

Lemma KEY_PARAM_NAMES_lookup k :
  (k < 16)%nat → KEY_PARAM_NAMES !! k = Some (param_name k).
Proof.
  intros Hk. unfold param_name.
  destruct (lookup_lt_is_Some_2 KEY_PARAM_NAMES k) as [x ->]; done.
Qed.

(** *** Press and release handling *)

Lemma edge_steps_refl s : edge_steps s s.
Proof.
  split; [by repeat split|]. exists []. by rewrite app_nil_r.
Qed.

Lemma edge_steps_trans s1 s2 s3 :
  edge_steps s1 s2 → edge_steps s2 s3 → edge_steps s1 s3.
Proof.
  intros [(?&?&?&?&?&?) (e1 & He1 & Hq1)] [(?&?&?&?&?&?) (e2 & He2 & Hq2)].
  split; [repeat split; congruence|].
  exists (e1 ++ e2). rewrite He2, He1, app_assoc. split; [done|].
  by apply Forall_app.
Qed.

Lemma note_events_quiet (n : MIDINote.t) (kind note velocity : Z) msgs :
  kind = 0x80 ∨ kind = 0x90 →
  msgs = [] ∨
  msgs = [[Z.lor kind (MIDIOutput._get_channel (MIDINote.midi n)
                         (Some midi_channel) - 1); note; velocity]] →
  Forall quiet (MidiWrite <$> msgs).
Proof.
  intros Hkind [->| ->]; [constructor|].
  repeat constructor; by destruct Hkind as [-> | ->].
Qed.

Lemma play_step note n :
  ∃ n' msgs, MIDINote.play note 100 (Some midi_channel) n = Some (n', msgs)
             ∧ MIDINote.midi n' = MIDINote.midi n
             ∧ Forall quiet (MidiWrite <$> msgs).
Proof.
  destruct (decide (note ∈ MIDINote.active_notes n)) as [Hin|Hin].
  - rewrite MIDINoteFacts.play_active by done.
    eexists _, _. repeat split. constructor.
  - rewrite MIDINoteFacts.play_inactive
      by (done || apply MIDIOutputFacts.explicit_channel_range).
    eexists _, _. split; [done|]. split; [done|].
    eapply (note_events_quiet n 0x90); [auto | right; reflexivity].
Qed.

Lemma stop_step note n :
  ∃ n' msgs, MIDINote.stop note (Some midi_channel) n = Some (n', msgs)
             ∧ MIDINote.midi n' = MIDINote.midi n
             ∧ Forall quiet (MidiWrite <$> msgs).
Proof.
  destruct (decide (note ∈ MIDINote.active_notes n)) as [Hin|Hin].
  - rewrite MIDINoteFacts.stop_active
      by (done || apply MIDIOutputFacts.explicit_channel_range).
    eexists _, _. split; [done|]. split; [done|].
    eapply (note_events_quiet n 0x80); [auto | right; reflexivity].
  - rewrite MIDINoteFacts.stop_inactive by done.
    eexists _, _. repeat split. constructor.
Qed.

Lemma on_press_step k s :
  length (key_cc_values s.1) = 16%nat → (k < 16)%nat →
  ∃ s', on_press k s = Some s' ∧ edge_steps s s'.
Proof.
  destruct s as [st log]. simpl. intros Hlen Hk. unfold on_press.
  rewrite KEY_TO_NOTE_lookup by done. simpl.
  destruct (play_step (60 + Z.of_nat k) (midi_note st))
    as (n' & msgs & -> & Hmidi & Hq). simpl.
  destruct (lookup_lt_is_Some_2 (key_cc_values st) k) as [v ->]; [lia|].
  rewrite KEY_PARAM_NAMES_lookup, KEY_TO_CC_lookup by done. simpl.
  eexists. split; [done|]. split; [by repeat split|].
  eexists. split; [done|]. apply Forall_app. split; [done|].
  by repeat constructor.
Qed.

Lemma on_release_step k s :
  (k < 16)%nat → ∃ s', on_release k s = Some s' ∧ edge_steps s s'.
Proof.
  destruct s as [st log]. intros Hk. unfold on_release.
  rewrite KEY_TO_NOTE_lookup by done. simpl.
  destruct (stop_step (60 + Z.of_nat k) (midi_note st))
    as (n' & msgs & -> & Hmidi & Hq). simpl.
  eexists. split; [done|]. split; [by repeat split|].
  by eexists.
Qed.

Lemma presses_steps keys s :
  length (key_cc_values s.1) = 16%nat → Forall (λ k, (k < 16)%nat) keys →
  ∃ s', for_each keys on_press s = Some s' ∧ edge_steps s s'.
Proof.
  intros Hlen Hkeys.
  apply (for_each_invariant (edge_steps s)); [|apply edge_steps_refl].
  intros k s1 Hk Hs1.
  destruct (on_press_step k s1) as (s2 & Hs2 & Hstep).
  - destruct Hs1 as [(_ & _ & -> & _) _]. done.
  - by apply (proj1 (Forall_forall _ _) Hkeys).
  - exists s2. split; [done|]. by eapply edge_steps_trans.
Qed.

Lemma releases_steps keys s :
  Forall (λ k, (k < 16)%nat) keys →
  ∃ s', for_each keys on_release s = Some s' ∧ edge_steps s s'.
Proof.
  intros Hkeys.
  apply (for_each_invariant (edge_steps s)); [|apply edge_steps_refl].
  intros k s1 Hk Hs1.
  destruct (on_release_step k s1) as (s2 & Hs2 & Hstep).
  - by apply (proj1 (Forall_forall _ _) Hkeys).
  - exists s2. split; [done|]. by eapply edge_steps_trans.
Qed.

(** *** The encoder branch *)

Lemma key_events_ext first delta cc cc' k :
  cc' !! k = cc !! k →
  key_events first delta cc' k = key_events first delta cc k.
Proof. intros Heq. unfold key_events, adjusted. by rewrite Heq. Qed.

Lemma adjust_key_spec delta pressed first k st log :
  length (key_cc_values st) = 16%nat → (k < 16)%nat →
  pressed !! 0%nat = Some first →
  adjust_key delta pressed k (st, log) =
    Some (set_key_cc_values
            (<[k := adjusted delta (key_cc_values st) k]> (key_cc_values st))
            st,
          log ++ key_events (Some first) delta (key_cc_values st) k).
Proof.
  intros Hlen Hk Hfirst. unfold adjust_key, key_events, adjusted.
  destruct (lookup_lt_is_Some_2 (key_cc_values st) k) as [old Hold]; [lia|].
  rewrite Hold. simpl. rewrite list_assign_Some by lia. simpl.
  rewrite list_lookup_insert_eq by lia. simpl.
  fold (clamp 0 127 (old + delta)).
  destruct (decide (clamp 0 127 (old + delta) = old)) as [Heq|Hne].
  - rewrite decide_False by tauto. by rewrite app_nil_r.
  - rewrite decide_True by done.
    rewrite KEY_TO_CC_lookup, KEY_PARAM_NAMES_lookup, Hfirst by done. simpl.
    rewrite MIDIOutputFacts.control_change_bytes
      by apply MIDIOutputFacts.explicit_channel_range.
    simpl. rewrite (clamp_id 0 127 (Z.of_nat k + 1)) by lia.
    rewrite (clamp_id 0 127 (clamp 0 127 (old + delta)))
      by (apply clamp_bounds; lia).
    do 3 f_equal.
    destruct (decide (k = first)) as [->|Hkf].
    + by rewrite decide_True.
    + rewrite decide_False; [done|]. congruence.
Qed.

Lemma adjust_keys_spec delta pressed first keys : ∀ st log,
  length (key_cc_values st) = 16%nat →
  Forall (λ k, (k < 16)%nat) keys → NoDup keys →
  pressed !! 0%nat = Some first →
  ∃ st',
    for_each keys (adjust_key delta pressed) (st, log) =
      Some (st', log ++ mjoin (key_events (Some first) delta
                                          (key_cc_values st) <$> keys)) ∧
    same_but_cc st st' ∧
    length (key_cc_values st') = 16%nat ∧
    ∀ k, key_cc_values st' !! k =
         if decide (k ∈ keys)
         then Some (adjusted delta (key_cc_values st) k)
         else key_cc_values st !! k.
Proof.
  induction keys as [|k keys IH]; intros st log Hlen Hlt Hnd Hfirst.
  { exists st. simpl. rewrite app_nil_r. by repeat split. }
  apply Forall_cons in Hlt as [Hk Hlt].
  apply NoDup_cons in Hnd as [Hnotin Hnd].
  cbn [for_each]. rewrite (adjust_key_spec delta pressed first) by done.
  cbn [mbind option_bind].
  set (cc := key_cc_values st) in *.
  set (st1 := set_key_cc_values (<[k:=adjusted delta cc k]> cc) st).
  destruct (IH st1 (log ++ key_events (Some first) delta cc k))
    as (st' & Hrun & Hsame & Hlen' & Hcc); try done.
  { simpl. by rewrite length_insert. }
  exists st'. rewrite Hrun. split; [|split; [|split]].
  - rewrite fmap_cons. cbn [mjoin list_join].
    rewrite <- app_assoc.
    rewrite (list_fmap_ext (key_events (Some first) delta (key_cc_values st1))
               (key_events (Some first) delta cc) keys); [done|].
    intros i k' Hk'.
    apply key_events_ext, list_lookup_insert_ne.
    intros ->. apply Hnotin. by eapply list_elem_of_lookup_2.
  - destruct Hsame as (?&?&?&?&?). by repeat split.
  - done.
  - intros j. rewrite Hcc.
    change (key_cc_values st1) with (<[k:=adjusted delta cc k]> cc).
    destruct (decide (j = k)) as [->|Hjk].
    + rewrite decide_False by done. rewrite decide_True by left.
      apply list_lookup_insert_eq. lia.
    + assert (<[k:=adjusted delta cc k]> cc !! j = cc !! j) as Hj
        by by apply list_lookup_insert_ne.
      destruct (decide (j ∈ keys)) as [Hin|Hin].
      * rewrite decide_True by by right.
        unfold adjusted at 1. by rewrite Hj.
      * rewrite decide_False; [done|].
        intros [?|?]%elem_of_cons; done.
Qed.

Lemma encoder_dispatch_spec delta held st log :
  length (key_cc_values st) = 16%nat →
  Forall (λ k, (k < 16)%nat) held → NoDup held →
  delta ≠ 0 → held ≠ [] →
  ∃ st',
    encoder_dispatch delta held (st, log) =
      Some (st', log ++ mjoin (key_events (head held) delta
                                          (key_cc_values st) <$> held)
                     ++ [LedShow]) ∧
    same_but_cc st st' ∧
    length (key_cc_values st') = 16%nat ∧
    ∀ k, key_cc_values st' !! k =
         if decide (k ∈ held)
         then Some (adjusted delta (key_cc_values st) k)
         else key_cc_values st !! k.
Proof.
  intros Hlen Hlt Hnd Hdelta Hheld. unfold encoder_dispatch.
  rewrite decide_True by done.
  destruct held as [|first held']; [done|].
  destruct (adjust_keys_spec delta (first :: held') first (first :: held')
              st log) as (st' & -> & Hsame & Hlen' & Hcc); try done.
  exists st'. simpl. by rewrite <- !app_assoc.
Qed.

Lemma encoder_dispatch_skip delta held s :
  delta = 0 ∨ held = [] → encoder_dispatch delta held s = Some s.
Proof.
  intros Hskip. unfold encoder_dispatch. rewrite decide_False; [done|].
  tauto.
Qed.

(** *** One pass of the loop *)

Lemma startup_wf clk0 : wf (startup clk0).1.
Proof.
  split; [apply KeyMatrixFacts.scanner_init_wf|]. by repeat split.
Qed.

(** The pass in stages: the scan and the decoder update cannot raise;
    press and release handling only track notes and emit quiet events;
    then come the idle redraw, the encoder branch and the final sleep. *)
Lemma loop_iteration_phases r st log :
  wf st →
  ∃ m enc s2,
    KeyMatrix.scan (matrix_in r) (matrix st) = Some m ∧
    Debounce.wf m ∧
    EncoderWithValue.update (encoder_in r) (encoder st)
      = (actual_delta r st, enc) ∧
    edge_steps (set_inputs m enc st, log) s2 ∧
    loop_iteration r (st, log) =
      '(st3, log3) ← encoder_dispatch (actual_delta r st) (held_keys m)
                        (idle_redraw (current_time r) (held_keys m) s2);
      Some (set_prev_pressed_keys (held_keys m) st3, log3 ++ [Sleep 10000]).
Proof.
  intros (Hm & Hlen & Hprev & _ & _).
  destruct (KeyMatrixFacts.scan_total (matrix_in r) (matrix st) Hm)
    as (m & Hscan & Hwfm).
  unfold loop_iteration, actual_delta. rewrite Hscan. simpl.
  destruct (EncoderWithValue.update (encoder_in r) (encoder st))
    as [delta enc]. simpl.
  rewrite (get_pressed_keys_spec m Hwfm). simpl.
  rewrite held_keys_filter.
  destruct (presses_steps
              (filter (λ k, k ∉ prev_pressed_keys st) (held_keys m))
              (set_inputs m enc st, log)) as (s1 & Hs1 & Hstep1); [done| |].
  { apply Forall_forall. intros k [_ Hk]%list_elem_of_filter.
    by apply (proj1 (Forall_forall _ _) (held_keys_lt m)). }
  destruct (releases_steps
              (filter (λ k, k ∉ held_keys m) (prev_pressed_keys st)) s1)
    as (s2 & Hs2 & Hstep2).
  { apply Forall_forall. intros k [_ Hk]%list_elem_of_filter.
    by apply (proj1 (Forall_forall _ _) Hprev). }
  exists m, enc, s2. rewrite Hs1. simpl. rewrite Hs2. simpl.
  split; [done|]. split; [done|]. split; [done|].
  split; [by eapply edge_steps_trans|]. done.
Qed.

Lemma idle_redraw_cases now held st log :
  (held = [] ∧ prev_pressed_keys st ≠ [] ∧
   now - last_display_update st > DISPLAY_UPDATE_INTERVAL →
     idle_redraw now held (st, log) =
       (set_last_display_update now st,
        log ++ [DisplayShowLayer current_layer layer_name])) ∧
  (¬ (held = [] ∧ prev_pressed_keys st ≠ [] ∧
      now - last_display_update st > DISPLAY_UPDATE_INTERVAL) →
     idle_redraw now held (st, log) = (st, log)).
Proof.
  unfold idle_redraw.
  repeat case_decide; split; intros; try done; tauto.
Qed.

(** One pass never raises; its effects are those of press and release
    handling, then of the idle redraw, then of the encoder branch, then
    the sleep. *)
Lemma loop_iteration_spec r st log :
  wf st →
  ∃ m enc st' pre idle adj,
    KeyMatrix.scan (matrix_in r) (matrix st) = Some m ∧
    EncoderWithValue.update (encoder_in r) (encoder st)
      = (actual_delta r st, enc) ∧
    loop_iteration r (st, log) =
      Some (st', log ++ pre ++ idle ++ adj ++ [Sleep 10000]) ∧
    Forall quiet pre ∧
    (matrix st' = m ∧ Debounce.wf m) ∧ encoder st' = enc ∧
    prev_pressed_keys st' = held_keys m ∧
    length (key_cc_values st') = 16%nat ∧
    (redraws r st (held_keys m) →
       idle = [DisplayShowLayer current_layer layer_name] ∧
       last_display_update st' = current_time r) ∧
    (¬ redraws r st (held_keys m) →
       idle = [] ∧ last_display_update st' = last_display_update st) ∧
    (¬ adjusts (actual_delta r st) (held_keys m) →
       adj = [] ∧ key_cc_values st' = key_cc_values st) ∧
    (adjusts (actual_delta r st) (held_keys m) →
       adj = mjoin (key_events (head (held_keys m)) (actual_delta r st)
                               (key_cc_values st) <$> held_keys m)
             ++ [LedShow] ∧
       ∀ k, key_cc_values st' !! k =
            if decide (k ∈ held_keys m)
            then Some (adjusted (actual_delta r st) (key_cc_values st) k)
            else key_cc_values st !! k).
Proof.
  intros Hwf.
  destruct (loop_iteration_phases r st log Hwf)
    as (m & enc & [st2 log2] & Hscan & Hwfm & Hupd & Hedge & ->).
  destruct Hwf as (_ & Hlen & _).
  destruct Hedge as [(Hmat & Henc & Hcc & Hprev & Hldu & _)
                       (pre & Hlog & Hpre)].
  simpl in Hmat, Henc, Hcc, Hprev, Hldu, Hlog. subst log2.
  set (delta := actual_delta r st) in *. set (held := held_keys m) in *.
  exists m, enc.
  (* the idle redraw *)
  destruct (idle_redraw_cases (current_time r) held st2 (log ++ pre))
    as [Hyes Hno]. rewrite Hprev, Hldu in Hyes, Hno.
  assert (∃ st3 idle,
    idle_redraw (current_time r) held (st2, log ++ pre)
      = (st3, (log ++ pre) ++ idle) ∧
    matrix st3 = m ∧ encoder st3 = enc ∧
    key_cc_values st3 = key_cc_values st ∧
    (redraws r st held →
       idle = [DisplayShowLayer current_layer layer_name] ∧
       last_display_update st3 = current_time r) ∧
    (¬ redraws r st held →
       idle = [] ∧ last_display_update st3 = last_display_update st))
    as (st3 & idle & -> & Hmat3 & Henc3 & Hcc3 & Hidle_yes & Hidle_no).
  { destruct (decide (redraws r st held)) as [Hr|Hr].
    - eexists _, _. split; [by apply Hyes|]. simpl.
      repeat split; try done. all: by intros [].
    - exists st2, []. rewrite app_nil_r. split; [by apply Hno|].
      repeat split; try done. all: by intros ?. }
  (* the encoder branch *)
  assert (length (key_cc_values st3) = 16%nat) as Hlen3 by congruence.
  destruct (decide (adjusts delta held)) as [[Hd Hh]|Hadj].
  - destruct (encoder_dispatch_spec delta held st3 ((log ++ pre) ++ idle))
      as (st4 & -> & (Hmat4 & Henc4 & _ & _ & Hldu4) & Hlen4 & Hcc4);
      [done | apply held_keys_lt | apply held_keys_NoDup | done | done |].
    simpl.
    exists (set_prev_pressed_keys held st4), pre, idle,
      (mjoin (key_events (head held) delta (key_cc_values st3) <$> held)
       ++ [LedShow]).
    split; [done|]. split; [done|].
    split; [by rewrite <- !app_assoc|]. simpl.
    split; [exact Hpre|].
    split; [split; [congruence | exact Hwfm]|].
    split; [congruence|]. split; [done|]. split; [done|].
    split; [by rewrite Hldu4|]. split; [by rewrite Hldu4|].
    split; [intros Hn; by destruct Hn|].
    intros _. split; [by rewrite Hcc3|].
    intros k. by rewrite Hcc4, Hcc3.
  - rewrite encoder_dispatch_skip.
    2:{ destruct (decide (delta = 0)) as [?|Hd]; [by left|right].
        destruct (decide (held = [])) as [?|Hh]; [done|].
        by destruct Hadj. }
    simpl. exists (set_prev_pressed_keys held st3), pre, idle, [].
    split; [done|]. split; [done|].
    split; [by rewrite <- !app_assoc|]. simpl.
    split; [exact Hpre|].
    split; [split; [congruence | exact Hwfm]|].
    split; [congruence|]. split; [done|]. split; [congruence|].
    split; [done|]. split; [done|].
    split; [done | intros Ha; by destruct Hadj].
Qed.
(** *** Consequences *)

Lemma loop_iteration_wf r st log :
  wf st → ∃ st' evs, loop_iteration r (st, log) = Some (st', log ++ evs)
                     ∧ wf st'.
Proof.
  intros Hwf.
  destruct (loop_iteration_spec r st log Hwf)
    as (m & enc & st' & pre & idle & adj & _ & Hupd & Hrun & _ &
        [Hmat Hwfm] & Henc & Hprev & Hlen & _).
  exists st', (pre ++ idle ++ adj ++ [Sleep 10000]). split; [done|].
  destruct Hwf as (_ & _ & _ & Hmin & Hmax).
  destruct (EncoderWithValueFacts.update_range (encoder_in r) (encoder st))
    as [Hmin' Hmax']. rewrite Hupd in Hmin', Hmax'. simpl in Hmin', Hmax'.
  unfold wf. rewrite Hmat, Henc, Hprev.
  split; [done|]. split; [done|]. split; [apply held_keys_lt|].
  split; congruence.
Qed.

(** The loop never raises. *)
Lemma main_loop_total rs : ∀ st log,
  wf st → ∃ st' evs, main_loop rs (st, log) = Some (st', log ++ evs) ∧ wf st'.
Proof.
  induction rs as [|r rs IH]; intros st log Hwf.
  { exists st, []. by rewrite app_nil_r. }
  destruct (loop_iteration_wf r st log Hwf) as (st1 & evs1 & Hrun1 & Hwf1).
  destruct (IH st1 (log ++ evs1) Hwf1) as (st' & evs & Hrun & Hwf').
  exists st', (evs1 ++ evs). unfold main_loop in *. cbn [for_each].
  rewrite Hrun1. cbn [mbind option_bind]. rewrite Hrun.
  by rewrite <- app_assoc.
Qed.

Lemma key_events_no_render first delta cc k :
  Forall (λ e, is_show_layer e = false) (key_events first delta cc k).
Proof.
  unfold key_events. repeat case_decide; by repeat constructor.
Qed.

Lemma keys_events_no_render first delta cc keys :
  Forall (λ e, is_show_layer e = false)
         (mjoin (key_events first delta cc <$> keys)).
Proof.
  induction keys as [|k l IH]; [constructor|].
  rewrite fmap_cons. cbn [mjoin list_join]. apply Forall_app.
  split; [apply key_events_no_render | apply IH].
Qed.

Lemma idle_renders_none evs :
  Forall (λ e, is_show_layer e = false) evs → idle_renders evs = [].
Proof.
  unfold idle_renders. induction 1 as [|e evs He _ IH]; [done|].
  rewrite filter_cons, decide_False; [done|]. congruence.
Qed.

Lemma idle_renders_app evs1 evs2 :
  idle_renders (evs1 ++ evs2) = idle_renders evs1 ++ idle_renders evs2.
Proof. apply filter_app. Qed.

Lemma quiet_no_render pre :
  Forall quiet pre → Forall (λ e, is_show_layer e = false) pre.
Proof. intros H. eapply Forall_impl; [exact H|]. by intros e [_ ?]. Qed.

Lemma quiet_no_control_change pre :
  Forall quiet pre → Forall (λ e, is_control_change e = false) pre.
Proof. intros H. eapply Forall_impl; [exact H|]. by intros e [? _]. Qed.

(** Among the events of a held key there is one Control-Change when its
    value changes and none otherwise. *)
Lemma key_events_one_control_change first delta cc k :
  length (filter (λ e, is_control_change e = true)
                 (key_events first delta cc k)) =
    if decide (adjusted delta cc k = default 0 (cc !! k)) then 0%nat
    else 1%nat.
Proof.
  unfold key_events. case_decide; [done|]. by case_decide.
Qed.

(** Scenario 3 of the specification, evaluated: keys 0 and 1 held, the
    encoder steps by -1. *)
Example chord_turn_events :
  snd <$> loop_iteration Examples.chord_turn ((startup true).1, []) =
    Some [ MidiWrite [0x90; 60; 100];
           LedSetKeyColor 0 255 255 255; LedShow; Sleep 30000;
           LedSetKeyValue 0 64; LedShow;
           DisplayShowFullStatus 1 "Default" "Cutoff" 64 1 1;
           MidiWrite [0x90; 61; 100];
           LedSetKeyColor 1 255 255 255; LedShow; Sleep 30000;
           LedSetKeyValue 1 64; LedShow;
           DisplayShowFullStatus 1 "Default" "Reso" 64 2 1;
           MidiWrite [0xB0; 1; 63]; LedSetKeyValue 0 63;
           DisplayShowFullStatus 1 "Default" "Cutoff" 63 1 1;
           MidiWrite [0xB0; 2; 63]; LedSetKeyValue 1 63;
           LedShow; Sleep 10000 ].
Proof. vm_compute. reflexivity. Qed.

(** The guard of the idle redraw, pass by pass: the idle layer view is
    rendered in a pass exactly when no playable key is held, some key was
    held in the previous pass, and the pass's clock reading exceeds
    [last_display_update] by more than the redraw interval; the pass
    then records its time. The guard is evaluated in the pass that
    detects the release and in no later one. *)
Lemma idle_redraw_rule (r : reading) (st : state) (log : list event) :
  wf st →
  ∃ m st' evs,
    KeyMatrix.scan (matrix_in r) (matrix st) = Some m ∧
    loop_iteration r (st, log) = Some (st', log ++ evs) ∧
    prev_pressed_keys st' = held_keys m ∧
    (redraws r st (held_keys m) →
       idle_renders evs = [DisplayShowLayer current_layer layer_name] ∧
       last_display_update st' = current_time r) ∧
    (¬ redraws r st (held_keys m) →
       idle_renders evs = [] ∧
       last_display_update st' = last_display_update st).
Proof.
  intros Hwf.
  destruct (loop_iteration_spec r st log Hwf)
    as (m & enc & st' & pre & idle & adj & Hscan & _ & Hrun & Hpre &
        _ & _ & Hprev & _ & Hyes & Hno & Hskip & Hadj).
  exists m, st', (pre ++ idle ++ adj ++ [Sleep 10000]).
  split; [done|]. split; [done|]. split; [done|].
  assert (idle_renders (pre ++ idle ++ adj ++ [Sleep 10000])
            = idle_renders idle) as ->.
  { rewrite !idle_renders_app.
    rewrite (idle_renders_none pre) by by apply quiet_no_render.
    rewrite (idle_renders_none adj), app_nil_r; [done|].
    destruct (decide (adjusts (actual_delta r st) (held_keys m)))
      as [Ha|Ha].
    - destruct (Hadj Ha) as [-> _]. apply Forall_app. split.
      + apply keys_events_no_render.
      + by repeat constructor.
    - destruct (Hskip Ha) as [-> _]. constructor. }
  split.
  - intros Hr. by destruct (Hyes Hr) as [-> ->].
  - intros Hr. by destruct (Hno Hr) as [-> ->].
Qed.

(** C7. The code does not do what the claim, and its own comment on
    the idle redraw ("keys released and none pressed: back to the layer
    screen"), say. On [Examples.double_tap] the first release renders
    the idle view, at 1.05 s (the second render of it, after the one
    that ends start-up). The second release, at 1.14 s, leaves no
    key held after a pass with key 0 held; it comes 90 ms after that
    render, so the pass renders nothing. The passes that follow, at
    1.30 s and 2.00 s and with no further press, find the previous
    pressed set empty and render nothing either: 860 ms after the
    release the display still shows the status screen of the second
    press. *)
Theorem double_tap_leaves_status_screen :
  ∃ s3 s4 s6,
    main_loop (take 3 Examples.double_tap) (startup true) = Some s3 ∧
    prev_pressed_keys s3.1 = [0%nat] ∧
    last_display_update s3.1 = 1050000 ∧
    length (idle_renders s3.2) = 2%nat ∧
    loop_iteration (Dispatch.pass 1140000 [] true true) (s3.1, [])
      = Some s4 ∧
    s4.2 = [MidiWrite [0x80; 60; 0]; Sleep 10000] ∧
    prev_pressed_keys s4.1 = [] ∧
    MIDINote.active_notes (midi_note s4.1) = ∅ ∧
    main_loop (drop 4 Examples.double_tap) (s4.1, []) = Some s6 ∧
    s6.2 = [Sleep 10000; Sleep 10000] ∧
    prev_pressed_keys s6.1 = [] ∧
    idle_renders (s4.2 ++ s6.2) = [] ∧
    last (display_calls (s3.2 ++ s4.2 ++ s6.2)) =
      Some (DisplayShowFullStatus 1 "Default" "Cutoff" 64 1 1).
Proof.
  eexists _, _, _.
  split; [vm_compute; reflexivity|].
  split; [reflexivity|]. split; [reflexivity|]. split; [reflexivity|].
  split; [vm_compute; reflexivity|].
  split; [reflexivity|]. split; [reflexivity|]. split; [reflexivity|].
  split; [vm_compute; reflexivity|].
  split; [reflexivity|]. split; [reflexivity|]. split; [reflexivity|].
  vm_compute. reflexivity.
Qed.

(** At a saturated internal value an edge in the saturating direction
    yields an actual delta of 0. *)
Lemma saturated_delta r st :
  wf st →
  Decode.falling (encoder_in r) (EncoderWithValue.encoder (encoder st)) →
  (EncoderWithValue.value (encoder st) = 127 ∧
     RotaryEncoder.dt (encoder_in r) = true) ∨
  (EncoderWithValue.value (encoder st) = 0 ∧
     RotaryEncoder.dt (encoder_in r) = false) →
  actual_delta r st = 0 ∧
  EncoderWithValue.value
      (EncoderWithValue.update (encoder_in r) (encoder st)).2
    = EncoderWithValue.value (encoder st).
Proof.
  intros (_ & _ & _ & Hmin & Hmax) Hfall Hsat. unfold actual_delta.
  rewrite EncoderWithValueFacts.update_result,
    EncoderWithValueFacts.update_value.
  unfold Decode.raw_delta.
  rewrite RotaryEncoderFacts.update_delta, Hmin, Hmax.
  destruct (decide (Decode.falling (encoder_in r)
                      (EncoderWithValue.encoder (encoder st)))); [|done].
  unfold clamp.
  destruct Hsat as [[-> ->] | [-> ->]]; repeat case_decide; lia.
Qed.

(** C10. The loop takes its delta from one [EncoderWithValue], created
    with value 64 and range [0,127], whose value is clamped on its own.
    When that value is 127 and the encoder makes a clockwise step, or it
    is 0 and the step is counter-clockwise, the actual delta of the pass
    is 0: the pass leaves every stored CC value as it was and writes no
    Control-Change, whatever keys are held and whatever their values. *)
Theorem saturated_encoder_blocks_keys (r : reading) (st : state)
    (log : list event) :
  wf st →
  Decode.falling (encoder_in r) (EncoderWithValue.encoder (encoder st)) →
  (EncoderWithValue.value (encoder st) = 127 ∧
     RotaryEncoder.dt (encoder_in r) = true) ∨
  (EncoderWithValue.value (encoder st) = 0 ∧
     RotaryEncoder.dt (encoder_in r) = false) →
  (∀ clk0, encoder (startup clk0).1 =
             EncoderWithValue.init clk0 64 0 127 false) ∧
  actual_delta r st = 0 ∧
  ∃ st' evs,
    loop_iteration r (st, log) = Some (st', log ++ evs) ∧
    EncoderWithValue.value (encoder st')
      = EncoderWithValue.value (encoder st) ∧
    key_cc_values st' = key_cc_values st ∧
    Forall (λ e, is_control_change e = false) evs.
Proof.
  intros Hwf Hfall Hsat. split; [done|].
  destruct (saturated_delta r st Hwf Hfall Hsat) as [Hdelta Hvalue].
  split; [done|].
  destruct (loop_iteration_spec r st log Hwf)
    as (m & enc & st' & pre & idle & adj & _ & Hupd & Hrun & Hpre &
        _ & Henc & _ & _ & Hyes & Hno & Hskip & _).
  destruct Hskip as [-> Hcc]; [rewrite Hdelta; by intros [? _]|].
  exists st', (pre ++ idle ++ [] ++ [Sleep 10000]).
  split; [done|]. rewrite Hupd in Hvalue. simpl in Hvalue.
  split; [by rewrite Henc|]. split; [done|].
  apply Forall_app. split; [by apply quiet_no_control_change|].
  apply Forall_app. split; [|by repeat constructor].
  destruct (decide (redraws r st (held_keys m))) as [Hr|Hr].
  - destruct (Hyes Hr) as [-> _]. by repeat constructor.
  - destruct (Hno Hr) as [-> _]. constructor.
Qed.

Lemma saturated_encoder_blocks_keys_witness :
  ∃ st log,
    main_loop (Examples.clicks 63) (startup true) = Some (st, log) ∧
    wf st ∧
    Decode.falling (encoder_in Examples.hold_and_turn)
                   (EncoderWithValue.encoder (encoder st)) ∧
    EncoderWithValue.value (encoder st) = 127 ∧
    key_cc_values st !! 0%nat = Some 64 ∧
    actual_delta Examples.hold_and_turn st = 0 ∧
    ∃ st' evs,
      loop_iteration Examples.hold_and_turn (st, log)
        = Some (st', log ++ evs) ∧
      EncoderWithValue.value (encoder st')
        = EncoderWithValue.value (encoder st) ∧
      key_cc_values st' = key_cc_values st ∧
      Forall (λ e, is_control_change e = false) evs.
Proof.
  destruct (main_loop_total (Examples.clicks 63) (startup true).1
              (startup true).2 (startup_wf true))
    as (st & evs & Hrun & Hwf).
  exists st, ((startup true).2 ++ evs).
  assert (Decode.falling (encoder_in Examples.hold_and_turn)
                         (EncoderWithValue.encoder (encoder st)) ∧
          EncoderWithValue.value (encoder st) = 127 ∧
          key_cc_values st !! 0%nat = Some 64) as (Hfall & Hval & Hcc).
  { assert (fst <$> main_loop (Examples.clicks 63)
                      ((startup true).1, (startup true).2) = Some st) as Hst
      by (by rewrite Hrun).
    vm_compute in Hst. injection Hst as <-.
    by repeat split. }
  split; [exact Hrun|]. split; [exact Hwf|]. split; [exact Hfall|].
  split; [exact Hval|]. split; [exact Hcc|].
  exact (proj2 (saturated_encoder_blocks_keys Examples.hold_and_turn st
                  ((startup true).2 ++ evs) Hwf Hfall
                  (or_introl (conj Hval eq_refl)))).
Defined.

(** *** Shutdown *)

Lemma mapM_total {A B} (f : A → option B) (g : A → B) l :
  (∀ x, f x = Some (g x)) → mapM f l = Some (g <$> l).
Proof.
  intros Hf. apply mapM_Some. induction l; constructor; auto.
Qed.

Lemma stop_all_spec n :
  MIDINote.stop_all (Some midi_channel) n =
    Some ({| MIDINote.midi := MIDINote.midi n;
             MIDINote.active_notes := ∅ |},
          (λ note, [0x80; clamp 0 127 note; 0])
            <$> elements (MIDINote.active_notes n)).
Proof.
  unfold MIDINote.stop_all.
  rewrite (mapM_total _ (λ note, [0x80; clamp 0 127 note; 0])); [done|].
  intros note. rewrite MIDIOutputFacts.note_off_bytes
    by apply MIDIOutputFacts.explicit_channel_range.
  reflexivity.
Qed.

Lemma deinit_spec m :
  MidiWrite <$> default [] (MIDIOutput.deinit m) = sweep ∧
  is_Some (MIDIOutput.deinit m).
Proof. split; [reflexivity | by eexists]. Qed.

Lemma release_order_writes {A} (g : A → list Z) (l : list A) :
  release_order ((λ x, MidiWrite (g x)) <$> l) = [].
Proof. by induction l. Qed.

(** C6 (amended). The interrupt handler cannot raise. It shows the
    shutting-down message, writes one Note-Off for every note in the
    tracker's active set and empties the set, blinks the LEDs three times
    and clears them, and then calls [deinit] on the scanner, the encoder,
    the LEDs, the MIDI output (which sends All Notes Off on channels 1 to
    16) and the display, in this order: the order of acquisition, except
    that the display, acquired first, is released last. *)
Theorem shutdown_sequence (st : state) (log : list event) :
  ∃ st' stops,
    shutdown (st, log) =
      Some (st', log ++
        [DisplayShowMessage ("Shutting" +:+ newline +:+ "down...") None] ++
        stops ++ blink ++
        [LedClear; Deinit Matrix; Deinit Encoder; Deinit Leds; Deinit Midi]
        ++ sweep ++ [Deinit Display]) ∧
    stops = (λ note, MidiWrite [0x80; clamp 0 127 note; 0])
              <$> elements (MIDINote.active_notes (midi_note st)) ∧
    (∀ note, note ∈ MIDINote.active_notes (midi_note st) →
             MidiWrite [0x80; clamp 0 127 note; 0] ∈ stops) ∧
    MIDINote.active_notes (midi_note st') = ∅ ∧
    release_order
      ([DisplayShowMessage ("Shutting" +:+ newline +:+ "down...") None] ++
       stops ++ blink ++
       [LedClear; Deinit Matrix; Deinit Encoder; Deinit Leds; Deinit Midi]
       ++ sweep ++ [Deinit Display])
      = [Matrix; Encoder; Leds; Midi; Display].
Proof.
  exists (set_midi_note {| MIDINote.midi := MIDINote.midi (midi_note st);
                           MIDINote.active_notes := ∅ |} st),
    ((λ note, MidiWrite [0x80; clamp 0 127 note; 0])
       <$> elements (MIDINote.active_notes (midi_note st))).
  unfold shutdown. rewrite stop_all_spec.
  cbn [mbind option_bind].
  destruct (deinit_spec (midi (set_midi_note
              {| MIDINote.midi := MIDINote.midi (midi_note st);
                 MIDINote.active_notes := ∅ |} st))) as [Hsweep [msgs Hm]].
  rewrite Hm in Hsweep |- *. simpl in Hsweep.
  cbn [mbind option_bind]. rewrite Hsweep, <- list_fmap_compose.
  split; [reflexivity|]. split; [reflexivity|]. split.
  - intros note Hnote.
    apply (list_elem_of_fmap_2
             (λ note, MidiWrite [0x80; clamp 0 127 note; 0])).
    by apply elem_of_elements.
  - split; [reflexivity|].
    unfold release_order. rewrite !omap_app.
    change (omap released ?l) with (release_order l).
    by rewrite (release_order_writes (λ note, [0x80; clamp 0 127 note; 0])).
Qed.

(** C6, as stated, fails: the collaborators are acquired in the order
    display, scanner, encoder, LEDs, MIDI and released in the order
    scanner, encoder, LEDs, MIDI, display, which is not the reverse. *)
Lemma release_order_not_reversed :
  ∃ s, program true [] = Some s ∧
       acquisition_order s.2 = [Display; Matrix; Encoder; Leds; Midi] ∧
       release_order s.2 = [Matrix; Encoder; Leds; Midi; Display] ∧
       release_order s.2 ≠ reverse (acquisition_order s.2).
Proof.
  eexists. split; [vm_compute; reflexivity|].
  split; [reflexivity|]. split; [reflexivity|]. vm_compute. congruence.
Qed.
End MainFacts.

(** * Further properties of the code *)

(** The set solver clears hypotheses it has already consumed. *)
#[local] Set Warnings "-clear-no-such-hyp".

(** ** The scanner: idempotence, lock-out and the accessors *)

Module KeyMatrixMore.
Import KeyMatrix Debounce KeyMatrixFacts.

(** A scanner state is determined by its switches. *)
Lemma switches_ext m1 m2 :
  wf m1 → wf m2 →
  (∀ k, (k < NUM_KEYS)%nat → switch m2 k = switch m1 k) → m2 = m1.
Proof.
  intros [Ha1 Hb1] [Ha2 Hb2] Hsw.
  assert (∀ k, key_states m2 !! k = key_states m1 !! k ∧
               last_change_time m2 !! k = last_change_time m1 !! k) as Heq.
  { intros k. destruct (decide (k < NUM_KEYS)%nat) as [Hk|Hk].
    - specialize (Hsw k Hk). unfold switch in Hsw.
      destruct (lookup_lt_is_Some_2 (key_states m1) k) as [a1 E1]; [lia|].
      destruct (lookup_lt_is_Some_2 (key_states m2) k) as [a2 E2]; [lia|].
      destruct (lookup_lt_is_Some_2 (last_change_time m1) k) as [b1 F1]; [lia|].
      destruct (lookup_lt_is_Some_2 (last_change_time m2) k) as [b2 F2]; [lia|].
      rewrite E1, E2, F1, F2 in Hsw |- *. simpl in Hsw.
      by injection Hsw as -> ->.
    - rewrite !lookup_ge_None_2 by lia. done. }
  destruct m1 as [ks1 lc1], m2 as [ks2 lc2]. simpl in *.
  f_equal; apply list_eq; intros k; apply Heq.
Qed.

Lemma debounce_idem now raw sw :
  debounce now raw (debounce now raw sw) = debounce now raw sw.
Proof.
  unfold debounce. destruct sw as [st last]. simpl.
  repeat case_decide; simpl in *; try done; exfalso; naive_solver.
Qed.

(** X1. Scanning twice with the same reading (same pin levels, same clock
    value) changes nothing the second time: whatever the first scan
    committed, the second scan returns the state it was given. *)
Theorem scan_same_reading_twice (r : reading) (m m1 : t) :
  wf m → scan r m = Some m1 → scan r m1 = Some m1.
Proof.
  intros Hwf Hscan.
  destruct (scan_total r m Hwf) as (m1' & Hscan' & Hwf1).
  rewrite Hscan in Hscan'. injection Hscan' as <-.
  destruct (scan_total r m1 Hwf1) as (m2 & Hscan2 & Hwf2).
  rewrite Hscan2. f_equal. apply switches_ext; [done..|].
  intros k Hk.
  destruct (scan_switch r m k Hwf Hk) as (x & raw & Hx & _ & Hraw & Hsw).
  rewrite Hscan in Hx. injection Hx as <-.
  destruct (scan_switch r m1 k Hwf1 Hk) as (y & raw' & Hy & _ & Hraw' & Hsw').
  rewrite Hscan2 in Hy. injection Hy as <-.
  rewrite Hraw in Hraw'. injection Hraw' as <-.
  rewrite Hsw', Hsw. destruct (switch m k) as [sw|]; [|done]. simpl.
  by rewrite debounce_idem.
Qed.

Lemma scan_same_reading_twice_witness :
  wf init ∧
  scan (Debounce.reading_of 1010000 [0%nat]) init
    = Some (Examples.key0 true 1010000) ∧
  scan (Debounce.reading_of 1010000 [0%nat]) (Examples.key0 true 1010000)
    = Some (Examples.key0 true 1010000).
Proof.
  assert (scan (Debounce.reading_of 1010000 [0%nat]) init
            = Some (Examples.key0 true 1010000)) as Hscan
    by (vm_compute; reflexivity).
  split; [exact scanner_init_wf|]. split; [exact Hscan|].
  exact (scan_same_reading_twice _ init _ scanner_init_wf Hscan).
Defined.

(** X2. While every switch had its last committed change at most 20 ms
    ago, a scan changes nothing, whatever the pins read. Since
    [last_change_time] starts at 0, this covers every scan made up to
    20 ms on the clock after construction. *)
Theorem scan_during_lockout (r : reading) (m : t) :
  wf m →
  Forall (λ last, current_time r - last ≤ DEBOUNCE_TIME) (last_change_time m) →
  scan r m = Some m.
Proof.
  intros Hwf Hall.
  destruct (scan_total r m Hwf) as (m1 & Hscan & Hwf1).
  rewrite Hscan. f_equal. apply switches_ext; [done..|].
  intros k Hk.
  destruct (scan_switch r m k Hwf Hk) as (x & raw & Hx & _ & Hraw & Hsw).
  rewrite Hscan in Hx. injection Hx as <-. rewrite Hsw.
  destruct (switch m k) as [[st last]|] eqn:Hk'; [|done]. simpl.
  unfold debounce. rewrite decide_False; [done|]. simpl. intros [_ Hgt].
  unfold switch in Hk'. destruct (key_states m !! k); [|done]. simpl in Hk'.
  destruct (last_change_time m !! k) as [l|] eqn:Hl; [|done].
  simpl in Hk'. injection Hk' as _ ->.
  apply (proj1 (Forall_lookup _ _) Hall k last) in Hl. lia.
Qed.

Lemma scan_during_lockout_witness :
  wf init ∧
  Forall (λ last,
            current_time (Debounce.reading_of 20000 [0%nat; 5%nat]) - last
              ≤ DEBOUNCE_TIME)
         (last_change_time init) ∧
  scan (Debounce.reading_of 20000 [0%nat; 5%nat]) init = Some init.
Proof.
  assert (Forall (λ last,
            current_time (Debounce.reading_of 20000 [0%nat; 5%nat]) - last
              ≤ DEBOUNCE_TIME)
            (last_change_time init)) as Hall
    by (repeat constructor; vm_compute; discriminate).
  split; [exact scanner_init_wf|]. split; [exact Hall|].
  exact (scan_during_lockout _ init scanner_init_wf Hall).
Defined.

(** X3. A reading that persists is registered: if two consecutive scans
    more than 20 ms apart both read level [b] on switch [k], and the
    switch's last change is not later than the first of them, then after
    the second scan the stable state of [k] is [b]. *)
Theorem steady_reading_registered (r1 r2 : reading) (m m1 m2 : t) (k : nat)
    (b old : bool) (last : Z) :
  wf m → (k < NUM_KEYS)%nat →
  scan r1 m = Some m1 → scan r2 m1 = Some m2 →
  raw_pressed r1 k = Some b → raw_pressed r2 k = Some b →
  switch m k = Some (old, last) → last ≤ current_time r1 →
  current_time r2 - current_time r1 > DEBOUNCE_TIME →
  key_states m2 !! k = Some b.
Proof.
  intros Hwf Hk Hs1 Hs2 Hr1 Hr2 Hsw Hlast Hgap.
  destruct (scan_total r1 m Hwf) as (x & Hx & Hwf1).
  rewrite Hs1 in Hx. injection Hx as <-.
  destruct (scan_switch r1 m k Hwf Hk) as (x & raw & Hx & _ & Hraw & Hsw1).
  rewrite Hs1 in Hx. injection Hx as <-.
  rewrite Hr1 in Hraw. injection Hraw as <-.
  destruct (scan_switch r2 m1 k Hwf1 Hk) as (y & raw & Hy & _ & Hraw & Hsw2).
  rewrite Hs2 in Hy. injection Hy as <-.
  rewrite Hr2 in Hraw. injection Hraw as <-.
  rewrite Hsw in Hsw1. simpl in Hsw1. rewrite Hsw1 in Hsw2. simpl in Hsw2.
  assert (∃ t, switch m2 k = Some (b, t)) as [t Ht].
  { rewrite Hsw2. unfold debounce. simpl.
    destruct (decide (b = old)) as [->|Hne].
    - rewrite (decide_False (P:=old ≠ old ∧ _)) by (by intros [? _]).
      simpl. rewrite decide_False by (by intros [? _]). by eexists.
    - destruct (decide (current_time r1 - last > DEBOUNCE_TIME)) as [Hgt|Hle].
      + rewrite (decide_True (P:=b ≠ old ∧ _)) by done. simpl.
        rewrite decide_False by (by intros [? _]). by eexists.
      + rewrite (decide_False (P:=b ≠ old ∧ current_time r1 - last > _))
          by (by intros [_ ?]).
        simpl. rewrite decide_True by (split; [done|lia]). by eexists. }
  unfold switch in Ht. destruct (key_states m2 !! k); [|done]. simpl in Ht.
  destruct (last_change_time m2 !! k); [|done]. simpl in Ht. congruence.
Qed.

Lemma steady_reading_registered_witness :
  wf (Examples.key0 false 990000) ∧ (0 < NUM_KEYS)%nat ∧
  scan (Debounce.reading_of 1000000 [0%nat]) (Examples.key0 false 990000)
    = Some (Examples.key0 false 990000) ∧
  scan (Debounce.reading_of 1030000 [0%nat]) (Examples.key0 false 990000)
    = Some (Examples.key0 true 1030000) ∧
  raw_pressed (Debounce.reading_of 1000000 [0%nat]) 0 = Some true ∧
  raw_pressed (Debounce.reading_of 1030000 [0%nat]) 0 = Some true ∧
  switch (Examples.key0 false 990000) 0 = Some (false, 990000) ∧
  990000 ≤ current_time (Debounce.reading_of 1000000 [0%nat]) ∧
  current_time (Debounce.reading_of 1030000 [0%nat])
    - current_time (Debounce.reading_of 1000000 [0%nat]) > DEBOUNCE_TIME ∧
  key_states (Examples.key0 true 1030000) !! 0%nat = Some true.
Proof.
  assert (wf (Examples.key0 false 990000)) as Hwf by (by split).
  assert ((0 < NUM_KEYS)%nat) as Hk by (unfold NUM_KEYS; lia).
  assert (scan (Debounce.reading_of 1000000 [0%nat])
               (Examples.key0 false 990000)
            = Some (Examples.key0 false 990000)) as Hs1
    by (vm_compute; reflexivity).
  assert (scan (Debounce.reading_of 1030000 [0%nat])
               (Examples.key0 false 990000)
            = Some (Examples.key0 true 1030000)) as Hs2
    by (vm_compute; reflexivity).
  assert (raw_pressed (Debounce.reading_of 1000000 [0%nat]) 0 = Some true)
    as Hr1 by (vm_compute; reflexivity).
  assert (raw_pressed (Debounce.reading_of 1030000 [0%nat]) 0 = Some true)
    as Hr2 by (vm_compute; reflexivity).
  assert (switch (Examples.key0 false 990000) 0 = Some (false, 990000))
    as Hsw by reflexivity.
  assert (990000 ≤ current_time (Debounce.reading_of 1000000 [0%nat]))
    as Hlast by (simpl; lia).
  assert (current_time (Debounce.reading_of 1030000 [0%nat])
          - current_time (Debounce.reading_of 1000000 [0%nat])
          > DEBOUNCE_TIME) as Hgap by (unfold DEBOUNCE_TIME; simpl; lia).
  repeat (split; [assumption|]).
  exact (steady_reading_registered _ _ _ _ _ 0%nat true false 990000
           Hwf Hk Hs1 Hs2 Hr1 Hr2 Hsw Hlast Hgap).
Defined.

Lemma filter_ext_elem {A} (P Q : A → Prop) `{!∀ x, Decision (P x)}
    `{!∀ x, Decision (Q x)} (l : list A) :
  (∀ x, x ∈ l → (P x ↔ Q x)) → filter P l = filter Q l.
Proof.
  induction l as [|x l IH]; intros Hext; [done|].
  rewrite !filter_cons, IH by (intros y Hy; apply Hext; by right).
  destruct (Hext x ltac:(left)) as [H1 H2].
  repeat case_decide; try done; tauto.
Qed.

Lemma count_pressed (ks : list bool) :
  foldl (λ acc (b : bool), acc + Z.b2z b) 0 ks =
    Z.of_nat (length (filter (λ i, ks !! i = Some true) (seq 0 (length ks)))).
Proof.
  induction ks as [|b ks IH] using rev_ind; [done|].
  rewrite foldl_app, length_app, Nat.add_1_r, seq_S, filter_app, length_app.
  simpl. rewrite IH.
  rewrite (filter_ext_elem (λ i, (ks ++ [b]) !! i = Some true)
             (λ i, ks !! i = Some true) (seq 0 (length ks))).
  2:{ intros i Hi%elem_of_seq. by rewrite lookup_app_l by lia. }
  rewrite filter_cons, filter_nil, list_lookup_middle by done.
  destruct b; case_decide; try done; simpl; lia.
Qed.

(** X4. The accessors agree: [get_pressed_keys] returns, in ascending
    order and without raising, the keys for which [is_pressed] answers
    true; [is_pressed] answers false for every key number outside 0..17,
    negative ones included; [get_key_count] is the length of that list. *)
Theorem pressed_accessors_agree (m : t) :
  wf m →
  ∃ l, get_pressed_keys m = Some l ∧
       StronglySorted lt l ∧
       (∀ k : Z, is_pressed m k =
                   Some (bool_decide (0 ≤ k ∧ Z.to_nat k ∈ l))) ∧
       get_key_count m = Z.of_nat (length l).
Proof.
  intros Hwf. pose proof Hwf as [Hlen _].
  rewrite (MainFacts.get_pressed_keys_spec m Hwf). eexists. split; [done|].
  split; [apply MainFacts.filter_sorted, MainFacts.seq_sorted|]. split.
  - intros k. unfold is_pressed. case_decide as Hk.
    + destruct (lookup_lt_is_Some_2 (key_states m) (Z.to_nat k)) as [b Hb];
        [lia|].
      rewrite Hb. f_equal. destruct b.
      * symmetry. apply bool_decide_eq_true. split; [lia|].
        apply list_elem_of_filter. split; [done|]. apply elem_of_seq. lia.
      * symmetry. apply bool_decide_eq_false.
        intros [_ [Hc _]%list_elem_of_filter]. congruence.
    + f_equal. symmetry. apply bool_decide_eq_false.
      intros [H0 [_ Hc%elem_of_seq]%list_elem_of_filter]. lia.
  - unfold get_key_count. rewrite count_pressed. by rewrite Hlen.
Qed.

Lemma pressed_accessors_agree_witness :
  wf (Examples.key0 true 1010000) ∧
  ∃ l, get_pressed_keys (Examples.key0 true 1010000) = Some l ∧
       StronglySorted lt l ∧
       (∀ k : Z, is_pressed (Examples.key0 true 1010000) k =
                   Some (bool_decide (0 ≤ k ∧ Z.to_nat k ∈ l))) ∧
       get_key_count (Examples.key0 true 1010000) = Z.of_nat (length l).
Proof.
  assert (wf (Examples.key0 true 1010000)) as Hwf by (by split).
  split; [exact Hwf|].
  exact (pressed_accessors_agree _ Hwf).
Defined.

End KeyMatrixMore.

(** ** The decoder and the clamped value: counting and bounds *)

Module EncoderMore.
Import RotaryEncoder Decode RotaryEncoderFacts.

(** X5. An edge is counted once: after any [update], a further [update]
    that reads the same CLK level returns 0 and leaves the position
    unchanged, whatever DT reads and however much time has passed. *)
Theorem level_counted_once (r : reading) (e : t) (dt' : bool) (now' : Z) :
  (update (mk_reading (clk r) dt' now') (update r e).2).1 = 0 ∧
  position (update (mk_reading (clk r) dt' now') (update r e).2).2
    = position (update r e).2.
Proof.
  assert (¬ falling (mk_reading (clk r) dt' now') (update r e).2) as Hnf.
  { unfold falling. rewrite update_last_clk. simpl.
    destruct (clk r); by intros []. }
  rewrite update_delta, update_position.
  rewrite !decide_False by done. split; [done|lia].
Qed.

(** X6. Along any run of [update] calls the position moves by the sum of
    the signs of the returned deltas (one unit per detent, accelerated or
    not); with acceleration disabled it moves by the sum of the deltas. *)
Theorem position_counts_detents (rs : list reading) (e : t) :
  position (Runs.decoder_updates rs e).2 - position e
    = Runs.total (Z.sgn <$> (Runs.decoder_updates rs e).1) ∧
  (acceleration_enabled e = false →
     Runs.total (Runs.decoder_updates rs e).1
       = position (Runs.decoder_updates rs e).2 - position e).
Proof.
  revert e. induction rs as [|r rs IH]; intros e.
  { simpl. unfold Runs.total. simpl. split; [lia|]. intros _. lia. }
  simpl.
  pose proof (update_delta r e) as Hd.
  pose proof (update_position r e) as Hp.
  destruct (update_flags r e) as [Ha _].
  destruct (update r e) as [d e1]. simpl in Hd, Hp, Ha.
  destruct (IH e1) as [IH1 IH2].
  destruct (Runs.decoder_updates rs e1) as [ds e2]. simpl in IH1, IH2 |- *.
  unfold Runs.total in *. simpl. split.
  - assert (Z.sgn d = if decide (falling r e)
                      then (if dt r then 1 else -1) else 0) as ->.
    { rewrite Hd. destruct (dt r); repeat case_decide; reflexivity. }
    change (list_fmap Z Z Z.sgn ds) with (Z.sgn <$> ds). lia.
  - intros Hacc. rewrite Ha in IH2. specialize (IH2 Hacc).
    assert (d = if decide (falling r e)
                then (if dt r then 1 else -1) else 0) as ->.
    { rewrite Hd. rewrite (decide_False (P:=fast r e)).
      - destruct (dt r); case_decide; reflexivity.
      - unfold fast. rewrite Hacc. by intros [? _]. }
    lia.
Qed.

(** X7. The acceleration window is measured from the last counted edge:
    polls that return 0 in between do not restart it. After a falling
    edge at [r1] and any number of polls returning 0, a falling edge at
    [r2] returns the direction, doubled exactly when acceleration is on
    and less than 50 ms separate [r2] from [r1]. *)
Theorem acceleration_window (r1 r2 : reading) (mid : list reading) (e : t) :
  falling r1 e →
  Forall (λ d, d = 0) (Runs.decoder_updates mid (update r1 e).2).1 →
  falling r2 (Runs.decoder_updates mid (update r1 e).2).2 →
  (update r2 (Runs.decoder_updates mid (update r1 e).2).2).1 =
    direction r2 *
    (if decide (acceleration_enabled e = true ∧
                current_time r2 - current_time r1 < ACCELERATION_THRESHOLD)
     then 2 else 1).
Proof.
  intros Hf1 Hmid Hf2.
  destruct (quiet_polls_keep_timer mid (update r1 e).2 Hmid) as [Ha Ht].
  destruct (update_flags r1 e) as [Ha1 Ht1].
  rewrite decide_True in Ht1 by done.
  rewrite update_delta, decide_True by done. unfold direction.
  f_equal. apply decide_ext. unfold fast. by rewrite Ha, Ht, Ha1, Ht1.
Qed.

Lemma acceleration_window_witness :
  falling Examples.first_edge Examples.resting_decoder ∧
  Forall (λ d, d = 0)
    (Runs.decoder_updates [Examples.rising_edge]
       (update Examples.first_edge Examples.resting_decoder).2).1 ∧
  falling Examples.second_edge
    (Runs.decoder_updates [Examples.rising_edge]
       (update Examples.first_edge Examples.resting_decoder).2).2 ∧
  (update Examples.second_edge
     (Runs.decoder_updates [Examples.rising_edge]
        (update Examples.first_edge Examples.resting_decoder).2).2).1 =
    direction Examples.second_edge *
    (if decide (acceleration_enabled Examples.resting_decoder = true ∧
                current_time Examples.second_edge
                  - current_time Examples.first_edge
                  < ACCELERATION_THRESHOLD)
     then 2 else 1).
Proof.
  assert (falling Examples.first_edge Examples.resting_decoder) as H1
    by (by vm_compute).
  assert (Forall (λ d, d = 0)
            (Runs.decoder_updates [Examples.rising_edge]
               (update Examples.first_edge Examples.resting_decoder).2).1)
    as Hmid by (by repeat constructor).
  assert (falling Examples.second_edge
            (Runs.decoder_updates [Examples.rising_edge]
               (update Examples.first_edge Examples.resting_decoder).2).2)
    as H2 by (by vm_compute).
  split; [exact H1|]. split; [exact Hmid|]. split; [exact H2|].
  exact (acceleration_window _ _ _ _ H1 Hmid H2).
Defined.

Lemma update_set_position r e p :
  update r (set_position p e) =
    ((update r e).1,
     set_position (p + (position (update r e).2 - position e))
                  (update r e).2).
Proof.
  destruct e as [q [] [] t], r as [[] [] now];
    unfold update, set_position, set_last_rotation_time, set_last_clk_state;
    simpl; repeat case_decide; simpl; do 2 f_equal; lia.
Qed.

(** X8. [set_position] (and so [reset_position]) never disturbs decoding:
    the deltas returned by any later run of [update] calls are the
    same, and the position is the new origin plus the movement. *)
Theorem position_is_a_counter (rs : list reading) (e : t) (p : Z) :
  Runs.decoder_updates rs (set_position p e) =
    ((Runs.decoder_updates rs e).1,
     set_position (p + (position (Runs.decoder_updates rs e).2 - position e))
                  (Runs.decoder_updates rs e).2).
Proof.
  revert e p. induction rs as [|r rs IH]; intros e p.
  { simpl. do 2 f_equal. lia. }
  cbn [Runs.decoder_updates]. rewrite update_set_position.
  destruct (update r e) as [d e1] eqn:Hupd. cbn [fst snd].
  rewrite IH. destruct (Runs.decoder_updates rs e1) as [ds e2]. cbn [fst snd].
  do 2 f_equal. lia.
Qed.

End EncoderMore.

Module ValueMore.
Import EncoderWithValue Decode EncoderWithValueFacts.

Lemma update_keeps_range r w : in_range w → in_range (update r w).2.
Proof.
  unfold in_range. intros Hin.
  destruct (update_range r w) as [-> ->].
  rewrite update_value. unfold clamp. case_decide; lia.
Qed.

(** X9. The value stays within the bounds under every sequence of
    [update], [set_value], [set_range] and [enable_acceleration] calls,
    provided each [set_range] is given its bounds in order. *)
Theorem calls_keep_range (cs : list call) (w : t) :
  in_range w → Forall ordered cs → in_range (apply_calls cs w).
Proof.
  revert w. induction cs as [|c cs IH]; intros w Hin Hord; [done|].
  apply Forall_cons in Hord as [Hc Hord]. simpl. apply IH; [|done].
  destruct c as [r|v|lo hi|b]; simpl in *.
  - by apply update_keeps_range.
  - unfold in_range in *. simpl. lia.
  - unfold in_range in *. simpl. lia.
  - done.
Qed.

Lemma calls_keep_range_witness :
  in_range Examples.near_top ∧ Forall ordered Examples.reconfigure ∧
  in_range (apply_calls Examples.reconfigure Examples.near_top).
Proof.
  assert (in_range Examples.near_top) as Hin by (by vm_compute).
  assert (Forall ordered Examples.reconfigure) as Hord
    by (repeat constructor; by vm_compute).
  split; [exact Hin|]. split; [exact Hord|].
  exact (calls_keep_range _ _ Hin Hord).
Defined.

(** X10. [set_value] then [get_value]: with the bounds in order, the value
    read back is within the bounds; it is the value set exactly when
    that was within the bounds, the lower bound when it was below and
    the upper bound when it was above. *)
Theorem set_then_get (v : Z) (w : t) :
  min_value w ≤ max_value w →
  in_range (set_value v w) ∧
  (get_value (set_value v w) = v ↔ min_value w ≤ v ≤ max_value w) ∧
  (v < min_value w → get_value (set_value v w) = min_value w) ∧
  (max_value w < v → get_value (set_value v w) = max_value w).
Proof.
  intros Hle. unfold in_range, get_value, set_value. simpl.
  repeat split; intros; lia.
Qed.

Lemma set_then_get_witness :
  min_value Examples.near_top ≤ max_value Examples.near_top ∧
  in_range (set_value 500 Examples.near_top) ∧
  (get_value (set_value 500 Examples.near_top) = 500
     ↔ min_value Examples.near_top ≤ 500 ≤ max_value Examples.near_top) ∧
  (500 < min_value Examples.near_top →
     get_value (set_value 500 Examples.near_top)
       = min_value Examples.near_top) ∧
  (max_value Examples.near_top < 500 →
     get_value (set_value 500 Examples.near_top)
       = max_value Examples.near_top).
Proof.
  assert (min_value Examples.near_top ≤ max_value Examples.near_top)
    as Hord by (simpl; lia).
  split; [exact Hord|].
  exact (set_then_get 500 Examples.near_top Hord).
Defined.

(** X11. [set_range] does not check the order of its bounds. With the upper
    bound below the lower one the value becomes the lower bound, and
    from then on every [update] returns 0 and leaves it there, however
    the encoder is turned. *)
Theorem inverted_range_pins_value (rs : list RotaryEncoder.reading)
    (lo hi : Z) (w : t) :
  hi < lo →
  value (set_range lo hi w) = lo ∧
  Forall (λ d, d = 0) (Runs.value_updates rs (set_range lo hi w)).1 ∧
  value (Runs.value_updates rs (set_range lo hi w)).2 = lo.
Proof.
  intros Hinv. split; [simpl; lia|].
  assert (∀ w0, min_value w0 = lo → max_value w0 = hi → value w0 = lo →
            Forall (λ d, d = 0) (Runs.value_updates rs w0).1 ∧
            value (Runs.value_updates rs w0).2 = lo) as Hgen.
  { induction rs as [|r rs IH]; intros w0 Hmin Hmax Hval; [by split|].
    simpl.
    pose proof (update_value r w0) as Hv.
    pose proof (update_result r w0) as Hd.
    destruct (update_range r w0) as [Hmin' Hmax'].
    destruct (update r w0) as [d w1]. simpl in Hv, Hd, Hmin', Hmax'.
    assert (value w1 = lo) as Hval1.
    { rewrite Hv, Hmin, Hmax, Hval. unfold clamp. case_decide; lia. }
    destruct (IH w1) as [IHz IHv]; [congruence..|].
    destruct (Runs.value_updates rs w1) as [ds w2]. simpl in *.
    split; [|done]. constructor; [lia|done]. }
  apply Hgen; simpl; lia.
Qed.

Lemma inverted_range_pins_value_witness :
  10 < 100 ∧
  value (set_range 100 10 Examples.near_top) = 100 ∧
  Forall (λ d, d = 0)
    (Runs.value_updates [Examples.quick_clockwise]
       (set_range 100 10 Examples.near_top)).1 ∧
  value (Runs.value_updates [Examples.quick_clockwise]
           (set_range 100 10 Examples.near_top)).2 = 100.
Proof.
  assert (10 < 100) as Hlt by lia.
  split; [exact Hlt|].
  exact (inverted_range_pins_value [Examples.quick_clockwise] 100 10
           Examples.near_top Hlt).
Defined.

(** X12. With the value within its bounds, the change returned by
    [update] lies between 0 and the decoder's delta: clamping can
    shorten a step, never lengthen or reverse it. *)
Theorem actual_within_raw (r : RotaryEncoder.reading) (w : t) :
  in_range w →
  (0 ≤ raw_delta r w → 0 ≤ (update r w).1 ≤ raw_delta r w) ∧
  (raw_delta r w ≤ 0 → raw_delta r w ≤ (update r w).1 ≤ 0).
Proof.
  unfold in_range. intros Hin.
  rewrite update_result, update_value. unfold clamp.
  case_decide; split; intros; lia.
Qed.

Lemma actual_within_raw_witness :
  in_range Examples.near_top ∧
  (0 ≤ raw_delta Examples.quick_clockwise Examples.near_top →
     0 ≤ (update Examples.quick_clockwise Examples.near_top).1
       ≤ raw_delta Examples.quick_clockwise Examples.near_top) ∧
  (raw_delta Examples.quick_clockwise Examples.near_top ≤ 0 →
     raw_delta Examples.quick_clockwise Examples.near_top
       ≤ (update Examples.quick_clockwise Examples.near_top).1 ≤ 0).
Proof.
  assert (in_range Examples.near_top) as Hin by (by vm_compute).
  split; [exact Hin|].
  exact (actual_within_raw Examples.quick_clockwise Examples.near_top Hin).
Defined.

End ValueMore.

(** ** The MIDI encoder and the note tracker: round trips *)

Module MidiMore.
Import MIDIOutput Encoding MIDIOutputFacts.

Lemma decode_lor kind ch :
  kind ∈ [NOTE_OFF; NOTE_ON; CONTROL_CHANGE; PROGRAM_CHANGE] →
  1 ≤ ch ≤ 16 → decode_status (Z.lor kind (ch - 1)) = (kind, ch).
Proof.
  intros Hk Hch.
  assert (∃ n : nat, (n < 16)%nat ∧ ch = Z.of_nat n + 1) as (n & Hn & ->).
  { exists (Z.to_nat (ch - 1)). lia. }
  replace (Z.of_nat n + 1 - 1) with (Z.of_nat n) by lia.
  repeat (apply elem_of_cons in Hk as [->|Hk]);
    [..|by apply elem_of_nil in Hk];
    do 16 (destruct n as [|n]; [reflexivity|]); lia.
Qed.

Lemma data_bytes_encode args :
  Forall2 (λ arg byte, 0 ≤ byte < 128 ∧ (0 ≤ arg ≤ 127 → byte = arg))
          args (clamp 0 127 <$> args).
Proof.
  induction args as [|a args IH]; constructor; [|done].
  unfold clamp. lia.
Qed.

Lemma channel_message_encodes kind ch args :
  kind ∈ [NOTE_OFF; NOTE_ON; CONTROL_CHANGE; PROGRAM_CHANGE] →
  1 ≤ ch ≤ 16 →
  encodes kind ch args (Z.lor kind (ch - 1) :: (clamp 0 127 <$> args)).
Proof.
  intros Hk Hch. eexists _, _. split; [done|].
  split; [by apply decode_lor | apply data_bytes_encode].
Qed.

(** X13. Every message written reads back: for all integer arguments the
    four senders write a status byte whose high nibble is the message
    type and whose low nibble plus one is the channel selected by
    [_get_channel], followed by one 7-bit data byte per argument, equal
    to the argument whenever that was in 0..127. *)
Theorem messages_decode (m : t) (channel : option Z)
    (note velocity controller value program : Z) :
  wf m →
  ∃ on off cc pc,
    note_on m note velocity channel = Some on ∧
    note_off m note velocity channel = Some off ∧
    control_change m controller value channel = Some cc ∧
    program_change m program channel = Some pc ∧
    encodes NOTE_ON (_get_channel m channel) [note; velocity] on ∧
    encodes NOTE_OFF (_get_channel m channel) [note; velocity] off ∧
    encodes CONTROL_CHANGE (_get_channel m channel) [controller; value] cc ∧
    encodes PROGRAM_CHANGE (_get_channel m channel) [program] pc.
Proof.
  intros Hwf. pose proof (_get_channel_range m channel Hwf) as Hch.
  rewrite note_on_bytes, note_off_bytes, control_change_bytes,
    program_change_bytes by done.
  eexists _, _, _, _. do 4 (split; [reflexivity|]).
  split; [|split; [|split]].
  - apply (channel_message_encodes NOTE_ON _ [note; velocity]); [|done].
    rewrite !elem_of_cons; auto.
  - apply (channel_message_encodes NOTE_OFF _ [note; velocity]); [|done].
    rewrite !elem_of_cons; auto.
  - apply (channel_message_encodes CONTROL_CHANGE _ [controller; value]);
      [|done]. rewrite !elem_of_cons; auto.
  - apply (channel_message_encodes PROGRAM_CHANGE _ [program]); [|done].
    rewrite !elem_of_cons; auto.
Qed.

Lemma messages_decode_witness :
  wf (MIDIOutput.init 1) ∧
  ∃ on off cc pc,
    note_on (MIDIOutput.init 1) 60 100 (Some 10) = Some on ∧
    note_off (MIDIOutput.init 1) 60 100 (Some 10) = Some off ∧
    control_change (MIDIOutput.init 1) 7 300 (Some 10) = Some cc ∧
    program_change (MIDIOutput.init 1) 5 (Some 10) = Some pc ∧
    encodes NOTE_ON (_get_channel (MIDIOutput.init 1) (Some 10))
            [60; 100] on ∧
    encodes NOTE_OFF (_get_channel (MIDIOutput.init 1) (Some 10))
            [60; 100] off ∧
    encodes CONTROL_CHANGE (_get_channel (MIDIOutput.init 1) (Some 10))
            [7; 300] cc ∧
    encodes PROGRAM_CHANGE (_get_channel (MIDIOutput.init 1) (Some 10))
            [5] pc.
Proof.
  assert (wf (MIDIOutput.init 1)) as Hwf by apply midi_init_wf.
  split; [exact Hwf|].
  exact (messages_decode (MIDIOutput.init 1) (Some 10) 60 100 7 300 5 Hwf).
Defined.

Lemma note_on_kind ch note velocity :
  1 ≤ ch ≤ 16 →
  is_note_on [Z.lor 0x90 (ch - 1); note; velocity] = true ∧
  is_note_off [Z.lor 0x90 (ch - 1); note; velocity] = false.
Proof.
  intros Hch.
  pose proof (decode_lor NOTE_ON ch ltac:(rewrite !elem_of_cons; auto) Hch)
    as [= Hk _].
  unfold is_note_on, is_note_off. change 0x90 with NOTE_ON. rewrite Hk.
  done.
Qed.

Lemma note_off_kind ch note velocity :
  1 ≤ ch ≤ 16 →
  is_note_on [Z.lor 0x80 (ch - 1); note; velocity] = false ∧
  is_note_off [Z.lor 0x80 (ch - 1); note; velocity] = true.
Proof.
  intros Hch.
  pose proof (decode_lor NOTE_OFF ch ltac:(rewrite !elem_of_cons; auto) Hch)
    as [= Hk _].
  unfold is_note_on, is_note_off. change 0x80 with NOTE_OFF. rewrite Hk.
  done.
Qed.

Lemma count_app kind msgs1 msgs2 :
  count kind (msgs1 ++ msgs2) = count kind msgs1 + count kind msgs2.
Proof. unfold count. rewrite filter_app, length_app. lia. Qed.

Lemma stop_all_messages channel n :
  1 ≤ _get_channel (MIDINote.midi n) channel ≤ 16 →
  MIDINote.stop_all channel n =
    Some ({| MIDINote.midi := MIDINote.midi n;
             MIDINote.active_notes := ∅ |},
          (λ note, [Z.lor 0x80 (_get_channel (MIDINote.midi n) channel - 1);
                    clamp 0 127 note; 0])
            <$> elements (MIDINote.active_notes n)).
Proof.
  intros Hch. unfold MIDINote.stop_all.
  rewrite (MainFacts.mapM_total _
             (λ note, [Z.lor 0x80 (_get_channel (MIDINote.midi n) channel - 1);
                       clamp 0 127 note; 0])); [done|].
  intros note. by rewrite note_off_bytes.
Qed.

Lemma count_note_offs ch (notes : list Z) :
  1 ≤ ch ≤ 16 →
  count is_note_off ((λ note, [Z.lor 0x80 (ch - 1); clamp 0 127 note; 0])
                       <$> notes) = Z.of_nat (length notes) ∧
  count is_note_on ((λ note, [Z.lor 0x80 (ch - 1); clamp 0 127 note; 0])
                      <$> notes) = 0.
Proof.
  intros Hch. unfold count. induction notes as [|x l [IH1 IH2]]; [done|].
  rewrite fmap_cons, !filter_cons.
  destruct (note_off_kind ch (clamp 0 127 x) 0 Hch) as [-> ->].
  rewrite decide_True, decide_False by done. simpl length. split; lia.
Qed.

Lemma call_balance c n :
  wf (MIDINote.midi n) →
  ∃ n' msgs,
    apply_call c n = Some (n', msgs) ∧
    MIDINote.midi n' = MIDINote.midi n ∧
    Z.of_nat (size (MIDINote.active_notes n'))
      - Z.of_nat (size (MIDINote.active_notes n))
    = count is_note_on msgs - count is_note_off msgs.
Proof.
  intros Hwf. destruct c as [note velocity channel|note channel|channel];
    pose proof (_get_channel_range (MIDINote.midi n) channel Hwf) as Hch;
    simpl.
  - destruct (decide (note ∈ MIDINote.active_notes n)) as [Hin|Hin].
    + rewrite MIDINoteFacts.play_active by done.
      eexists _, _. split; [done|]. split; [done|]. unfold count. simpl. lia.
    + rewrite MIDINoteFacts.play_inactive by done.
      eexists _, _. split; [done|]. split; [done|]. simpl.
      rewrite size_union, size_singleton by set_solver.
      unfold count. rewrite !filter_cons, filter_nil.
      destruct (note_on_kind _ (clamp 0 127 note) (clamp 0 127 velocity) Hch)
        as [-> ->].
      rewrite decide_True, decide_False by done. simpl. lia.
  - destruct (decide (note ∈ MIDINote.active_notes n)) as [Hin|Hin].
    + rewrite MIDINoteFacts.stop_active by done.
      eexists _, _. split; [done|]. split; [done|]. simpl.
      rewrite size_difference, size_singleton by set_solver.
      assert (size (MIDINote.active_notes n) ≠ 0%nat) as Hpos.
      { intros H0%size_empty_inv. set_solver. }
      unfold count. rewrite !filter_cons, filter_nil.
      destruct (note_off_kind _ (clamp 0 127 note) 0 Hch) as [-> ->].
      rewrite decide_False, decide_True by done. simpl. lia.
    + rewrite MIDINoteFacts.stop_inactive by done.
      eexists _, _. split; [done|]. split; [done|]. unfold count. simpl. lia.
  - rewrite stop_all_messages by done.
    eexists _, _. split; [done|]. split; [done|].
    cbn [MIDINote.active_notes MIDINote.midi].
    destruct (count_note_offs _ (elements (MIDINote.active_notes n)) Hch)
      as [-> ->].
    rewrite size_empty. unfold size, set_size. simpl. lia.
Qed.

(** X14. Along any sequence of [play], [stop] and [stop_all] calls, none of
    which raises, the number of active notes grows by the number of
    Note-On messages written minus the number of Note-Off messages
    written. *)
Theorem note_balance (cs : list call) (n : MIDINote.t) :
  wf (MIDINote.midi n) →
  ∃ n' msgs,
    apply_calls cs n = Some (n', msgs) ∧
    Z.of_nat (size (MIDINote.active_notes n'))
      - Z.of_nat (size (MIDINote.active_notes n))
    = count is_note_on msgs - count is_note_off msgs.
Proof.
  revert n. induction cs as [|c cs IH]; intros n Hwf.
  { exists n, []. split; [done|]. unfold count. simpl. lia. }
  destruct (call_balance c n Hwf) as (n1 & msgs1 & Hc & Hmidi & Hb1).
  destruct (IH n1) as (n2 & msgs2 & Hcs & Hb2); [by rewrite Hmidi|].
  exists n2, (msgs1 ++ msgs2). simpl. rewrite Hc. simpl. rewrite Hcs. simpl.
  split; [done|]. rewrite !count_app. lia.
Qed.

Lemma note_balance_witness :
  wf (MIDINote.midi Examples.fresh_tracker) ∧
  ∃ n' msgs,
    apply_calls Examples.session Examples.fresh_tracker = Some (n', msgs) ∧
    Z.of_nat (size (MIDINote.active_notes n'))
      - Z.of_nat (size (MIDINote.active_notes Examples.fresh_tracker))
    = count is_note_on msgs - count is_note_off msgs.
Proof.
  assert (wf (MIDINote.midi Examples.fresh_tracker)) as Hwf
    by apply midi_init_wf.
  split; [exact Hwf|].
  exact (note_balance Examples.session Examples.fresh_tracker Hwf).
Defined.

(** X15. [stop_all] writes one Note-Off (velocity 0) per active note, each
    for an active note and every active note among them, on the channel
    selected; afterwards no note is playing and a second [stop_all], on
    any channel, writes nothing. *)
Theorem stop_all_silences (n : MIDINote.t) (channel channel' : option Z) :
  wf (MIDINote.midi n) →
  ∃ n1 msgs,
    MIDINote.stop_all channel n = Some (n1, msgs) ∧
    Z.of_nat (length msgs) = Z.of_nat (size (MIDINote.active_notes n)) ∧
    (∀ msg, msg ∈ msgs →
       ∃ note, note ∈ MIDINote.active_notes n ∧
         encodes NOTE_OFF (_get_channel (MIDINote.midi n) channel)
                 [note; 0] msg) ∧
    (∀ note, note ∈ MIDINote.active_notes n →
       ∃ msg, msg ∈ msgs ∧
         encodes NOTE_OFF (_get_channel (MIDINote.midi n) channel)
                 [note; 0] msg) ∧
    (∀ note, MIDINote.is_playing note n1 = false) ∧
    MIDINote.stop_all channel' n1 = Some (n1, []).
Proof.
  intros Hwf. pose proof (_get_channel_range _ channel Hwf) as Hch.
  rewrite stop_all_messages by done. eexists _, _. split; [done|].
  assert (∀ note,
            encodes NOTE_OFF (_get_channel (MIDINote.midi n) channel)
              [note; 0]
              [Z.lor 128 (_get_channel (MIDINote.midi n) channel - 1);
               clamp 0 127 note; 0]) as Henc.
  { intros note.
    apply (channel_message_encodes NOTE_OFF _ [note; 0]); [|done].
    rewrite !elem_of_cons; auto. }
  split; [by rewrite length_fmap|]. split; [|split; [|split]].
  - intros msg (note & -> & Hin%elem_of_elements)%list_elem_of_fmap.
    by exists note.
  - intros note Hin. eexists. split; [|apply Henc].
    apply list_elem_of_fmap. exists note. by rewrite elem_of_elements.
  - intros note. unfold MIDINote.is_playing. simpl.
    apply bool_decide_eq_false. set_solver.
  - unfold MIDINote.stop_all. simpl. by rewrite elements_empty.
Qed.

Lemma stop_all_silences_witness :
  wf (MIDINote.midi Examples.chord_tracker) ∧
  ∃ n1 msgs,
    MIDINote.stop_all None Examples.chord_tracker = Some (n1, msgs) ∧
    Z.of_nat (length msgs)
      = Z.of_nat (size (MIDINote.active_notes Examples.chord_tracker)) ∧
    (∀ msg, msg ∈ msgs →
       ∃ note, note ∈ MIDINote.active_notes Examples.chord_tracker ∧
         encodes NOTE_OFF
                 (_get_channel (MIDINote.midi Examples.chord_tracker) None)
                 [note; 0] msg) ∧
    (∀ note, note ∈ MIDINote.active_notes Examples.chord_tracker →
       ∃ msg, msg ∈ msgs ∧
         encodes NOTE_OFF
                 (_get_channel (MIDINote.midi Examples.chord_tracker) None)
                 [note; 0] msg) ∧
    (∀ note, MIDINote.is_playing note n1 = false) ∧
    MIDINote.stop_all (Some 3) n1 = Some (n1, []).
Proof.
  assert (wf (MIDINote.midi Examples.chord_tracker)) as Hwf
    by apply midi_init_wf.
  split; [exact Hwf|].
  exact (stop_all_silences Examples.chord_tracker None (Some 3) Hwf).
Defined.

(** X16. [play] then [stop] of a note that was not active restores the
    tracker: one Note-On and one Note-Off are written, on the same
    channel and with the same pitch byte, the note is reported playing
    in between, and the active set ends as it began. *)
Theorem play_stop_round_trip (n : MIDINote.t) (note velocity : Z)
    (channel : option Z) :
  wf (MIDINote.midi n) →
  note ∉ MIDINote.active_notes n →
  ∃ n1 on off,
    MIDINote.play note velocity channel n = Some (n1, [on]) ∧
    MIDINote.is_playing note n1 = true ∧
    MIDINote.stop note channel n1 = Some (n, [off]) ∧
    encodes NOTE_ON (_get_channel (MIDINote.midi n) channel)
            [note; velocity] on ∧
    encodes NOTE_OFF (_get_channel (MIDINote.midi n) channel)
            [note; 0] off ∧
    on !! 1%nat = off !! 1%nat.
Proof.
  intros Hwf Hin. pose proof (_get_channel_range _ channel Hwf) as Hch.
  rewrite MIDINoteFacts.play_inactive by done.
  exists {| MIDINote.midi := MIDINote.midi n;
            MIDINote.active_notes := MIDINote.active_notes n ∪ {[note]} |},
    [Z.lor 0x90 (_get_channel (MIDINote.midi n) channel - 1);
     clamp 0 127 note; clamp 0 127 velocity],
    [Z.lor 0x80 (_get_channel (MIDINote.midi n) channel - 1);
     clamp 0 127 note; 0].
  split; [done|].
  split; [apply bool_decide_eq_true; simpl; set_solver|].
  rewrite MIDINoteFacts.stop_active by (simpl; done || set_solver).
  split; [|split; [|split; [|done]]].
  - assert ({| MIDINote.midi := MIDINote.midi n;
               MIDINote.active_notes :=
                 (MIDINote.active_notes n ∪ {[note]}) ∖ {[note]} |} = n)
      as Heta by (destruct n; simpl in *; f_equal; set_solver).
    cbn [MIDINote.midi MIDINote.active_notes]. by rewrite Heta.
  - apply (channel_message_encodes NOTE_ON _ [note; velocity]); [|done].
    rewrite !elem_of_cons; auto.
  - apply (channel_message_encodes NOTE_OFF _ [note; 0]); [|done].
    rewrite !elem_of_cons; auto.
Qed.

Lemma play_stop_round_trip_witness :
  wf (MIDINote.midi Examples.fresh_tracker) ∧
  (60 ∉ MIDINote.active_notes Examples.fresh_tracker) ∧
  ∃ n1 on off,
    MIDINote.play 60 100 None Examples.fresh_tracker = Some (n1, [on]) ∧
    MIDINote.is_playing 60 n1 = true ∧
    MIDINote.stop 60 None n1 = Some (Examples.fresh_tracker, [off]) ∧
    encodes NOTE_ON (_get_channel (MIDINote.midi Examples.fresh_tracker) None)
            [60; 100] on ∧
    encodes NOTE_OFF (_get_channel (MIDINote.midi Examples.fresh_tracker) None)
            [60; 0] off ∧
    on !! 1%nat = off !! 1%nat.
Proof.
  assert (wf (MIDINote.midi Examples.fresh_tracker)) as Hwf
    by apply midi_init_wf.
  assert (60 ∉ MIDINote.active_notes Examples.fresh_tracker) as Hin
    by (simpl; apply not_elem_of_empty).
  split; [exact Hwf|]. split; [exact Hin|].
  exact (play_stop_round_trip Examples.fresh_tracker 60 100 None Hwf Hin).
Defined.

(** X17. The tracker records the note number it was asked for, not the
    pitch byte written. Two different numbers that clamp to the same
    pitch (both above 127, or both below 0) are tracked separately, so
    playing both writes the same Note-On twice. *)
Theorem tracker_keyed_by_argument (n : MIDINote.t) (note1 note2 velocity : Z)
    (channel : option Z) :
  wf (MIDINote.midi n) →
  note1 ∉ MIDINote.active_notes n → note2 ∉ MIDINote.active_notes n →
  note1 ≠ note2 → clamp 0 127 note1 = clamp 0 127 note2 →
  ∃ n2 on,
    apply_calls [Play note1 velocity channel; Play note2 velocity channel] n
      = Some (n2, [on; on]) ∧
    is_note_on on = true ∧
    MIDINote.active_notes n2 = MIDINote.active_notes n ∪ {[note1; note2]}.
Proof.
  intros Hwf Hin1 Hin2 Hne Hclamp.
  pose proof (_get_channel_range _ channel Hwf) as Hch.
  cbn [apply_calls apply_call].
  rewrite MIDINoteFacts.play_inactive by done. cbn [mbind option_bind].
  rewrite MIDINoteFacts.play_inactive by (simpl; done || set_solver).
  cbn [mbind option_bind MIDINote.midi MIDINote.active_notes app].
  rewrite Hclamp. eexists _, _. split; [done|].
  split; [by apply note_on_kind|]. simpl. set_solver.
Qed.

Lemma tracker_keyed_by_argument_witness :
  wf (MIDINote.midi Examples.fresh_tracker) ∧
  (200 ∉ MIDINote.active_notes Examples.fresh_tracker) ∧
  (300 ∉ MIDINote.active_notes Examples.fresh_tracker) ∧
  200 ≠ 300 ∧ clamp 0 127 200 = clamp 0 127 300 ∧
  ∃ n2 on,
    apply_calls [Play 200 100 None; Play 300 100 None] Examples.fresh_tracker
      = Some (n2, [on; on]) ∧
    is_note_on on = true ∧
    MIDINote.active_notes n2
      = MIDINote.active_notes Examples.fresh_tracker ∪ {[200; 300]}.
Proof.
  assert (wf (MIDINote.midi Examples.fresh_tracker)) as Hwf
    by apply midi_init_wf.
  assert (200 ∉ MIDINote.active_notes Examples.fresh_tracker) as H1
    by (simpl; apply not_elem_of_empty).
  assert (300 ∉ MIDINote.active_notes Examples.fresh_tracker) as H2
    by (simpl; apply not_elem_of_empty).
  assert (200 ≠ 300) as Hne by lia.
  assert (clamp 0 127 200 = clamp 0 127 300) as Hc by reflexivity.
  split; [exact Hwf|]. split; [exact H1|]. split; [exact H2|].
  split; [exact Hne|]. split; [exact Hc|].
  exact (tracker_keyed_by_argument Examples.fresh_tracker 200 300 100 None
           Hwf H1 H2 Hne Hc).
Defined.

End MidiMore.

(** ** The dispatch loop: notes follow keys *)

Module MainMore.
Import Main Dispatch MainFacts.

Lemma loop_iteration_unfold r st log :
  wf st →
  ∃ m enc,
    KeyMatrix.scan (matrix_in r) (matrix st) = Some m ∧
    Debounce.wf m ∧
    EncoderWithValue.update (encoder_in r) (encoder st)
      = (actual_delta r st, enc) ∧
    loop_iteration r (st, log) =
      s1 ← for_each (newly_pressed st m) on_press
                    (set_inputs m enc st, log);
      s2 ← for_each (newly_released st m) on_release s1;
      '(st3, log3) ← encoder_dispatch (actual_delta r st) (held_keys m)
                        (idle_redraw (current_time r) (held_keys m) s2);
      Some (set_prev_pressed_keys (held_keys m) st3, log3 ++ [Sleep 10000]).
Proof.
  intros (Hm & Hlen & Hprev & _ & _).
  destruct (KeyMatrixFacts.scan_total (matrix_in r) (matrix st) Hm)
    as (m & Hscan & Hwfm).
  unfold loop_iteration, actual_delta. rewrite Hscan. simpl.
  destruct (EncoderWithValue.update (encoder_in r) (encoder st))
    as [delta enc]. simpl.
  rewrite (get_pressed_keys_spec m Hwfm). simpl.
  rewrite held_keys_filter. by exists m, enc.
Qed.

Lemma key_note_inj : Inj (=) (=) key_note.
Proof. intros j k. unfold key_note. lia. Qed.

Lemma on_press_spec k st log :
  length (key_cc_values st) = 16%nat → (k < 16)%nat →
  key_note k ∉ MIDINote.active_notes (midi_note st) →
  on_press k (st, log) =
    Some (set_midi_note
            {| MIDINote.midi := midi st;
               MIDINote.active_notes :=
                 MIDINote.active_notes (midi_note st) ∪ {[key_note k]} |}
            st,
          log ++ press_events (key_cc_values st) k).
Proof.
  intros Hlen Hk Hin. unfold on_press.
  rewrite KEY_TO_NOTE_lookup by done. cbn [mbind option_bind].
  rewrite MIDINoteFacts.play_inactive
    by (done || apply MIDIOutputFacts.explicit_channel_range).
  cbn [mbind option_bind].
  destruct (lookup_lt_is_Some_2 (key_cc_values st) k) as [v Hv]; [lia|].
  cbn [key_cc_values set_midi_note]. rewrite Hv.
  rewrite KEY_PARAM_NAMES_lookup, KEY_TO_CC_lookup by done.
  cbn [mbind option_bind]. unfold press_events. rewrite Hv.
  rewrite !clamp_id by (unfold key_note; lia). done.
Qed.

Lemma on_release_spec k st log :
  (k < 16)%nat →
  key_note k ∈ MIDINote.active_notes (midi_note st) →
  on_release k (st, log) =
    Some (set_midi_note
            {| MIDINote.midi := midi st;
               MIDINote.active_notes :=
                 MIDINote.active_notes (midi_note st) ∖ {[key_note k]} |}
            st,
          log ++ release_events k).
Proof.
  intros Hk Hin. unfold on_release.
  rewrite KEY_TO_NOTE_lookup by done. cbn [mbind option_bind].
  rewrite MIDINoteFacts.stop_active
    by (done || apply MIDIOutputFacts.explicit_channel_range).
  cbn [mbind option_bind]. unfold release_events.
  rewrite !clamp_id by (unfold key_note; lia). done.
Qed.

Lemma presses_spec keys : ∀ st log,
  length (key_cc_values st) = 16%nat →
  Forall (λ k, (k < 16)%nat) keys → NoDup keys →
  (∀ k, k ∈ keys → key_note k ∉ MIDINote.active_notes (midi_note st)) →
  for_each keys on_press (st, log) =
    Some (set_midi_note
            {| MIDINote.midi := midi st;
               MIDINote.active_notes :=
                 MIDINote.active_notes (midi_note st)
                 ∪ list_to_set (key_note <$> keys) |}
            st,
          log ++ mjoin (press_events (key_cc_values st) <$> keys)).
Proof.
  induction keys as [|k keys IH]; intros st log Hlen Hlt Hnd Hout.
  { cbn [for_each fmap list_fmap mjoin list_join list_to_set foldr].
    rewrite app_nil_r. destruct st as [? ? [? ?] ? ? ?].
    unfold set_midi_note, midi. simpl. do 4 f_equal. set_solver. }
  apply Forall_cons in Hlt as [Hk Hlt]. apply NoDup_cons in Hnd as [Hnk Hnd].
  cbn [for_each]. rewrite on_press_spec;
    [|done|done|apply Hout; left]. cbn [mbind option_bind].
  rewrite IH; [|done|done|done|].
  - cbn [fmap list_fmap mjoin list_join list_to_set foldr].
    rewrite <- app_assoc. destruct st as [? ? [? ?] ? ? ?].
    unfold set_midi_note, midi. simpl. do 4 f_equal. set_solver.
  - intros j Hj. cbn [midi_note set_midi_note MIDINote.active_notes].
    assert (key_note j ≠ key_note k)
      by (intros ?%key_note_inj; by subst).
    assert (key_note j ∉ MIDINote.active_notes (midi_note st))
      by (apply Hout; by right).
    set_solver.
Qed.

Lemma releases_spec keys : ∀ st log,
  Forall (λ k, (k < 16)%nat) keys → NoDup keys →
  (∀ k, k ∈ keys → key_note k ∈ MIDINote.active_notes (midi_note st)) →
  for_each keys on_release (st, log) =
    Some (set_midi_note
            {| MIDINote.midi := midi st;
               MIDINote.active_notes :=
                 MIDINote.active_notes (midi_note st)
                 ∖ list_to_set (key_note <$> keys) |}
            st,
          log ++ mjoin (release_events <$> keys)).
Proof.
  induction keys as [|k keys IH]; intros st log Hlt Hnd Hin.
  { cbn [for_each fmap list_fmap mjoin list_join list_to_set foldr].
    rewrite app_nil_r. destruct st as [? ? [? ?] ? ? ?].
    unfold set_midi_note, midi. simpl. do 4 f_equal. set_solver. }
  apply Forall_cons in Hlt as [Hk Hlt]. apply NoDup_cons in Hnd as [Hnk Hnd].
  cbn [for_each]. rewrite on_release_spec; [|done|apply Hin; left].
  cbn [mbind option_bind].
  rewrite IH; [|done|done|].
  - cbn [fmap list_fmap mjoin list_join list_to_set foldr].
    rewrite <- app_assoc. destruct st as [? ? [? ?] ? ? ?].
    unfold set_midi_note, midi. simpl. do 4 f_equal. set_solver.
  - intros j Hj. cbn [midi_note set_midi_note MIDINote.active_notes].
    assert (key_note j ≠ key_note k)
      by (intros ?%key_note_inj; by subst).
    assert (key_note j ∈ MIDINote.active_notes (midi_note st))
      by (apply Hin; by right).
    set_solver.
Qed.

Lemma key_events_no_note first delta cc k :
  Forall (λ e, is_note_event e = false) (key_events first delta cc k).
Proof.
  unfold key_events. repeat case_decide; by repeat constructor.
Qed.

Lemma keys_events_no_note first delta cc keys :
  Forall (λ e, is_note_event e = false)
         (mjoin (key_events first delta cc <$> keys)).
Proof.
  induction keys as [|k keys IH]; [constructor|].
  cbn [fmap list_fmap mjoin list_join]. apply Forall_app.
  split; [apply key_events_no_note | exact IH].
Qed.

(** After press and release handling, the rest of a pass leaves the
    tracker alone and writes no note message. *)
Lemma tail_phases delta held now st2 log2 :
  length (key_cc_values st2) = 16%nat →
  Forall (λ k, (k < 16)%nat) held → NoDup held →
  ∃ st3 evs,
    encoder_dispatch delta held (idle_redraw now held (st2, log2))
      = Some (st3, log2 ++ evs) ∧
    midi_note st3 = midi_note st2 ∧ matrix st3 = matrix st2 ∧
    encoder st3 = encoder st2 ∧
    Forall (λ e, is_note_event e = false) evs.
Proof.
  intros Hlen Hlt Hnd.
  assert (∃ st idle,
    idle_redraw now held (st2, log2) = (st, log2 ++ idle) ∧
    midi_note st = midi_note st2 ∧ matrix st = matrix st2 ∧
    encoder st = encoder st2 ∧ key_cc_values st = key_cc_values st2 ∧
    Forall (λ e, is_note_event e = false) idle)
    as (st & idle & -> & Hmn & Hmat & Henc & Hcc & Hidle).
  { unfold idle_redraw. repeat case_decide.
    - eexists _, _. split; [done|]. by repeat constructor.
    - exists st2, []. rewrite app_nil_r. by repeat constructor.
    - exists st2, []. rewrite app_nil_r. by repeat constructor. }
  destruct (decide (delta ≠ 0 ∧ held ≠ [])) as [[Hd Hh]|Hskip].
  - destruct (encoder_dispatch_spec delta held st (log2 ++ idle))
      as (st3 & -> & (Hmat3 & Henc3 & Hmn3 & _) & _);
      [congruence|done..|].
    exists st3, (idle ++ mjoin (key_events (head held) delta
                                            (key_cc_values st) <$> held)
                      ++ [LedShow]).
    split; [by rewrite <- !app_assoc|].
    split; [congruence|]. split; [congruence|]. split; [congruence|].
    apply Forall_app. split; [done|]. apply Forall_app.
    split; [apply keys_events_no_note | by repeat constructor].
  - rewrite encoder_dispatch_skip.
    2:{ destruct (decide (delta = 0)) as [?|Hd]; [by left|right].
        destruct (decide (held = [])) as [?|Hh]; [done|].
        by destruct Hskip. }
    by exists st, idle.
Qed.

Lemma elem_of_key_notes (keys : list nat) k :
  key_note k ∈ (list_to_set (key_note <$> keys) : gset Z) ↔ k ∈ keys.
Proof.
  rewrite elem_of_list_to_set, list_elem_of_fmap. split.
  - by intros (j & ->%key_note_inj & Hj).
  - intros Hk. by exists k.
Qed.

Lemma edge_sets (prev held : list nat) :
  ((list_to_set (key_note <$> prev)
    ∪ list_to_set (key_note <$> filter (λ k, k ∉ prev) held))
   ∖ list_to_set (key_note <$> filter (λ k, k ∉ held) prev) : gset Z)
  = list_to_set (key_note <$> held).
Proof.
  apply set_eq. intros x.
  rewrite elem_of_difference, elem_of_union, !elem_of_list_to_set,
    !list_elem_of_fmap.
  split.
  - intros [[(k & -> & Hk)|(k & -> & Hk)] Hnot].
    + exists k. split; [done|].
      destruct (decide (k ∈ held)) as [|Hout]; [done|].
      destruct Hnot. exists k. split; [done|].
      by apply list_elem_of_filter.
    + exists k. split; [done|]. by apply list_elem_of_filter in Hk as [_ ?].
  - intros (k & -> & Hk). split.
    + destruct (decide (k ∈ prev)) as [Hin|Hout].
      * left. by exists k.
      * right. exists k. split; [done|]. by apply list_elem_of_filter.
    + intros (j & ->%key_note_inj & Hj).
      by apply list_elem_of_filter in Hj as [? _].
Qed.

(** One pass from a state where the tracker agrees with the scanner. *)
Lemma pass_notes r st log :
  wf st → synced st →
  ∃ m st' rest,
    KeyMatrix.scan (matrix_in r) (matrix st) = Some m ∧
    loop_iteration r (st, log) =
      Some (st', log
                 ++ mjoin (press_events (key_cc_values st)
                             <$> newly_pressed st m)
                 ++ mjoin (release_events <$> newly_released st m)
                 ++ rest) ∧
    Forall (λ e, is_note_event e = false) rest ∧
    synced st'.
Proof.
  intros Hwf [Hprev Hact].
  destruct (loop_iteration_unfold r st log Hwf)
    as (m & enc & Hscan & Hwfm & Hupd & ->).
  destruct Hwf as (_ & Hlen & Hlt & _).
  rewrite presses_spec; [|done| | |].
  2:{ apply Forall_forall. intros k [_ Hk]%list_elem_of_filter.
      by apply (proj1 (Forall_forall _ _) (held_keys_lt m)). }
  2:{ apply NoDup_filter, held_keys_NoDup. }
  2:{ intros k [Hk _]%list_elem_of_filter.
      cbn [midi_note set_inputs]. rewrite Hact. by rewrite elem_of_key_notes. }
  cbn [mbind option_bind].
  rewrite releases_spec; [| | |].
  2:{ apply Forall_forall. intros k [_ Hk]%list_elem_of_filter.
      by apply (proj1 (Forall_forall _ _) Hlt). }
  2:{ apply NoDup_filter. rewrite Hprev. apply held_keys_NoDup. }
  2:{ intros k [_ Hk]%list_elem_of_filter.
      cbn [midi_note set_inputs set_midi_note MIDINote.active_notes].
      rewrite Hact. apply elem_of_union_l. by rewrite elem_of_key_notes. }
  cbn [mbind option_bind].
  match goal with
  | |- context [idle_redraw _ _ (?st2, ?log2)] =>
      destruct (tail_phases (actual_delta r st) (held_keys m)
                  (current_time r) st2 log2)
        as (st3 & rest & -> & Hmn & Hmat & _ & Hrest);
        [done | apply held_keys_lt | apply held_keys_NoDup |]
  end.
  cbn [mbind option_bind].
  cbn [midi_note matrix set_midi_note set_inputs] in Hmn, Hmat.
  exists m, (set_prev_pressed_keys (held_keys m) st3), (rest ++ [Sleep 10000]).
  split; [done|]. split; [by rewrite <- !app_assoc|].
  split; [apply Forall_app; split; [done | by repeat constructor]|].
  split; cbn [prev_pressed_keys matrix midi_note set_prev_pressed_keys].
  - by rewrite Hmat.
  - rewrite Hmn. cbn [MIDINote.active_notes]. rewrite Hact.
    apply edge_sets.
Qed.

(** *** Counting note messages *)

Lemma sounding_app note evs1 evs2 :
  sounding note (evs1 ++ evs2) = sounding note evs1 + sounding note evs2.
Proof. unfold sounding. rewrite !filter_app, !length_app. lia. Qed.

Lemma sounding_nil note : sounding note [] = 0.
Proof. done. Qed.

Lemma sounding_quiet note evs :
  Forall (λ e, is_note_event e = false) evs → sounding note evs = 0.
Proof.
  induction 1 as [|e evs He _ IH]; [done|].
  change (e :: evs) with ([e] ++ evs). rewrite sounding_app, IH.
  unfold sounding. rewrite !filter_cons, !filter_nil.
  assert (is_note_on_of note e = false ∧ is_note_off_of note e = false)
    as [-> ->]; [|done].
  destruct e as [| |[|status [|pitch data]]| | | | | | | | | | |]; try done.
  simpl in *. apply orb_false_iff in He as [Hon Hoff].
  apply bool_decide_eq_false in Hon, Hoff.
  split; apply bool_decide_eq_false; by intros [? _].
Qed.

(** Whether a pitch is that of one of some keys, as 1 or 0. *)
Lemma sounding_presses cc note keys :
  NoDup keys →
  sounding note (mjoin (press_events cc <$> keys)) =
    if decide (note ∈ (list_to_set (key_note <$> keys) : gset Z))
    then 1 else 0.
Proof.
  induction 1 as [|k keys Hk _ IH]; [done|].
  change (mjoin (press_events cc <$> k :: keys))
    with (press_events cc k ++ mjoin (press_events cc <$> keys)).
  rewrite sounding_app, IH. clear IH.
  change (list_to_set (key_note <$> k :: keys) : gset Z)
    with ({[key_note k]} ∪ list_to_set (key_note <$> keys) : gset Z).
  assert (sounding note (press_events cc k)
          = if decide (note = key_note k) then 1 else 0) as ->.
  { unfold sounding, press_events. rewrite !filter_cons, !filter_nil.
    cbn [is_note_on_of is_note_off_of]. change (Z.land 144 240) with 144.
    destruct (decide (note = key_note k)) as [->|Hne].
    - rewrite bool_decide_eq_true_2 by done.
      rewrite bool_decide_eq_false_2 by (by intros [? _]).
      by rewrite decide_True, !decide_False by done.
    - rewrite bool_decide_eq_false_2 by (intros [_ ?]; congruence).
      rewrite bool_decide_eq_false_2 by (by intros [? _]).
      by rewrite !decide_False by done. }
  destruct (decide (note = key_note k)) as [->|Hne].
  - rewrite decide_False by (by rewrite elem_of_key_notes).
    rewrite decide_True by set_solver. done.
  - destruct (decide (note ∈ (list_to_set (key_note <$> keys) : gset Z))).
    + rewrite decide_True by set_solver. done.
    + rewrite decide_False by set_solver. done.
Qed.

Lemma sounding_releases note keys :
  NoDup keys →
  sounding note (mjoin (release_events <$> keys)) =
    if decide (note ∈ (list_to_set (key_note <$> keys) : gset Z))
    then -1 else 0.
Proof.
  induction 1 as [|k keys Hk _ IH]; [done|].
  change (mjoin (release_events <$> k :: keys))
    with (release_events k ++ mjoin (release_events <$> keys)).
  rewrite sounding_app, IH. clear IH.
  change (list_to_set (key_note <$> k :: keys) : gset Z)
    with ({[key_note k]} ∪ list_to_set (key_note <$> keys) : gset Z).
  assert (sounding note (release_events k)
          = if decide (note = key_note k) then -1 else 0) as ->.
  { unfold sounding, release_events. rewrite !filter_cons, !filter_nil.
    cbn [is_note_on_of is_note_off_of]. change (Z.land 128 240) with 128.
    destruct (decide (note = key_note k)) as [->|Hne].
    - rewrite bool_decide_eq_false_2 by (by intros [? _]).
      rewrite bool_decide_eq_true_2 by done.
      by rewrite decide_False, decide_True by done.
    - rewrite !bool_decide_eq_false_2 by (intros [_ ?]; congruence).
      by rewrite !decide_False by done. }
  destruct (decide (note = key_note k)) as [->|Hne].
  - rewrite decide_False by (by rewrite elem_of_key_notes).
    rewrite decide_True by set_solver. done.
  - destruct (decide (note ∈ (list_to_set (key_note <$> keys) : gset Z))).
    + rewrite decide_True by set_solver. done.
    + rewrite decide_False by set_solver. done.
Qed.

(** *** Invariants of the loop *)

Lemma pass_keeps_midi_range r st st' log log' :
  wf st → in_midi_range st →
  loop_iteration r (st, log) = Some (st', log') →
  wf st' ∧ in_midi_range st' ∧ matrix st' = default (matrix st)
    (KeyMatrix.scan (matrix_in r) (matrix st)).
Proof.
  intros Hwf [Hcc Hval] Hrun.
  destruct (loop_iteration_wf r st log Hwf) as (st1 & evs1 & Hrun1 & Hwf1).
  destruct (loop_iteration_spec r st log Hwf)
    as (m & enc & st2 & pre & idle & adj & -> & Hupd & Hrun2 & _ &
        [Hmat _] & Henc & _ & Hlen & _ & _ & Hno & Hyes).
  rewrite Hrun in Hrun1, Hrun2.
  injection Hrun1 as <- _. injection Hrun2 as <- _.
  split; [done|]. split; [|done]. split.
  - destruct (decide (adjusts (actual_delta r st) (held_keys m)))
      as [Ha|Ha].
    + destruct (Hyes Ha) as [_ Hlk]. apply Forall_lookup. intros k v Hv.
      rewrite Hlk in Hv. case_decide.
      * injection Hv as <-. by apply clamp_bounds.
      * by apply (proj1 (Forall_lookup _ _) Hcc k).
    + destruct (Hno Ha) as [_ ->]. done.
  - rewrite Henc. destruct Hwf as (_ & _ & _ & Hmin & Hmax).
    pose proof (ValueMore.update_keeps_range (encoder_in r) (encoder st))
      as Hkeep.
    pose proof (EncoderWithValueFacts.update_range (encoder_in r)
                  (encoder st)) as [Hmin' Hmax'].
    unfold Decode.in_range in Hkeep.
    rewrite Hupd in Hkeep, Hmin', Hmax'. cbn [snd] in Hkeep, Hmin', Hmax'.
    rewrite Hmin', Hmax', Hmin, Hmax in Hkeep. apply Hkeep. done.
Qed.

Lemma pressed_fresh (prev held : list nat) x :
  x ∈ (list_to_set (key_note <$> filter (λ k, k ∉ prev) held) : gset Z) →
  x ∉ (list_to_set (key_note <$> prev) : gset Z).
Proof.
  rewrite !elem_of_list_to_set, !list_elem_of_fmap.
  intros (k & -> & [Hk _]%list_elem_of_filter) (j & ->%key_note_inj & Hj).
  done.
Qed.

Lemma released_old (prev held : list nat) x :
  x ∈ (list_to_set (key_note <$> filter (λ k, k ∉ held) prev) : gset Z) →
  x ∈ (list_to_set (key_note <$> prev) : gset Z).
Proof.
  rewrite !elem_of_list_to_set, !list_elem_of_fmap.
  intros (k & -> & [_ Hk]%list_elem_of_filter). by exists k.
Qed.

Lemma pass_invariant r st log :
  wf st → synced st → in_midi_range st → accounted (st, log) →
  ∃ st' evs,
    loop_iteration r (st, log) = Some (st', log ++ evs) ∧
    wf st' ∧ synced st' ∧ in_midi_range st' ∧ accounted (st', log ++ evs).
Proof.
  intros Hwf Hsync Hrange Hacc.
  destruct (pass_notes r st log Hwf Hsync)
    as (m & st' & rest & Hscan & Hrun & Hrest & Hsync').
  destruct (pass_keeps_midi_range r st st' log _ Hwf Hrange Hrun)
    as (Hwf' & Hrange' & Hmat).
  rewrite Hscan in Hmat. simpl in Hmat.
  eexists st', _. split; [exact Hrun|]. split; [done|]. split; [done|].
  split; [done|]. intros note. cbn [fst snd].
  rewrite !sounding_app, (sounding_quiet _ rest Hrest).
  rewrite sounding_presses by apply NoDup_filter, held_keys_NoDup.
  destruct Hsync as [Hprev Hact].
  rewrite sounding_releases
    by (apply NoDup_filter; rewrite Hprev; apply held_keys_NoDup).
  pose proof (Hacc note) as Hn. cbn [fst snd] in Hn. rewrite Hn. clear Hn.
  destruct Hsync' as [Hprev' Hact']. rewrite Hact', Hprev', Hmat, Hact.
  unfold newly_pressed, newly_released.
  pose proof (edge_sets (prev_pressed_keys st) (held_keys m)) as Heq.
  pose proof (pressed_fresh (prev_pressed_keys st) (held_keys m) note) as Hp.
  pose proof (released_old (prev_pressed_keys st) (held_keys m) note) as Hr.
  rewrite <- Heq. clear Heq.
  generalize dependent
    (list_to_set (key_note <$> prev_pressed_keys st) : gset Z).
  intros A _ Hr Hp. revert Hp Hr.
  generalize
    (list_to_set (key_note <$> filter (λ k, k ∉ prev_pressed_keys st)
                                      (held_keys m)) : gset Z),
    (list_to_set (key_note <$> filter (λ k, k ∉ held_keys m)
                                      (prev_pressed_keys st)) : gset Z).
  intros P R Hp Hr. clear -Hp Hr.
  repeat case_decide; try lia; exfalso; set_solver.
Qed.

Lemma main_loop_invariant rs : ∀ st log,
  wf st → synced st → in_midi_range st → accounted (st, log) →
  ∃ st' evs,
    main_loop rs (st, log) = Some (st', log ++ evs) ∧
    wf st' ∧ synced st' ∧ in_midi_range st' ∧ accounted (st', log ++ evs).
Proof.
  induction rs as [|r rs IH]; intros st log Hwf Hsync Hrange Hacc.
  { exists st, []. by rewrite app_nil_r. }
  destruct (pass_invariant r st log Hwf Hsync Hrange Hacc)
    as (st1 & evs1 & Hrun1 & Hwf1 & Hsync1 & Hrange1 & Hacc1).
  destruct (IH st1 (log ++ evs1) Hwf1 Hsync1 Hrange1 Hacc1)
    as (st' & evs & Hrun & Hrest).
  exists st', (evs1 ++ evs). unfold main_loop in *. cbn [for_each].
  rewrite Hrun1. cbn [mbind option_bind]. rewrite Hrun.
  rewrite <- app_assoc in Hrest |- *. split; [done | exact Hrest].
Qed.

Lemma startup_invariant clk0 :
  wf (startup clk0).1 ∧ synced (startup clk0).1 ∧
  in_midi_range (startup clk0).1 ∧ accounted (startup clk0).
Proof.
  split; [apply startup_wf|]. split; [split; [by vm_compute | done]|]. split.
  - split; [|simpl; lia]. simpl. repeat constructor; lia.
  - intros note. rewrite sounding_quiet; [done|].
    simpl. by repeat constructor.
Qed.

Lemma run_invariant clk0 rs :
  ∃ st log,
    main_loop rs (startup clk0) = Some (st, log) ∧
    wf st ∧ synced st ∧ in_midi_range st ∧ accounted (st, log).
Proof.
  destruct (startup_invariant clk0) as (Hwf & Hsync & Hrange & Hacc).
  destruct (startup clk0) as [st0 log0] eqn:Hstart.
  destruct (main_loop_invariant rs st0 log0 Hwf Hsync Hrange Hacc)
    as (st & evs & Hrun & Hrest).
  by exists st, (log0 ++ evs).
Qed.

Lemma sounding_stops note (l : list Z) :
  NoDup l → Forall (λ x, 0 ≤ x ≤ 127) l →
  sounding note ((λ x, MidiWrite [0x80; clamp 0 127 x; 0]) <$> l) =
    if decide (note ∈ l) then -1 else 0.
Proof.
  induction 1 as [|x l Hx _ IH]; intros Hl; [done|].
  apply Forall_cons in Hl as [Hx127 Hl]. rewrite fmap_cons.
  change (?e :: ?evs) with ([e] ++ evs). rewrite sounding_app, (IH Hl).
  rewrite clamp_id by done. unfold sounding.
  rewrite !filter_cons, !filter_nil. cbn [is_note_on_of is_note_off_of].
  change (Z.land 128 240) with 128.
  rewrite bool_decide_eq_false_2 by (by intros [? _]).
  rewrite decide_False by done.
  destruct (decide (note = x)) as [->|Hne].
  - rewrite bool_decide_eq_true_2, decide_True by done.
    rewrite decide_False by done. rewrite decide_True by set_solver. done.
  - rewrite bool_decide_eq_false_2 by (intros [_ ?]; congruence).
    rewrite decide_False by done.
    destruct (decide (note ∈ l)).
    + rewrite decide_True by set_solver. done.
    + rewrite decide_False by set_solver. done.
Qed.

Lemma sweep_no_note : Forall (λ e, is_note_event e = false) sweep.
Proof. unfold sweep. simpl. by repeat constructor. Qed.

Lemma blink_no_note : Forall (λ e, is_note_event e = false) blink.
Proof. unfold blink. simpl. by repeat constructor. Qed.

Lemma shutdown_balances st log :
  wf st → synced st → accounted (st, log) →
  ∃ st' log',
    shutdown (st, log) = Some (st', log') ∧
    MIDINote.active_notes (midi_note st') = ∅ ∧
    ∀ note, sounding note log' = 0.
Proof.
  intros (_ & _ & Hlt & _) [_ Hact] Hacc. unfold shutdown.
  rewrite stop_all_spec. cbn [mbind option_bind].
  destruct (deinit_spec (midi (set_midi_note
              {| MIDINote.midi := MIDINote.midi (midi_note st);
                 MIDINote.active_notes := ∅ |} st)))
    as [Hsweep [msgs Hmsgs]].
  rewrite Hmsgs in Hsweep |- *. cbn [default id] in Hsweep.
  cbn [mbind option_bind]. rewrite Hsweep.
  eexists _, _. split; [done|]. split; [done|]. intros note.
  rewrite !sounding_app. rewrite <- list_fmap_compose.
  rewrite (sounding_stops note (elements (MIDINote.active_notes
                                            (midi_note st)))).
  - pose proof (Hacc note) as Hn. cbn [fst snd] in Hn. rewrite Hn.
    change (mjoin (replicate 3 _)) with blink.
    rewrite (sounding_quiet note blink blink_no_note).
    rewrite (sounding_quiet note sweep sweep_no_note).
    rewrite !sounding_quiet by (by repeat constructor).
    destruct (decide (note ∈ MIDINote.active_notes (midi_note st))).
    + rewrite decide_True by (by apply elem_of_elements). lia.
    + rewrite decide_False by (by rewrite elem_of_elements). lia.
  - apply NoDup_elements.
  - apply Forall_forall. intros x Hx%elem_of_elements.
    rewrite Hact, elem_of_list_to_set, list_elem_of_fmap in Hx.
    destruct Hx as (k & -> & Hk).
    apply (proj1 (Forall_forall _ _) Hlt) in Hk. unfold key_note. lia.
Qed.

Lemma filter_not_self (l : list nat) : filter (λ k, k ∉ l) l = [].
Proof.
  destruct (filter (λ k, k ∉ l) l) as [|k ks] eqn:Hf; [done|].
  assert (k ∈ filter (λ k, k ∉ l) l) as [? ?]%list_elem_of_filter
    by (rewrite Hf; left).
  done.
Qed.

(** X18. One pass, from a state in which the notes sounding are those of
    the keys remembered from the previous pass: the events start with,
    for each key that went down, in ascending order, its Note-On (note
    60 + key, velocity 100, channel 1) with the flash, LED and display
    updates, then for each key that went up, in ascending order, its
    Note-Off; no other note message is written in the pass, and the
    tracker again agrees with the scanner. *)
Theorem key_edges (r : reading) (st : state) (log : list event) :
  wf st → synced st →
  ∃ m st' rest,
    KeyMatrix.scan (matrix_in r) (matrix st) = Some m ∧
    loop_iteration r (st, log) =
      Some (st', log
                 ++ mjoin (press_events (key_cc_values st)
                             <$> newly_pressed st m)
                 ++ mjoin (release_events <$> newly_released st m)
                 ++ rest) ∧
    Forall (λ e, is_note_event e = false) rest ∧
    synced st' ∧
    StronglySorted lt (newly_pressed st m) ∧
    StronglySorted lt (newly_released st m).
Proof.
  intros Hwf Hsync.
  destruct (pass_notes r st log Hwf Hsync)
    as (m & st' & rest & Hscan & Hrun & Hrest & Hsync').
  exists m, st', rest. do 4 (split; [done|]). split.
  - apply filter_sorted, held_keys_sorted.
  - unfold newly_released. rewrite (proj1 Hsync).
    apply filter_sorted, held_keys_sorted.
Qed.

Lemma key_edges_witness :
  wf (startup true).1 ∧ synced (startup true).1 ∧
  ∃ m st' rest,
    KeyMatrix.scan (matrix_in Examples.chord_turn) (matrix (startup true).1)
      = Some m ∧
    loop_iteration Examples.chord_turn ((startup true).1, []) =
      Some (st', []
                 ++ mjoin (press_events (key_cc_values (startup true).1)
                             <$> newly_pressed (startup true).1 m)
                 ++ mjoin (release_events
                             <$> newly_released (startup true).1 m)
                 ++ rest) ∧
    Forall (λ e, is_note_event e = false) rest ∧
    synced st' ∧
    StronglySorted lt (newly_pressed (startup true).1 m) ∧
    StronglySorted lt (newly_released (startup true).1 m).
Proof.
  destruct (startup_invariant true) as (Hwf & Hsync & _).
  split; [exact Hwf|]. split; [exact Hsync|].
  exact (key_edges Examples.chord_turn (startup true).1 [] Hwf Hsync).
Defined.

(** X19. A pass in which the playable keys held are those of the previous
    pass, and in which the encoder branch is not entered, does nothing
    but update the scanner and the decoder and sleep 10 ms. Keys 16 and
    17 (the encoder's push switch) are not playable keys: pressing them
    causes no effect at all. *)
Theorem quiescent_pass (r : reading) (st : state) (log : list event)
    (m : KeyMatrix.t) :
  wf st →
  KeyMatrix.scan (matrix_in r) (matrix st) = Some m →
  held_keys m = prev_pressed_keys st →
  ¬ adjusts (actual_delta r st) (held_keys m) →
  loop_iteration r (st, log) =
    Some (set_inputs m
            (EncoderWithValue.update (encoder_in r) (encoder st)).2 st,
          log ++ [Sleep 10000]).
Proof.
  intros Hwf Hscan Hheld Hadj.
  destruct (loop_iteration_unfold r st log Hwf)
    as (m' & enc & Hscan' & _ & Hupd & ->).
  rewrite Hscan in Hscan'. injection Hscan' as <-. rewrite Hupd.
  unfold newly_pressed, newly_released. rewrite Hheld, filter_not_self.
  cbn [for_each mbind option_bind snd].
  rewrite (proj2 (idle_redraw_cases _ _ _ _)).
  2:{ cbn [prev_pressed_keys set_inputs]. by intros (-> & ? & _). }
  rewrite encoder_dispatch_skip.
  2:{ rewrite <- Hheld.
      destruct (decide (actual_delta r st = 0)) as [?|Hd]; [by left|right].
      destruct (decide (held_keys m = [])) as [?|Hh]; [done|].
      by destruct Hadj. }
  cbn [mbind option_bind]. done.
Qed.

Lemma quiescent_pass_witness :
  wf (startup true).1 ∧
  KeyMatrix.scan (matrix_in Examples.switch_click) (matrix (startup true).1)
    = Some Examples.switch_down ∧
  held_keys Examples.switch_down = prev_pressed_keys (startup true).1 ∧
  ¬ adjusts (actual_delta Examples.switch_click (startup true).1)
            (held_keys Examples.switch_down) ∧
  loop_iteration Examples.switch_click ((startup true).1, []) =
    Some (set_inputs Examples.switch_down
            (EncoderWithValue.update (encoder_in Examples.switch_click)
               (encoder (startup true).1)).2
            (startup true).1,
          [] ++ [Sleep 10000]).
Proof.
  assert (KeyMatrix.scan (matrix_in Examples.switch_click)
            (matrix (startup true).1) = Some Examples.switch_down) as Hscan
    by (vm_compute; reflexivity).
  assert (held_keys Examples.switch_down = prev_pressed_keys (startup true).1)
    as Hheld by (vm_compute; reflexivity).
  assert (¬ adjusts (actual_delta Examples.switch_click (startup true).1)
                    (held_keys Examples.switch_down)) as Hadj
    by (intros [Hd _]; apply Hd; vm_compute; reflexivity).
  split; [exact (startup_wf true)|]. split; [exact Hscan|].
  split; [exact Hheld|]. split; [exact Hadj|].
  exact (quiescent_pass Examples.switch_click (startup true).1 []
           Examples.switch_down (startup_wf true) Hscan Hheld Hadj).
Defined.

(** X20. After start-up and any number of passes, whatever the inputs: the
    loop has not raised, the keys remembered are the playable keys held
    in the scanner state, the notes sounding are exactly theirs, and
    the log holds, for each pitch, one Note-On more than Note-Offs if it
    is sounding and as many otherwise. *)
Theorem notes_follow_keys (clk0 : bool) (rs : list reading) :
  ∃ st log,
    main_loop rs (startup clk0) = Some (st, log) ∧
    synced st ∧ accounted (st, log).
Proof.
  destruct (run_invariant clk0 rs) as (st & log & Hrun & _ & Hs & _ & Ha).
  by exists st, log.
Qed.

(** X21. After start-up and any number of passes the sixteen stored
    parameter values and the encoder's value are all within 0..127. *)
Theorem stored_values_in_midi_range (clk0 : bool) (rs : list reading) :
  ∃ st log,
    main_loop rs (startup clk0) = Some (st, log) ∧
    length (key_cc_values st) = 16%nat ∧ in_midi_range st.
Proof.
  destruct (run_invariant clk0 rs)
    as (st & log & Hrun & (_ & Hlen & _) & _ & Hr & _).
  by exists st, log.
Qed.

(** X22. A complete run (start-up, any number of passes on any inputs,
    then the interrupt handler) never raises and leaves no note
    hanging: for every pitch the port has received as many Note-Offs as
    Note-Ons, and the tracker ends empty. *)
Theorem no_hanging_notes (clk0 : bool) (rs : list reading) :
  ∃ st log,
    program clk0 rs = Some (st, log) ∧
    MIDINote.active_notes (midi_note st) = ∅ ∧
    ∀ note, sounding note log = 0.
Proof.
  destruct (run_invariant clk0 rs)
    as (st & log & Hrun & Hwf & Hsync & _ & Hacc).
  unfold program. rewrite Hrun. cbn [mbind option_bind].
  by apply shutdown_balances.
Qed.

(** *** The encoder branch within a pass *)

Lemma key_events_display first delta cc k :
  display_calls (key_events (Some first) delta cc k) =
    if decide (k = first ∧ adjusted delta cc k ≠ default 0 (cc !! k))
    then [DisplayShowFullStatus current_layer layer_name (param_name k)
                                (adjusted delta cc k)
                                (default 0 (KEY_TO_CC !! k)) midi_channel]
    else [].
Proof.
  unfold key_events, display_calls.
  destruct (decide (adjusted delta cc k = default 0 (cc !! k))) as [Heq|Hne].
  { rewrite decide_False; [done|]. by intros [_ ?]. }
  destruct (decide (Some first = Some k)) as [[= ->]|Hf].
  - by rewrite decide_True.
  - rewrite decide_False; [done|]. intros [-> _]. done.
Qed.

(** In the encoder branch the display is drawn for the first held key
    and for no other. *)
Lemma branch_display first delta cc keys :
  NoDup keys →
  display_calls (mjoin (key_events (Some first) delta cc <$> keys)) =
    if decide (first ∈ keys ∧
               adjusted delta cc first ≠ default 0 (cc !! first))
    then [DisplayShowFullStatus current_layer layer_name (param_name first)
                                (adjusted delta cc first)
                                (default 0 (KEY_TO_CC !! first))
                                midi_channel]
    else [].
Proof.
  induction 1 as [|k keys Hk Hnd IH].
  { rewrite decide_False; [done|]. intros [Hin _]. by apply elem_of_nil in Hin. }
  change (mjoin (key_events (Some first) delta cc <$> k :: keys))
    with (key_events (Some first) delta cc k
          ++ mjoin (key_events (Some first) delta cc <$> keys)).
  unfold display_calls in *. rewrite filter_app.
  fold (display_calls (key_events (Some first) delta cc k)).
  rewrite IH, key_events_display. clear IH.
  destruct (decide (k = first)) as [->|Hne].
  - rewrite (decide_False (P:=first ∈ keys ∧ _)) by (by intros [? _]).
    rewrite app_nil_r.
    destruct (decide (adjusted delta cc first = default 0 (cc !! first))).
    + rewrite !decide_False; [done|by intros [_ ?]|by intros [_ ?]].
    + rewrite !decide_True; [done|split; [left|done]|done].
  - rewrite (decide_False (P:=k = first ∧ _)) by (by intros [? _]).
    simpl. apply decide_ext. rewrite elem_of_cons. naive_solver.
Qed.

(** In the encoder branch one Control-Change is written per held key
    whose stored value changes. *)
Lemma branch_control_changes first delta cc keys :
  length (filter (λ e, is_control_change e = true)
                 (mjoin (key_events first delta cc <$> keys))) =
  length (filter (λ k, adjusted delta cc k ≠ default 0 (cc !! k)) keys).
Proof.
  induction keys as [|k keys IH]; [done|].
  change (mjoin (key_events first delta cc <$> k :: keys))
    with (key_events first delta cc k
          ++ mjoin (key_events first delta cc <$> keys)).
  rewrite filter_app, length_app, IH, key_events_one_control_change.
  rewrite filter_cons. repeat case_decide; simpl; try done; tauto.
Qed.

(** C3. A pass whose actual encoder delta is non-zero and in which some
    playable key is held, from a state in which the tracker agrees with
    the scanner. The held keys are in ascending order. The events of
    the pass are, in this order and with nothing else: those of press
    handling and of release handling; then, for each held key in
    ascending order, nothing if its stored value does not change and
    otherwise one Control-Change on CC number key+1 and the update of
    that key's LED from the new value, followed for the first held key
    only by the display refresh; then one flush of the LEDs; then the
    sleep. So the branch writes one Control-Change per held key whose
    value changes, draws on the display at most once, for the first
    held key, and flushes the LEDs once, after the last key. Each held
    key's stored value becomes the old value plus the delta, clamped to
    [0,127]; the other stored values are unchanged. *)
Theorem encoder_fan_out (r : reading) (st : state) (log : list event)
    (m : KeyMatrix.t) :
  wf st → synced st →
  KeyMatrix.scan (matrix_in r) (matrix st) = Some m →
  actual_delta r st ≠ 0 → held_keys m ≠ [] →
  StronglySorted lt (held_keys m) ∧
  ∃ st' first,
    head (held_keys m) = Some first ∧
    loop_iteration r (st, log) =
      Some (st', log
                 ++ mjoin (press_events (key_cc_values st)
                             <$> newly_pressed st m)
                 ++ mjoin (release_events <$> newly_released st m)
                 ++ mjoin (key_events (Some first) (actual_delta r st)
                                      (key_cc_values st) <$> held_keys m)
                 ++ [LedShow; Sleep 10000]) ∧
    (∀ k, key_cc_values st' !! k =
          if decide (k ∈ held_keys m)
          then Some (clamp 0 127 (default 0 (key_cc_values st !! k)
                                  + actual_delta r st))
          else key_cc_values st !! k) ∧
    length (filter (λ e, is_control_change e = true)
              (mjoin (key_events (Some first) (actual_delta r st)
                                 (key_cc_values st) <$> held_keys m))) =
      length (filter (λ k, adjusted (actual_delta r st) (key_cc_values st) k
                           ≠ default 0 (key_cc_values st !! k))
                     (held_keys m)) ∧
    display_calls (mjoin (key_events (Some first) (actual_delta r st)
                                     (key_cc_values st) <$> held_keys m)) =
      (if decide (adjusted (actual_delta r st) (key_cc_values st) first
                  ≠ default 0 (key_cc_values st !! first))
       then [DisplayShowFullStatus current_layer layer_name
               (param_name first)
               (adjusted (actual_delta r st) (key_cc_values st) first)
               (default 0 (KEY_TO_CC !! first)) midi_channel]
       else []) ∧
    matrix st' = m ∧
    encoder st' = (EncoderWithValue.update (encoder_in r) (encoder st)).2 ∧
    prev_pressed_keys st' = held_keys m ∧
    last_display_update st' = last_display_update st ∧
    synced st'.
Proof.
  intros Hwf [Hprev Hact] Hscan Hd Hh.
  split; [apply held_keys_sorted|].
  destruct (loop_iteration_unfold r st log Hwf)
    as (m' & enc & Hscan' & Hwfm & Hupd & ->).
  rewrite Hscan in Hscan'. injection Hscan' as <-.
  destruct Hwf as (_ & Hlen & Hlt & _).
  destruct (held_keys m) as [|first rest] eqn:Hheld; [done|].
  rewrite <- Hheld in *.
  assert (head (held_keys m) = Some first) as Hfirst by (by rewrite Hheld).
  rewrite presses_spec; [|done| | |].
  2:{ apply Forall_forall. intros k [_ Hk]%list_elem_of_filter.
      by apply (proj1 (Forall_forall _ _) (held_keys_lt m)). }
  2:{ apply NoDup_filter, held_keys_NoDup. }
  2:{ intros k [Hk _]%list_elem_of_filter.
      cbn [midi_note set_inputs]. rewrite Hact. by rewrite elem_of_key_notes. }
  cbn [mbind option_bind].
  rewrite releases_spec; [| | |].
  2:{ apply Forall_forall. intros k [_ Hk]%list_elem_of_filter.
      by apply (proj1 (Forall_forall _ _) Hlt). }
  2:{ apply NoDup_filter. rewrite Hprev. apply held_keys_NoDup. }
  2:{ intros k [_ Hk]%list_elem_of_filter.
      cbn [midi_note set_inputs set_midi_note MIDINote.active_notes].
      rewrite Hact. apply elem_of_union_l. by rewrite elem_of_key_notes. }
  cbn [mbind option_bind].
  rewrite (proj2 (idle_redraw_cases _ _ _ _)) by (by intros [? _]).
  match goal with
  | |- context [encoder_dispatch _ _ (?st2, ?log2)] =>
      destruct (encoder_dispatch_spec (actual_delta r st) (held_keys m)
                  st2 log2)
        as (st3 & -> & (Hmat & Henc & Hmn & _ & Hldu) & Hlen3 & Hcc);
        [done | apply held_keys_lt | apply held_keys_NoDup | done | done |]
  end.
  cbn [mbind option_bind].
  cbn [matrix encoder midi_note key_cc_values last_display_update
       set_midi_note set_inputs] in Hmat, Henc, Hmn, Hldu, Hcc.
  cbn [key_cc_values set_midi_note set_inputs]. rewrite Hfirst.
  exists (set_prev_pressed_keys (held_keys m) st3), first.
  split; [done|]. split; [by rewrite <- !app_assoc|]. unfold synced.
  cbn [matrix encoder midi_note key_cc_values last_display_update
       prev_pressed_keys set_prev_pressed_keys].
  split; [exact Hcc|].
  split; [apply branch_control_changes|].
  split.
  { rewrite branch_display by apply held_keys_NoDup.
    apply decide_ext. split; [by intros [_ ?]|]. intros Hne.
    split; [|done]. rewrite Hheld. left. }
  split; [done|]. split; [by rewrite Henc, Hupd|]. split; [done|].
  split; [done|]. split; [by rewrite Hmat|].
  rewrite Hmn. cbn [MIDINote.active_notes]. rewrite Hact. apply edge_sets.
Qed.

(** Scenario 3 of the specification at start-up: keys 0 and 1 go down
    while the encoder steps by -1. Both values go from 64 to 63, two
    Control-Changes are written, and the display is refreshed in the
    branch for key 0 only. *)
Lemma encoder_fan_out_witness :
  wf (startup true).1 ∧ synced (startup true).1 ∧
  KeyMatrix.scan (matrix_in Examples.chord_turn) (matrix (startup true).1)
    = Some Examples.chord_down ∧
  actual_delta Examples.chord_turn (startup true).1 = -1 ∧
  held_keys Examples.chord_down = [0%nat; 1%nat] ∧
  ∃ st',
    loop_iteration Examples.chord_turn ((startup true).1, []) =
      Some (st', press_events (replicate 16 64) 0
                 ++ press_events (replicate 16 64) 1
                 ++ [ MidiWrite [0xB0; 1; 63]; LedSetKeyValue 0 63;
                      DisplayShowFullStatus 1 "Default" "Cutoff" 63 1 1;
                      MidiWrite [0xB0; 2; 63]; LedSetKeyValue 1 63;
                      LedShow; Sleep 10000 ]) ∧
    key_cc_values st' = [63; 63] ++ replicate 14 64.
Proof.
  destruct (startup_invariant true) as (Hwf & Hsync & _).
  assert (KeyMatrix.scan (matrix_in Examples.chord_turn)
            (matrix (startup true).1) = Some Examples.chord_down) as Hscan
    by (vm_compute; reflexivity).
  assert (actual_delta Examples.chord_turn (startup true).1 = -1) as Hdelta
    by (vm_compute; reflexivity).
  assert (held_keys Examples.chord_down = [0%nat; 1%nat]) as Hheld
    by (vm_compute; reflexivity).
  split; [exact Hwf|]. split; [exact Hsync|]. split; [exact Hscan|].
  split; [exact Hdelta|]. split; [exact Hheld|].
  destruct (encoder_fan_out Examples.chord_turn (startup true).1 []
              Examples.chord_down Hwf Hsync Hscan)
    as (_ & st' & first & Hfirst & Hrun & Hcc & _);
    [rewrite Hdelta; lia | rewrite Hheld; discriminate |].
  rewrite Hheld in Hfirst. injection Hfirst as <-.
  exists st'. split.
  - rewrite Hrun. vm_compute. reflexivity.
  - apply list_eq. intros k. rewrite Hcc, Hheld, Hdelta.
    do 16 (destruct k as [|k]; [by vm_compute|]).
    rewrite decide_False; [done|].
    rewrite !elem_of_cons, elem_of_nil. lia.
Defined.

End MainMore.

(** ** The LED buffer and the display coordinates *)

Module PanelFacts.
Import Panel.

Lemma KEY_TO_LED_NoDup : NoDup LEDController.KEY_TO_LED.
Proof. apply (bool_decide_unpack _). by vm_compute. Qed.

Lemma KEY_TO_LED_range k led :
  LEDController.KEY_TO_LED !! k = Some led → 0 ≤ led < 16.
Proof.
  intros Hk. assert (k < 16)%nat as Hlt by (by apply lookup_lt_Some in Hk).
  do 16 (destruct k as [|k]; [injection Hk as <-; lia|]). lia.
Qed.

(** X23. [set_key_color] never raises; it sets the buffered colour of the
    LED under the key it is given and of no other key's LED, and does
    nothing for a key number outside 0..15; the strip itself is
    untouched until [show]. *)
Theorem set_key_color_round_trip (key_num : Z) (c : LEDController.color)
    (l : LEDController.t) :
  wf l →
  ∃ l',
    LEDController.set_key_color key_num c l = Some l' ∧
    wf l' ∧ LEDController.lit l' = LEDController.lit l ∧
    ∀ k, (k < 16)%nat →
      key_pixel l' k =
        if decide (Z.of_nat k = key_num) then Some c else key_pixel l k.
Proof.
  intros [Hnum Hlen]. unfold LEDController.set_key_color.
  case_decide as Hkey.
  - destruct (lookup_lt_is_Some_2 LEDController.KEY_TO_LED
                (Z.to_nat key_num)) as [led Hled]; [simpl in *; lia|].
    rewrite Hled. cbn [mbind option_bind].
    pose proof (KEY_TO_LED_range _ _ Hled) as Hrange.
    unfold LEDController.set_led_color.
    rewrite decide_True by (rewrite Hnum; done).
    unfold list_assign. rewrite decide_True by lia.
    cbn [mbind option_bind]. eexists. split; [done|].
    split; [split; [done|simpl; by rewrite length_insert]|]. split; [done|].
    intros k Hk. unfold key_pixel. cbn [LEDController.pixels].
    destruct (lookup_lt_is_Some_2 LEDController.KEY_TO_LED k)
      as [led' Hled']; [simpl; lia|].
    rewrite Hled'. cbn [mbind option_bind].
    pose proof (KEY_TO_LED_range _ _ Hled') as Hrange'.
    case_decide as Heq.
    + assert (k = Z.to_nat key_num) as -> by lia.
      rewrite Hled in Hled'. injection Hled' as <-.
      apply list_lookup_insert_eq. lia.
    + apply list_lookup_insert_ne. intros Hsame.
      assert (led = led') as <- by lia.
      pose proof (NoDup_lookup _ _ _ _ KEY_TO_LED_NoDup Hled Hled'). lia.
  - exists l. split; [done|]. split; [done|]. split; [done|].
    intros k Hk. rewrite decide_False; [done|]. simpl in Hkey. lia.
Qed.

Lemma set_key_color_round_trip_witness :
  wf LEDController.init ∧
  ∃ l',
    LEDController.set_key_color 8 (255, 0, 0) LEDController.init = Some l' ∧
    wf l' ∧ LEDController.lit l' = LEDController.lit LEDController.init ∧
    ∀ k, (k < 16)%nat →
      key_pixel l' k =
        if decide (Z.of_nat k = 8) then Some (255, 0, 0)
        else key_pixel LEDController.init k.
Proof.
  assert (wf LEDController.init) as Hwf by (by split).
  split; [exact Hwf|].
  exact (set_key_color_round_trip 8 (255, 0, 0) LEDController.init Hwf).
Defined.

(** X24. [rect] and [fill_rect] pass the same rectangle to the driver, and
    it is the image of the logical rectangle under [pixel]: a logical
    point lies in the rectangle given exactly when the point [pixel]
    draws for it lies in the rectangle passed on, at rotation 90 and at
    every other rotation. *)
Theorem rect_matches_pixel (d : Display.t) (x y width height color : Z)
    (px py : Z) :
  ∃ X Y W H PX PY,
    Display.fill_rect d x y width height color
      = [Display.OledFillRect X Y W H color] ∧
    Display.rect d x y width height color
      = [Display.OledRect X Y W H color] ∧
    Display.pixel d px py color = [Display.OledPixel PX PY color] ∧
    (inside X Y W H PX PY ↔ inside x y width height px py).
Proof.
  unfold Display.fill_rect, Display.rect, Display.pixel.
  case_decide; eexists _, _, _, _, _, _;
    (split; [done|]; split; [done|]; split; [done|]);
    unfold inside, Display.PHYSICAL_WIDTH; lia.
Qed.

(** X25. At rotation 90 [pixel] draws the logical point (x, y) at
    (y, 127 - x). That is a cell of the 128 by 64 panel exactly when
    64 <= x < 128 and 0 <= y < 128; for no point of the logical 64 by 128
    area is it one. *)
Theorem rotated_pixel_panel (d : Display.t) (x y color : Z) :
  Display.rotation d = 90 →
  ∃ PX PY,
    Display.pixel d x y color = [Display.OledPixel PX PY color] ∧
    (on_panel PX PY ↔ 64 ≤ x < 128 ∧ 0 ≤ y < 128) ∧
    (inside 0 0 Display.DISPLAY_WIDTH Display.DISPLAY_HEIGHT x y →
       ¬ on_panel PX PY).
Proof.
  intros Hrot. unfold Display.pixel. rewrite decide_True by done.
  eexists _, _. split; [done|].
  unfold on_panel, inside, Display.PHYSICAL_WIDTH, Display.PHYSICAL_HEIGHT,
    Display.DISPLAY_WIDTH, Display.DISPLAY_HEIGHT.
  split; [|intros ?]; lia.
Qed.

Lemma rotated_pixel_panel_witness :
  Display.rotation (Display.init 90).1 = 90 ∧
  ∃ PX PY,
    Display.pixel (Display.init 90).1 10 20 1
      = [Display.OledPixel PX PY 1] ∧
    (on_panel PX PY ↔ 64 ≤ 10 < 128 ∧ 0 ≤ 20 < 128) ∧
    (inside 0 0 Display.DISPLAY_WIDTH Display.DISPLAY_HEIGHT 10 20 →
       ¬ on_panel PX PY).
Proof.
  assert (Display.rotation (Display.init 90).1 = 90) as Hrot by reflexivity.
  split; [exact Hrot|].
  exact (rotated_pixel_panel (Display.init 90).1 10 20 1 Hrot).
Defined.

End PanelFacts.
